(** * Station-line derivation pipeline ([build-station-lines.mjs])

    A shallow embedding of the GTFS station-line builder and the
    properties its specification states about it.

    Conventions of the embedding:
    - a parsed CSV record (csv-parse with [columns: true]) is a finite map
      from column name to trimmed string; a column the record lacks reads
      as [None] (JavaScript [undefined]);
    - the JavaScript [Map]s that are only read by key ([stopToStation],
      [stationName], [routeMap], [tripToRoute]) are [gmap string _];
    - the [Map] whose iteration order reaches the output ([stationRoutes])
      and the [Set]s it holds are insertion-ordered lists;
    - counters are [N];
    - console output is a list of structured messages;
    - the collator behind [localeCompare] is the platform's: the scripts
      are defined over any collator (the class [Collator]), and the
      scenarios are evaluated in the root collation on 7-bit ASCII. *)

From Stdlib Require Import ZArith NArith Ascii String DecimalString.
From stdpp Require Import base option list gmap strings sorting.

Local Open Scope string_scope.
Local Open Scope list_scope.

(** ** JavaScript values used by the script *)

Abbreviation Row := (gmap string string).

(** [!x] for a field that is a string or [undefined]. *)
Definition falsy (x : option string) : bool :=
  match x with
  | None => true
  | Some s => bool_decide (s = "")
  end.

(** The value of a truthy field, [None] for [undefined] and for [""]. *)
Definition truthy (x : option string) : option string :=
  match x with
  | Some s => if bool_decide (s = "") then None else Some s
  | None => None
  end.

(** [x || d]. *)
Definition or_else (x : option string) (d : string) : string :=
  match truthy x with
  | Some s => s
  | None => d
  end.

(** A JavaScript [Map] in insertion order: [set] on a key that is present
    replaces the value where it stands, a new key goes to the end. *)
Module JSMap.
Section ops.
Context {V : Type}.

Fixpoint get (k : string) (m : list (string * V)) : option V :=
  match m with
  | [] => None
  | (k', v) :: m' => if bool_decide (k = k') then Some v else get k m'
  end.

Fixpoint set (k : string) (v : V) (m : list (string * V)) : list (string * V) :=
  match m with
  | [] => [(k, v)]
  | (k', v') :: m' =>
      if bool_decide (k = k') then (k, v) :: m' else (k', v') :: set k v m'
  end.

Definition keys (m : list (string * V)) : list string := m.*1.
End ops.
End JSMap.

(** A JavaScript [Set] of strings in insertion order. *)
Module JSSet.
Definition add (x : string) (s : list string) : list string :=
  if bool_decide (x ∈ s) then s else s ++ [x].

(** [new Set(iterable)]: the elements are added one by one. *)
Definition from (l : list string) : list string :=
  foldl (fun s x => add x s) [] l.
End JSSet.

(** ** [String.prototype.localeCompare]: the root collation on 7-bit ASCII

    The collation tables belong to the platform (ICU), not to the
    repository, and the order they give depends on the locale of the
    process.  The scripts are modelled over any collator (the class
    [Collator] below).  This module gives one collator, in which the
    scenarios are evaluated: the root collation at primary strength
    ([sensitivity: "base"]) on strings of 7-bit ASCII.  There control
    characters are ignored, white space sorts before punctuation,
    punctuation before symbols, symbols before digits, digits before
    letters, and letters compare without regard to case.  With
    [numeric: true] a run of digits is read as numbers: ICU reads at most
    254 digits as one number, so a longer run is cut into segments of 254
    digits, and each segment is read without its leading zeros.  Bytes
    above 127 are outside the tables modelled; they are placed after the
    letters. *)
Module Collation.

Definition code (c : ascii) : Z := Z.of_nat (nat_of_ascii c).

Definition is_digit (c : ascii) : bool :=
  (48 <=? code c)%Z && (code c <=? 57)%Z.

Definition digit_value (c : ascii) : Z := (code c - 48)%Z.

(** Code points of the ASCII punctuation and symbols in root collation
    order: _ - , ; : ! ? . then the single and the double quote, then
    ( ) [ ] { } @ * / \ & # % ` ^ + < = > | ~ $ *)
Definition punct_order : list Z :=
  [95; 45; 44; 59; 58; 33; 63; 46; 39; 34; 40; 41; 91; 93; 123; 125; 64;
   42; 47; 92; 38; 35; 37; 96; 94; 43; 60; 61; 62; 124; 126; 36]%Z.

Fixpoint index_of (n : Z) (l : list Z) : option Z :=
  match l with
  | [] => None
  | m :: l' => if (n =? m)%Z then Some 0%Z else Z.succ <$> index_of n l'
  end.

(** A collation element: a class and a weight inside the class.
    Classes: 0 white space, 1 punctuation and symbols, 2 digits,
    3 letters, 4 bytes above 127. *)
Definition element : Type := Z * Z.

(** The element of one character that is not part of a numeric run;
    [None] for an ignored character. *)
Definition char_element (c : ascii) : option element :=
  let n := code c in
  if ((9 <=? n) && (n <=? 13))%Z then Some (0, n)%Z
  else if (n =? 32)%Z then Some (0, 32)%Z
  else if is_digit c then Some (2, digit_value c)%Z
  else if ((65 <=? n) && (n <=? 90))%Z then Some (3, n + 32)%Z
  else if ((97 <=? n) && (n <=? 122))%Z then Some (3, n)%Z
  else if (128 <=? n)%Z then Some (4, n)%Z
  else match index_of n punct_order with
       | Some i => Some (1, i)%Z
       | None => None
       end.

(** The digit run in progress: the value of the digits of the segment
    being read, without its leading zeros, and the number of those
    digits. *)
Definition flush (pending : option (Z * Z)) : list element :=
  match pending with
  | Some (v, _) => [(2, v)%Z]
  | None => []
  end.

(** The most digits read as one number. *)
Definition segment_digits : Z := 254.

(** A segment that starts with the digit [d]: a zero counts for nothing
    as long as a digit follows it. *)
Definition start_segment (d : Z) : Z * Z :=
  (d, if (d =? 0)%Z then 0 else 1)%Z.

(** One more digit of the run: the element of the segment it closes, if
    it closes one, and the segment in progress after it. *)
Definition push_digit (pending : option (Z * Z)) (d : Z) : list element * (Z * Z) :=
  match pending with
  | None => ([], start_segment d)
  | Some (v, n) =>
      if (n =? segment_digits)%Z then ([(2, v)%Z], start_segment d)
      else ([], ((10 * v + d)%Z,
                 if (v =? 0)%Z && (d =? 0)%Z then 0%Z else (n + 1)%Z))
  end.

(** The collation key of a string, read left to right; [pending] is
    the digit run in progress, when [numeric] is set. *)
Fixpoint key_from (numeric : bool) (pending : option (Z * Z)) (s : string)
  : list element :=
  match s with
  | EmptyString => flush pending
  | String c s' =>
      if numeric && is_digit c then
        let '(closed, run) := push_digit pending (digit_value c) in
        closed ++ key_from numeric (Some run) s'
      else
        flush pending ++ option_list (char_element c) ++ key_from numeric None s'
  end.

Definition key (numeric : bool) (s : string) : list element :=
  key_from numeric None s.

Definition element_compare (a b : element) : comparison :=
  match Z.compare a.1 b.1 with
  | Eq => Z.compare a.2 b.2
  | c => c
  end.

Fixpoint key_compare (k1 k2 : list element) : comparison :=
  match k1, k2 with
  | [], [] => Eq
  | [], _ :: _ => Lt
  | _ :: _, [] => Gt
  | a :: k1', b :: k2' =>
      match element_compare a b with
      | Eq => key_compare k1' k2'
      | c => c
      end
  end.

(** ASCII lower case, to state that the comparison ignores case. *)
Definition lower (c : ascii) : ascii :=
  if ((65 <=? code c) && (code c <=? 90))%Z
  then ascii_of_nat (nat_of_ascii c + 32)
  else c.

Fixpoint toLowerCase (s : string) : string :=
  match s with
  | EmptyString => EmptyString
  | String c s' => String (lower c) (toLowerCase s')
  end.

(** The strings of decimal digits, and the number one denotes. *)
Fixpoint all_digits (s : string) : bool :=
  match s with
  | EmptyString => true
  | String c s' => is_digit c && all_digits s'
  end.

Fixpoint decimal (acc : Z) (s : string) : Z :=
  match s with
  | EmptyString => acc
  | String c s' => decimal (10 * acc + digit_value c)%Z s'
  end.

(** The strings of 7-bit ASCII, which the tables above cover. *)
Fixpoint ascii_only (s : string) : bool :=
  match s with
  | EmptyString => true
  | String c s' => (code c <? 128)%Z && ascii_only s'
  end.

(** The string starts with a digit; the string ends with one. *)
Definition starts_with_digit (s : string) : bool :=
  match s with
  | EmptyString => false
  | String c _ => is_digit c
  end.


(** [a.localeCompare(b, undefined, { numeric, sensitivity: "base" })]:
    [Lt], [Eq], [Gt] for a negative, zero, positive result. *)
Definition localeCompare (numeric : bool) (a b : string) : comparison :=
  key_compare (key numeric a) (key numeric b).

End Collation.

(** ** The collator of the platform

    [a.localeCompare(b, undefined, { numeric, sensitivity: "base" })] is
    answered by the collator of the platform for the locale of the
    process.  The scripts pass [sensitivity: "base"] in every call and
    [numeric: true] in one; a collator is here the comparison for each
    value of [numeric]. *)
Class Collator := localeCompare : bool → string → string → comparison.

(** A consistent comparator, as [Array.prototype.sort] expects one:
    exchanging the arguments exchanges the answer, and "not after" is
    transitive. *)
Definition consistent {A : Type} (cmp : A → A → comparison) : Prop :=
  (∀ a b, cmp b a = CompOpp (cmp a b))
  ∧ (∀ a b c, cmp a b ≠ Gt → cmp b c ≠ Gt → cmp a c ≠ Gt).

(** The collator compares consistently, with and without [numeric]. *)
Definition lawful (C : Collator) : Prop :=
  ∀ numeric, consistent (localeCompare (Collator := C) numeric).

(** The root collation on 7-bit ASCII, the collator of the scenarios. *)
#[global] Instance root_collator : Collator := Collation.localeCompare.

(** ** [Array.prototype.sort]

    The sort is stable, and for a comparator that is a total preorder
    (as [localeCompare] is) its result is the one stable sorted
    arrangement of the array, which this insertion sort computes: an
    element is placed before the first element of the sorted tail that
    does not precede it strictly. *)
Section array_sort.
Context {A : Type} (cmp : A → A → comparison).

Fixpoint sort_insert (x : A) (l : list A) : list A :=
  match l with
  | [] => [x]
  | y :: l' =>
      match cmp x y with
      | Gt => y :: sort_insert x l'
      | _ => x :: l
      end
  end.

Fixpoint array_sort (l : list A) : list A :=
  match l with
  | [] => []
  | x :: l' => sort_insert x (array_sort l')
  end.
End array_sort.

(** ** Records of the script *)

Module StopInfo.
Record t := mk { name : string; parent_station : string }.
End StopInfo.

Module RouteInfo.
Record t := mk { shortName : string; longName : string; routeType : string }.
End RouteInfo.

(** One element of the output array: [{ id, name, lines }]. *)
Module Station.
Record t := mk { id : string; name : string; lines : list string }.
End Station.

(** Console lines.  A count stands for its [toLocaleString()] rendering. *)
Inductive Msg :=
  | MsgGtfsDir (dir : string)
  | MsgOutput (file : string)
  | MsgFilter
  | MsgLoadedStops (n : N)
  | MsgLoadedRoutes (n : N)
  | MsgLoadedTrips (n : N)
  | MsgLoadedTripsTotal (n : N)
  | MsgTripRouteSize (n : N)
  | MsgProcessed (rows stations : N)
  | MsgProcessedTotal (rows : N)
  | MsgUnknownTrips (n : N)
  | MsgUnknownStops (n : N)
  | MsgWrote (n : N) (file : string)
  | MsgMissing (file path : string).

(** ** [loadStops] *)

(** The three maps the loop over [stops.txt] fills. *)
Module Stops.
Record t := mk {
  stopInfo : gmap string StopInfo.t;
  stopToStation : gmap string string;
  stationName : gmap string string
}.
Definition empty : t := mk ∅ ∅ ∅.
End Stops.

(** [parent && parent.length ? parent : stop_id] *)
Definition station_of (parent stop_id : string) : string :=
  if bool_decide (parent = "") then stop_id else parent.

(** The body of the loop over [stops.txt]. *)
Definition loadStops_step (st : Stops.t) (row : Row) : Stops.t :=
  match truthy (row !! "stop_id") with
  | None => st
  | Some stop_id =>
      let name := or_else (row !! "stop_name") "" in
      let parent := or_else (row !! "parent_station") "" in
      let station_id := station_of parent stop_id in
      Stops.mk
        (<[stop_id := StopInfo.mk name parent]> (Stops.stopInfo st))
        (<[stop_id := station_id]> (Stops.stopToStation st))
        (if negb (bool_decide (is_Some (Stops.stationName st !! station_id)))
            || (bool_decide (parent = "") && negb (bool_decide (name = "")))
         then <[station_id := name]> (Stops.stationName st)
         else Stops.stationName st)
  end.

(** The loop; the script returns the last two maps of the result. *)
Definition loadStops (rows : list Row) : Stops.t :=
  foldl loadStops_step Stops.empty rows.

(** ** [loadRoutes] *)

Definition loadRoutes_step (routeMap : gmap string RouteInfo.t) (row : Row)
  : gmap string RouteInfo.t :=
  match truthy (row !! "route_id") with
  | None => routeMap
  | Some route_id =>
      let shortName := or_else (row !! "route_short_name") route_id in
      let longName := or_else (row !! "route_long_name") "" in
      let routeType := default "" (row !! "route_type") in
      <[route_id := RouteInfo.mk shortName longName routeType]> routeMap
  end.

Definition loadRoutes (rows : list Row) : gmap string RouteInfo.t :=
  foldl loadRoutes_step ∅ rows.

(** ** [loadTripsToRoute] *)

Module Trips.
Record t := mk {
  tripToRoute : gmap string string;
  count : N;
  console : list Msg
}.
Definition empty : t := mk ∅ 0 [].
End Trips.

Definition loadTripsToRoute_step (st : Trips.t) (row : Row) : Trips.t :=
  match truthy (row !! "trip_id"), truthy (row !! "route_id") with
  | Some trip_id, Some route_id =>
      let count := (Trips.count st + 1)%N in
      Trips.mk
        (<[trip_id := route_id]> (Trips.tripToRoute st))
        count
        (if (count mod 200000 =? 0)%N
         then Trips.console st ++ [MsgLoadedTrips count]
         else Trips.console st)
  | _, _ => st
  end.

Definition loadTripsToRoute_loop (rows : list Row) : Trips.t :=
  foldl loadTripsToRoute_step Trips.empty rows.

(** The index, and the lines printed while building it. *)
Definition loadTripsToRoute (rows : list Row) : gmap string string * list Msg :=
  let st := loadTripsToRoute_loop rows in
  (Trips.tripToRoute st, Trips.console st ++ [MsgLoadedTripsTotal (Trips.count st)]).

(** ** [buildStationLines] *)

(** The argument object of [buildStationLines]. *)
Record Indices := {
  stopToStation : gmap string string;
  stationName : gmap string string;
  routeMap : gmap string RouteInfo.t;
  tripToRoute : gmap string string
}.

(** The state of the loop over [stop_times.txt]. *)
Module Agg.
Record t := mk {
  stationRoutes : list (string * list string);
  rows : N;
  missedTrips : N;
  missedStops : N;
  console : list Msg
}.
Definition empty : t := mk [] 0 0 0 [].
End Agg.

(** [r && r.routeType && r.routeType !== "1"] for [r = routeMap.get(route_id)]. *)
Definition not_subway (ix : Indices) (route_id : string) : bool :=
  match routeMap ix !! route_id with
  | Some r =>
      negb (bool_decide (RouteInfo.routeType r = ""))
      && negb (bool_decide (RouteInfo.routeType r = "1"))
  | None => false
  end.

(** [stationRoutes.get], create the set when absent, [set.add]. *)
Definition add_route (station_id route_id : string)
    (stationRoutes : list (string * list string)) : list (string * list string) :=
  match JSMap.get station_id stationRoutes with
  | None => JSMap.set station_id (JSSet.add route_id []) stationRoutes
  | Some set => JSMap.set station_id (JSSet.add route_id set) stationRoutes
  end.

(** The body of the loop over [stop_times.txt]. *)
Definition aggregate_step (ONLY_SUBWAY : bool) (ix : Indices) (st : Agg.t) (row : Row) : Agg.t :=
  let rows := (Agg.rows st + 1)%N in
  let skipped := Agg.mk (Agg.stationRoutes st) rows (Agg.missedTrips st)
                        (Agg.missedStops st) (Agg.console st) in
  match truthy (row !! "trip_id"), truthy (row !! "stop_id") with
  | Some trip_id, Some stop_id =>
      match truthy (tripToRoute ix !! trip_id) with
      | None =>
          Agg.mk (Agg.stationRoutes st) rows (Agg.missedTrips st + 1)%N
                 (Agg.missedStops st) (Agg.console st)
      | Some route_id =>
          match truthy (stopToStation ix !! stop_id) with
          | None =>
              Agg.mk (Agg.stationRoutes st) rows (Agg.missedTrips st)
                     (Agg.missedStops st + 1)%N (Agg.console st)
          | Some station_id =>
              if ONLY_SUBWAY && not_subway ix route_id then skipped
              else
                let stationRoutes := add_route station_id route_id (Agg.stationRoutes st) in
                Agg.mk stationRoutes rows (Agg.missedTrips st) (Agg.missedStops st)
                  (if (rows mod 1000000 =? 0)%N
                   then Agg.console st
                          ++ [MsgProcessed rows (N.of_nat (length stationRoutes))]
                   else Agg.console st)
          end
      end
  | _, _ => skipped
  end.

Definition aggregate (ONLY_SUBWAY : bool) (ix : Indices) (stop_times : list Row) : Agg.t :=
  foldl (aggregate_step ONLY_SUBWAY ix) Agg.empty stop_times.

(** The lines printed after the loop. *)
Definition summary (st : Agg.t) : list Msg :=
  [MsgProcessedTotal (Agg.rows st)]
  ++ (if (Agg.missedTrips st =? 0)%N then [] else [MsgUnknownTrips (Agg.missedTrips st)])
  ++ (if (Agg.missedStops st =? 0)%N then [] else [MsgUnknownStops (Agg.missedStops st)]).

(** [routeMap.get(rid)?.shortName || rid] *)
Definition line_code (ix : Indices) (rid : string) : string :=
  or_else (RouteInfo.shortName <$> routeMap ix !! rid) rid.

Section collator.
Context {C : Collator}.

(** The comparator of the lines of one station. *)
Definition compare_lines : string → string → comparison :=
  localeCompare true.

(** The comparator of the stations, on their names. *)
Definition compare_stations (a b : Station.t) : comparison :=
  localeCompare false (Station.name a) (Station.name b).

(** One iteration of the loop over [stationRoutes.entries()]. *)
Definition station_record (ix : Indices) (entry : string * list string) : Station.t :=
  let '(station_id, routeIds) := entry in
  let name := or_else (stationName ix !! station_id) station_id in
  let lines := filter (λ code, code ≠ "") (line_code ix <$> routeIds) in
  let unique := array_sort compare_lines (JSSet.from lines) in
  Station.mk station_id name unique.

(** The conversion of the accumulator to the sorted output array. *)
Definition assemble (ix : Indices) (stationRoutes : list (string * list string))
  : list Station.t :=
  array_sort compare_stations (station_record ix <$> stationRoutes).

(** The output array, and the lines printed on the way. *)
Definition buildStationLines (ONLY_SUBWAY : bool) (ix : Indices) (stop_times : list Row)
  : list Station.t * list Msg :=
  let st := aggregate ONLY_SUBWAY ix stop_times in
  (assemble ix (Agg.stationRoutes st), Agg.console st ++ summary st).
End collator.

(** ** The script: arguments, pre-flight check, [main]

    Failures of the platform while the tables are read or the output is
    written (a rejected promise, reported by the handler attached to
    [main()]) are not part of the model: a file that exists is read to
    its end as a list of records, and the output file can be written. *)

(** What a run leaves behind. *)
Record Outcome := {
  exitCode : Z;
  stdout : list Msg;
  stderr : list Msg;
  written : option (string * list Station.t)
}.

(** The indices [main] hands to [buildStationLines]. *)
Definition indices (stops routes trips : list Row) : Indices :=
  {| stopToStation := Stops.stopToStation (loadStops stops);
     stationName := Stops.stationName (loadStops stops);
     routeMap := loadRoutes routes;
     tripToRoute := (loadTripsToRoute trips).1 |}.

(** The array [main] serialises, as a function of the four tables. *)
Definition pipeline {C : Collator} (ONLY_SUBWAY : bool)
    (stops routes trips stop_times : list Row) : list Station.t :=
  (buildStationLines ONLY_SUBWAY (indices stops routes trips) stop_times).1.

Fixpoint getArg (name fallback : string) (argv : list string) : string :=
  match argv with
  | [] => fallback
  | a :: rest =>
      if bool_decide (a = name)
      then match rest with v :: _ => v | [] => fallback end
      else getArg name fallback rest
  end.

Definition required : list string :=
  ["stops.txt"; "routes.txt"; "trips.txt"; "stop_times.txt"].

Section script.
Context {C : Collator}.
(** [path.join] of the platform. *)
Variable path_join : string → string → string.
(** [process.argv]. *)
Variable argv : list string.
(** The files that exist, each with the records the reader yields. *)
Variable fs : string → option (list Row).

Definition GTFS_DIR : string := getArg "--gtfs" "./gtfs" argv.
Definition OUT_FILE : string := getArg "--out" "./stations-lines.json" argv.
Definition ONLY_SUBWAY : bool := bool_decide ("--only-subway" ∈ argv).

(** The loop over [required]: the report of the first file that does
    not exist, if any. *)
Fixpoint preflight (files : list string) : option Msg :=
  match files with
  | [] => None
  | f :: files' =>
      let p := path_join GTFS_DIR f in
      if bool_decide (is_Some (fs p)) then preflight files'
      else Some (MsgMissing f p)
  end.

(** The records of a file; every call follows the check that it exists. *)
Definition streamCsv (filePath : string) : list Row :=
  default [] (fs filePath).

Definition main : Outcome :=
  let stops := loadStops (streamCsv (path_join GTFS_DIR "stops.txt")) in
  let routeMap := loadRoutes (streamCsv (path_join GTFS_DIR "routes.txt")) in
  let trips := loadTripsToRoute (streamCsv (path_join GTFS_DIR "trips.txt")) in
  let ix := {| stopToStation := Stops.stopToStation stops;
               stationName := Stops.stationName stops;
               routeMap := routeMap;
               tripToRoute := trips.1 |} in
  let built := buildStationLines ONLY_SUBWAY ix
                 (streamCsv (path_join GTFS_DIR "stop_times.txt")) in
  {| exitCode := 0;
     stdout :=
       [MsgGtfsDir GTFS_DIR; MsgOutput OUT_FILE]
       ++ (if ONLY_SUBWAY then [MsgFilter] else [])
       ++ [MsgLoadedStops (N.of_nat (size (Stops.stopToStation stops)))]
       ++ [MsgLoadedRoutes (N.of_nat (size routeMap))]
       ++ trips.2
       ++ [MsgTripRouteSize (N.of_nat (size trips.1))]
       ++ built.2
       ++ [MsgWrote (N.of_nat (length built.1)) OUT_FILE];
     stderr := [];
     written := Some (OUT_FILE, built.1) |}.

(** The whole module: the pre-flight check, then [main]. *)
Definition script : Outcome :=
  match preflight required with
  | Some report =>
      {| exitCode := 1; stdout := []; stderr := [report]; written := None |}
  | None => main
  end.
End script.

(** ** Vocabulary of the properties *)

(** [x] may stand before [y] in an array sorted with [cmp]. *)
Definition cmp_le {A : Type} (cmp : A → A → comparison) (x y : A) : Prop :=
  cmp x y ≠ Gt.

(** The station and the route a stop-time record resolves to through
    the indices (the first three tests of the loop body). *)
Definition resolves (ix : Indices) (row : Row) : option (string * string) :=
  trip_id ← truthy (row !! "trip_id");
  stop_id ← truthy (row !! "stop_id");
  route_id ← truthy (tripToRoute ix !! trip_id);
  station_id ← truthy (stopToStation ix !! stop_id);
  Some (station_id, route_id).

(** The insertion a stop-time record performs, if it performs one. *)
Definition event (ONLY_SUBWAY : bool) (ix : Indices) (row : Row)
  : option (string * string) :=
  match resolves ix row with
  | Some (station_id, route_id) =>
      if ONLY_SUBWAY && not_subway ix route_id then None
      else Some (station_id, route_id)
  | None => None
  end.

(** [route_id] is in the set the accumulator holds for [station_id]. *)
Definition has_route (station_id route_id : string)
    (stationRoutes : list (string * list string)) : Prop :=
  ∃ set, JSMap.get station_id stationRoutes = Some set ∧ route_id ∈ set.

(** The accumulator has one entry per key, and no entry is an empty or
    repeating set. *)
Definition well_formed (stationRoutes : list (string * list string)) : Prop :=
  NoDup (JSMap.keys stationRoutes)
  ∧ ∀ s set, JSMap.get s stationRoutes = Some set → set ≠ [] ∧ NoDup set.

(** The accumulator after a list of insertions. *)
Definition accumulate (m : list (string * list string)) (events : list (string * string))
  : list (string * list string) :=
  foldl (λ m e, add_route e.1 e.2 m) m events.

(** ** The Stop Resolver's rule for names, as the specification words it *)

(** The row is parent-less: it is a station row. *)
Definition is_station_row (row : Row) : Prop :=
  or_else (row !! "parent_station") "" = "".

Definition row_name (row : Row) : string := or_else (row !! "stop_name") "".

(** The station of a row: its parent when it has one, else its own id;
    there is none when the row has no stop id. *)
Definition row_station (row : Row) : option string :=
  stop_id ← truthy (row !! "stop_id");
  Some (station_of (or_else (row !! "parent_station") "") stop_id).

(** The row records or overwrites the name of its station: it is a
    parent-less row carrying a non-empty name, or no name has been
    recorded for the station yet. *)
Definition records_name (names : gmap string string) (row : Row) (station_id : string)
  : Prop :=
  (is_station_row row ∧ row_name row ≠ "") ∨ names !! station_id = None.

Definition name_rule (names : gmap string string) (row : Row) : gmap string string :=
  match row_station row with
  | None => names
  | Some station_id =>
      if decide (records_name names row station_id)
      then <[station_id := row_name row]> names
      else names
  end.

(** ** Mode classification and unresolved references *)

(** The Route Catalog knows the route, with a classification that is
    neither blank nor the subway one. *)
Definition classified_non_subway (ix : Indices) (route_id : string) : Prop :=
  ∃ r, routeMap ix !! route_id = Some r
       ∧ RouteInfo.routeType r ≠ "" ∧ RouteInfo.routeType r ≠ "1".

(** The Route Catalog does not know the route, or knows it with a blank
    classification. *)
Definition unclassified (ix : Indices) (route_id : string) : Prop :=
  routeMap ix !! route_id = None
  ∨ ∃ r, routeMap ix !! route_id = Some r ∧ RouteInfo.routeType r = "".

(** Both key fields of a stop-time record are present. *)
Definition keyed (row : Row) : bool :=
  negb (falsy (row !! "trip_id")) && negb (falsy (row !! "stop_id")).

(** The record names a trip the Trip-to-Route Index does not hold. *)
Definition orphan_trip (ix : Indices) (row : Row) : bool :=
  match truthy (row !! "trip_id") with
  | Some trip_id => bool_decide (tripToRoute ix !! trip_id = None)
  | None => false
  end.

(** The record names a stop the Stop Resolver does not hold. *)
Definition orphan_stop (ix : Indices) (row : Row) : bool :=
  match truthy (row !! "stop_id") with
  | Some stop_id => bool_decide (stopToStation ix !! stop_id = None)
  | None => false
  end.

(** The indices hold no empty route id and no empty station id, as those
    the loaders build. *)
Definition clean (ix : Indices) : Prop :=
  (∀ t r, tripToRoute ix !! t = Some r → r ≠ "")
  ∧ (∀ p s, stopToStation ix !! p = Some s → s ≠ "").

(** ** Scenarios of the specification *)

Module Scenario.
(** The end-to-end scenario: a parent station, one child stop, one
    route, one trip, one stop-time record. *)
Definition parent_row : Row :=
  {[ "stop_id" := "101"; "stop_name" := "Grand Ave"; "parent_station" := "" ]}.
Definition child_row : Row :=
  {[ "stop_id" := "101N"; "stop_name" := "Grand Ave (northbound)";
     "parent_station" := "101" ]}.
Definition stops : list Row := [parent_row; child_row].
Definition routes : list Row := [ {[ "route_id" := "Q"; "route_short_name" := "Q" ]} ].
Definition trips : list Row := [ {[ "trip_id" := "t1"; "route_id" := "Q" ]} ].
Definition stop_times : list Row := [ {[ "trip_id" := "t1"; "stop_id" := "101N" ]} ].
Definition expected : list Station.t := [Station.mk "101" "Grand Ave" ["Q"]].

(** The same tables as files of the directory [gtfs]. *)
Definition join (dir file : string) : string := dir ++ "/" ++ file.
Definition argv : list string :=
  ["node"; "build-station-lines.mjs"; "--gtfs"; "gtfs"; "--out"; "out.json"].
Definition files (stops routes trips stop_times : option (list Row)) (p : string)
  : option (list Row) :=
  if bool_decide (p = "gtfs/stops.txt") then stops
  else if bool_decide (p = "gtfs/routes.txt") then routes
  else if bool_decide (p = "gtfs/trips.txt") then trips
  else if bool_decide (p = "gtfs/stop_times.txt") then stop_times
  else None.
Definition fs : string → option (list Row) :=
  files (Some stops) (Some routes) (Some trips) (Some stop_times).

(** Natural ordering: one station served by the routes 10, 2, 1 and A,
    met in that order. *)
Definition route_row (id : string) : Row := {[ "route_id" := id ]}.
Definition trip_row (trip route : string) : Row :=
  {[ "trip_id" := trip; "route_id" := route ]}.
Definition visit (trip stop : string) : Row :=
  {[ "trip_id" := trip; "stop_id" := stop ]}.
Definition four_routes : list Row :=
  [route_row "10"; route_row "2"; route_row "1"; route_row "A"].
Definition four_trips : list Row :=
  [trip_row "a" "10"; trip_row "b" "2"; trip_row "c" "1"; trip_row "d" "A"].
Definition four_visits : list Row :=
  [visit "a" "101N"; visit "b" "101N"; visit "c" "101N"; visit "d" "101N";
   visit "a" "101N"].
Definition four_indices : Indices := indices stops four_routes four_trips.
Definition four_station : Station.t :=
  Station.mk "101" "Grand Ave" ["1"; "2"; "10"; "A"].



(** Subway-only filter: a bus route, a route without classification
    and a subway route serve the station. *)
Definition typed_route (id type : string) : Row :=
  {[ "route_id" := id; "route_type" := type ]}.
Definition mixed_routes : list Row :=
  [typed_route "B1" "3"; typed_route "SIR" ""; typed_route "Q" "1"].
Definition mixed_trips : list Row :=
  [trip_row "b" "B1"; trip_row "s" "SIR"; trip_row "q" "Q"].
Definition mixed_visits : list Row :=
  [visit "b" "101N"; visit "s" "101N"; visit "q" "101N"].
Definition mixed_indices : Indices := indices stops mixed_routes mixed_trips.

(** Orphan tolerance: a record of an unknown trip and a record of an
    unknown stop precede the record of the end-to-end scenario. *)
Definition orphan_visits : list Row :=
  [visit "ghost" "101N"; visit "t1" "nowhere"; visit "t1" "101N"].

(** Sorting by name: the stations "Elm St" and "dock St", visited in
    that order by the trip of the end-to-end scenario. *)
Definition street_stops : list Row :=
  [ {[ "stop_id" := "E"; "stop_name" := "Elm St" ]};
    {[ "stop_id" := "D"; "stop_name" := "dock St" ]} ].
Definition street_visits : list Row := [visit "t1" "E"; visit "t1" "D"].

(** Rows that lack a key field, one for each table. *)
Definition stop_without_id : Row := {[ "stop_name" := "Nowhere" ]}.
Definition route_without_id : Row := {[ "route_short_name" := "Z" ]}.
Definition trip_without_id : Row := {[ "route_id" := "Q" ]}.
Definition visit_without_stop : Row := {[ "trip_id" := "t1" ]}.
Definition trip_without_route : Row := {[ "trip_id" := "t9"; "route_id" := "" ]}.

(** The number of rows of a table that lack the key field [key]. *)
Definition missing (key : string) (rows : list Row) : nat :=
  length (filter (λ row, falsy (row !! key) = true) rows).

(** Parent/child resolution: the station row "S1" named "Main St"
    stands between two of its child rows. *)
Definition main_st : Row :=
  {[ "stop_id" := "S1"; "stop_name" := "Main St"; "parent_station" := "" ]}.
Definition main_st_north : Row :=
  {[ "stop_id" := "S1N"; "stop_name" := "Main St (north)"; "parent_station" := "S1" ]}.
Definition main_st_south : Row :=
  {[ "stop_id" := "S1S"; "stop_name" := "Main St (south)"; "parent_station" := "S1" ]}.
End Scenario.

(** * The departure server ([index.js])

    The functions of the server that do not touch the network: the
    normalisation of a line name, the choice of the feeds to fetch and
    the extraction of the departures from the decoded feeds. *)

(** ** Strings

    [trim] and [toUpperCase] on 7-bit ASCII: the white space is TAB, LF,
    VT, FF, CR and the space; the letters a to z have an upper case.
    Characters above 127 are outside the model and are left as they
    are. *)
Module JSString.

Definition is_space (c : ascii) : bool :=
  let n := Collation.code c in
  ((9 <=? n) && (n <=? 13))%Z || (n =? 32)%Z.

Fixpoint trimStart (s : string) : string :=
  match s with
  | EmptyString => EmptyString
  | String c s' => if is_space c then trimStart s' else s
  end.

Fixpoint trimEnd (s : string) : string :=
  match s with
  | EmptyString => EmptyString
  | String c s' =>
      match trimEnd s' with
      | EmptyString => if is_space c then EmptyString else String c EmptyString
      | t => String c t
      end
  end.

Definition trim (s : string) : string := trimEnd (trimStart s).

Definition upper (c : ascii) : ascii :=
  if ((97 <=? Collation.code c) && (Collation.code c <=? 122))%Z
  then ascii_of_nat (nat_of_ascii c - 32)
  else c.

Fixpoint toUpperCase (s : string) : string :=
  match s with
  | EmptyString => EmptyString
  | String c s' => String (upper c) (toUpperCase s')
  end.

(** The string holds white space only. *)
Fixpoint blank (s : string) : bool :=
  match s with
  | EmptyString => true
  | String c s' => is_space c && blank s'
  end.

(** [array.join(sep)] for an array of strings. *)
Fixpoint join (sep : string) (l : list string) : string :=
  match l with
  | [] => ""
  | [x] => x
  | x :: l' => x ++ sep ++ join sep l'
  end.

End JSString.

Module Server.

(** [String(x || "").trim().toUpperCase()] *)
Definition normalizeLine (x : option string) : string :=
  JSString.toUpperCase (JSString.trim (or_else x "")).

Definition feed (suffix : string) : string :=
  "https://api-endpoint.mta.info/Dataservice/mtagtfsfeeds/nyct%2Fgtfs" ++ suffix.

Definition ALL_FEEDS : list string :=
  [feed "-ace"; feed "-bdfm"; feed "-g"; feed "-jz"; feed "-nqrw"; feed "-l";
   feed ""; feed "-si"].

(** The own properties of the object literal.  The names an object
    inherits all hold lower-case letters, and the table is only read at
    normalised names. *)
Definition FEED_BY_LINE : list (string * string) :=
  [("A", feed "-ace"); ("C", feed "-ace"); ("E", feed "-ace");
   ("B", feed "-bdfm"); ("D", feed "-bdfm"); ("F", feed "-bdfm"); ("M", feed "-bdfm");
   ("G", feed "-g");
   ("J", feed "-jz"); ("Z", feed "-jz");
   ("N", feed "-nqrw"); ("Q", feed "-nqrw"); ("R", feed "-nqrw"); ("W", feed "-nqrw");
   ("L", feed "-l");
   ("1", feed ""); ("2", feed ""); ("3", feed ""); ("4", feed ""); ("5", feed "");
   ("6", feed ""); ("7", feed ""); ("S", feed "");
   ("SI", feed "-si"); ("SIR", feed "-si")].

(** [(lines || []).map(normalizeLine).filter(Boolean)] *)
Definition wanted_lines (lines : list string) : list string :=
  filter (λ l, l ≠ "") ((λ l, normalizeLine (Some l)) <$> lines).

(** The loop that collects the feeds of the wanted lines. *)
Definition collect_feeds (wanted : list string) : list string :=
  foldl (λ set l,
           match truthy (JSMap.get l FEED_BY_LINE) with
           | Some u => JSSet.add u set
           | None => set
           end) [] wanted.

Definition pickFeedUrlsForLines (lines : list string) : list string :=
  let wanted := wanted_lines lines in
  match wanted with
  | [] => ALL_FEEDS
  | _ =>
      match collect_feeds wanted with
      | [] => ALL_FEEDS
      | urls => urls
      end
  end.

(** ** The decoded feeds *)

Module StopTimeEvent.
Record t := mk { time : option Z }.
End StopTimeEvent.

Module StopTimeUpdate.
Record t := mk {
  stopId : option string;
  arrival : option StopTimeEvent.t;
  departure : option StopTimeEvent.t
}.
End StopTimeUpdate.

Module TripDescriptor.
Record t := mk {
  routeId : option string;
  tripId : option string;
  trip_id : option string
}.
End TripDescriptor.

Module TripUpdate.
Record t := mk {
  trip : option TripDescriptor.t;
  stopTimeUpdate : option (list StopTimeUpdate.t)
}.
End TripUpdate.

Module FeedEntity.
Record t := mk { tripUpdate : option TripUpdate.t }.
End FeedEntity.

Module FeedMessage.
Record t := mk { entity : list FeedEntity.t }.
End FeedMessage.

(** One element of the array [filterDeparturesForStops] returns. *)
Module Departure.
Record t := mk { routeId : string; stopId : string; timestamp : Z; etaMinutes : Z }.
End Departure.

(** [e?.time?.toNumber?.() ?? e?.time]: the time of an event, a number
    whether the decoder gave a 64-bit integer object or a number.  The
    number is the integer itself when that is a safe integer (see
    [in_range] below); a greater 64-bit time is rounded to a double,
    which is outside the model. *)
Definition event_time (e : option StopTimeEvent.t) : option Z :=
  e ≫= StopTimeEvent.time.

(** The time of an update: that of the arrival when it has one, else
    that of the departure. *)
Definition update_time (stu : StopTimeUpdate.t) : option Z :=
  match event_time (StopTimeUpdate.arrival stu) with
  | Some t => Some t
  | None => event_time (StopTimeUpdate.departure stu)
  end.

(** [Math.round(etaSec / 60)] for a safe integer that is not negative:
    the quotient is an exact multiple of 1/60 and is below 2^48, so the
    rounding of the division cannot carry it across a half. *)
Definition round_minutes (etaSec : Z) : Z := ((etaSec + 30) / 60)%Z.

(** The decimal form of an integer inside a template string. *)
Definition number_string (n : Z) : string := NilZero.string_of_int (Z.to_int n).

Definition departure_key (routeId stopId : string) (t : Z) (tripId : string) : string :=
  routeId ++ "|" ++ stopId ++ "|" ++ number_string t ++ "|" ++ tripId.

(** The keys seen and the departures pushed so far. *)
Module Scan.
Record t := mk { seen : list string; departures : list Departure.t }.
Definition empty : t := mk [] [].
End Scan.

Section filterDeparturesForStops.
(** [Math.floor(Date.now() / 1000)], read once at the start of the call. *)
Variable nowSec : Z.
Variable stopIds : list string.
Variable allowedLines : list string.

Definition allowSet : list string :=
  JSSet.from (wanted_lines allowedLines).

(** The body of the loop over the updates of one entity. *)
Definition scan_update (routeId tripId : string) (st : Scan.t) (stu : StopTimeUpdate.t)
  : Scan.t :=
  match truthy (StopTimeUpdate.stopId stu) with
  | None => st
  | Some stopId =>
      if negb (bool_decide (stopId ∈ stopIds)) then st
      else
        match update_time stu with
        | None => st
        | Some t =>
            if (t =? 0)%Z then st
            else
              let etaSec := (t - nowSec)%Z in
              if (etaSec <? 0)%Z then st
              else
                let key := departure_key routeId stopId t tripId in
                if bool_decide (key ∈ Scan.seen st) then st
                else
                  Scan.mk (JSSet.add key (Scan.seen st))
                    (Scan.departures st
                     ++ [Departure.mk routeId stopId t (round_minutes etaSec)])
        end
  end.

(** The body of the loop over the entities of one feed. *)
Definition scan_entity (st : Scan.t) (entity : FeedEntity.t) : Scan.t :=
  match FeedEntity.tripUpdate entity with
  | None => st
  | Some tripUpdate =>
      match TripUpdate.stopTimeUpdate tripUpdate with
      | None => st
      | Some updates =>
          let trip := TripUpdate.trip tripUpdate in
          let routeId := normalizeLine (trip ≫= TripDescriptor.routeId) in
          if negb (bool_decide (allowSet = [])) && negb (bool_decide (routeId ∈ allowSet))
          then st
          else
            let tripId :=
              or_else (trip ≫= TripDescriptor.tripId)
                (or_else (trip ≫= TripDescriptor.trip_id) "") in
            foldl (scan_update routeId tripId) st updates
      end
  end.

Definition scan_feed (st : Scan.t) (feed : FeedMessage.t) : Scan.t :=
  foldl scan_entity st (FeedMessage.entity feed).

Definition scan (feeds : list FeedMessage.t) : Scan.t :=
  foldl scan_feed Scan.empty feeds.

(** [a.timestamp - b.timestamp], by its sign. *)
Definition by_timestamp (a b : Departure.t) : comparison :=
  Z.compare (Departure.timestamp a) (Departure.timestamp b).

Definition filterDeparturesForStops (feeds : list FeedMessage.t) : list Departure.t :=
  array_sort by_timestamp (Scan.departures (scan feeds)).
End filterDeparturesForStops.

(** The greatest integer up to which every integer is a double. *)
Definition MAX_SAFE_INTEGER : Z := (2 ^ 53 - 1)%Z.

(** The times a feed carries, and the route names it carries. *)
Definition update_times (stu : StopTimeUpdate.t) : list Z :=
  option_list (event_time (StopTimeUpdate.arrival stu))
  ++ option_list (event_time (StopTimeUpdate.departure stu)).

Definition entity_updates (entity : FeedEntity.t) : list StopTimeUpdate.t :=
  default [] (FeedEntity.tripUpdate entity ≫= TripUpdate.stopTimeUpdate).

Definition feed_times (feed : FeedMessage.t) : list Z :=
  (FeedMessage.entity feed ≫= entity_updates) ≫= update_times.

Definition entity_route (entity : FeedEntity.t) : option string :=
  (FeedEntity.tripUpdate entity ≫= TripUpdate.trip) ≫= TripDescriptor.routeId.

Definition feed_routes (feed : FeedMessage.t) : list string :=
  omap entity_route (FeedMessage.entity feed).

(** The calls on which the model is exact.  The times are numbers of
    the platform: a 64-bit time is converted to a double, and the
    difference and the quotient are those of doubles; they are the
    integers of the model when the clock and every time of the feeds
    are safe integers, the clock not negative.  The names of the lines
    and of the routes are 7-bit ASCII, where [trim] and [toUpperCase]
    are modelled. *)
Definition in_range (nowSec : Z) (allowedLines : list string)
    (feeds : list FeedMessage.t) : Prop :=
  (0 ≤ nowSec ≤ MAX_SAFE_INTEGER)%Z
  ∧ Forall (λ t, (- MAX_SAFE_INTEGER ≤ t ≤ MAX_SAFE_INTEGER)%Z) (feeds ≫= feed_times)
  ∧ Forall (λ l, Collation.ascii_only l = true) allowedLines
  ∧ Forall (λ r, Collation.ascii_only r = true) (feeds ≫= feed_routes).

(** What holds of a departure the scan pushes: its stop was asked for,
    its time is set and not in the past, its minutes are the rounded
    delay, its route name is normalised and, when lines were asked for,
    is one of them. *)
Definition sound (nowSec : Z) (stopIds allowedLines : list string) (d : Departure.t)
  : Prop :=
  Departure.stopId d ∈ stopIds ∧ Departure.stopId d ≠ ""
  ∧ Departure.timestamp d ≠ 0%Z ∧ (nowSec <= Departure.timestamp d)%Z
  ∧ Departure.etaMinutes d = round_minutes (Departure.timestamp d - nowSec)
  ∧ normalizeLine (Some (Departure.routeId d)) = Departure.routeId d
  ∧ (wanted_lines allowedLines ≠ [] →
     ∃ l, l ∈ allowedLines ∧ Departure.routeId d = normalizeLine (Some l)).

(** A feed with one trip of the line Q: an arrival at the stop asked
    for, a departure there with no arrival, a stop not asked for, an
    arrival in the past and an update without a time. *)
Definition sample_feed : FeedMessage.t :=
  FeedMessage.mk
    [FeedEntity.mk None;
     FeedEntity.mk (Some (TripUpdate.mk
       (Some (TripDescriptor.mk (Some " q") (Some "T1") None))
       (Some [StopTimeUpdate.mk (Some "R14N") (Some (StopTimeEvent.mk (Some 1000%Z))) None;
              StopTimeUpdate.mk (Some "R14N") None (Some (StopTimeEvent.mk (Some 940%Z)));
              StopTimeUpdate.mk (Some "R15N") (Some (StopTimeEvent.mk (Some 1100%Z))) None;
              StopTimeUpdate.mk (Some "R14N") (Some (StopTimeEvent.mk (Some 899%Z))) None;
              StopTimeUpdate.mk (Some "R14N") None None])))].

(** The second state has seen every key the first has. *)
Definition grown (s s' : Scan.t) : Prop := Scan.seen s ⊆ Scan.seen s'.

(** One departure was pushed for each key seen, no key twice. *)
Definition scans (nowSec : Z) (stopIds allowedLines : list string) (st : Scan.t) : Prop :=
  NoDup (Scan.seen st) ∧ length (Scan.departures st) = length (Scan.seen st)
  ∧ Forall (sound nowSec stopIds allowedLines) (Scan.departures st).

End Server.

(** * The conversion of the output to CSV ([json-to-csv.mjs]) *)

Module Csv.

(** The double quote, the comma and the line feed. *)
Definition quote : ascii := ascii_of_nat 34.
Definition comma : ascii := ascii_of_nat 44.
Definition newline : ascii := ascii_of_nat 10.

(** The test of the regular expression: the string holds a comma, a
    double quote or a line feed. *)
Fixpoint special (s : string) : bool :=
  match s with
  | EmptyString => false
  | String c s' =>
      bool_decide (c = comma) || bool_decide (c = quote) || bool_decide (c = newline)
      || special s'
  end.

(** [s.replaceAll] of one double quote by two. *)
Fixpoint double_quotes (s : string) : string :=
  match s with
  | EmptyString => EmptyString
  | String c s' =>
      if bool_decide (c = quote) then String quote (String quote (double_quotes s'))
      else String c (double_quotes s')
  end.

Definition esc (v : string) : string :=
  if special v then String quote (double_quotes v ++ String quote EmptyString)
  else v.

(** The row of one station: the id, the name, the lines joined by a
    space. *)
Definition station_row (s : Station.t) : list string :=
  [esc (Station.id s); esc (Station.name s); esc (JSString.join " " (Station.lines s))].

Definition rows (stations : list Station.t) : list (list string) :=
  ["id"; "name"; "lines"] :: (station_row <$> stations).

(** The text written to the output file. *)
Definition text (stations : list Station.t) : string :=
  JSString.join (String newline EmptyString)
    (JSString.join (String comma EmptyString) <$> rows stations).

End Csv.

(** * The station list of the board ([build-stations-ui-from-files.mjs])

    The script reads the output of the station-line builder, a CSV of
    boroughs and [stops.txt]; it adds to each station its borough, the
    stops of its two directions and a display name, and sorts the list. *)

Module Ui.

Fixpoint last_char (s : string) : option ascii :=
  match s with
  | EmptyString => None
  | String c EmptyString => Some c
  | String _ s' => last_char s'
  end.

(** [stopId?.slice(-1)?.toUpperCase()], kept when it is N or S. *)
Definition inferDirFromStopId (stopId : string) : option string :=
  let last :=
    JSString.toUpperCase
      (match last_char stopId with
       | Some c => String c EmptyString
       | None => EmptyString
       end) in
  if bool_decide (last = "N") || bool_decide (last = "S") then Some last else None.

(** [replace(/\s+/g, " ")]: [in_run] tells that the character before
    was white space. *)
Fixpoint collapse_from (in_run : bool) (s : string) : string :=
  match s with
  | EmptyString => EmptyString
  | String c s' =>
      if JSString.is_space c
      then (if in_run then collapse_from true s'
            else String " " (collapse_from true s'))
      else String c (collapse_from false s')
  end.

(** [String(name || "").trim().replace(/\s+/g, " ").toLowerCase()] *)
Definition normName (name : string) : string :=
  Collation.toLowerCase (collapse_from false (JSString.trim name)).

(** One element of [directions]. *)
Module Direction.
Record t := mk { dir : string; stopId : string }.
End Direction.

(** One element of the array the script writes. *)
Module UiStation.
Record t := mk {
  id : string;
  name : string;
  lines : list string;
  borough : string;
  directions : list Direction.t;
  displayName : string
}.
End UiStation.

(** The stop a map of maps holds for a station and a direction. *)
Definition platform (dirStops : gmap string (gmap string string)) (id dir : string)
  : option string :=
  dirStops !! id ≫= (.!! dir).

Section build.
Context {C : Collator}.
(** The parsed [stations-lines.json]. *)
Variable stationsBase : list Station.t.
(** The records of the borough CSV. *)
Variable records : list Row.
(** The records of [stops.txt]. *)
Variable stopRows : list Row.

(** [new Map(stationsBase.map(s => [String(s.id), { ...s }]))] *)
Definition byId : list (string * Station.t) :=
  foldl (λ m s, JSMap.set (Station.id s) s m) [] stationsBase.

(** The body of the loop over the borough records. *)
Definition borough_step (boroughById : gmap string string) (r : Row)
  : gmap string string :=
  let id := JSString.trim (default "" (r !! "id")) in
  let borough :=
    JSString.trim (match r !! "Borough" with
                   | Some b => b
                   | None => default "" (r !! "borough")
                   end) in
  if negb (bool_decide (id = "")) && negb (bool_decide (borough = ""))
  then <[id := borough]> boroughById
  else boroughById.

Definition boroughById : gmap string string := foldl borough_step ∅ records.

(** [parent || stopId] for [parent = (row.parent_station || "").trim()]. *)
Definition stationId_of (row : Row) (stopId : string) : string :=
  let parent := JSString.trim (or_else (row !! "parent_station") "") in
  if bool_decide (parent = "") then stopId else parent.

(** The body of the loop over [stops.txt]: the first stop met for a
    station and a direction is kept. *)
Definition dir_step (dirStopsByStation : gmap string (gmap string string)) (row : Row)
  : gmap string (gmap string string) :=
  match truthy (row !! "stop_id") with
  | None => dirStopsByStation
  | Some stopId =>
      let stationId := stationId_of row stopId in
      if negb (bool_decide (is_Some (JSMap.get stationId byId))) then dirStopsByStation
      else
        match inferDirFromStopId stopId with
        | None => dirStopsByStation
        | Some dir =>
            let m := default ∅ (dirStopsByStation !! stationId) in
            <[stationId := if bool_decide (is_Some (m !! dir)) then m
                           else <[dir := stopId]> m]> dirStopsByStation
        end
  end.

Definition dirStopsByStation : gmap string (gmap string string) :=
  foldl dir_step ∅ stopRows.

(** The row is a stop [stopId] of the station [id], which the station
    list holds, and the stop id tells the direction [dir]. *)
Definition qualifies (row : Row) (id dir stopId : string) : Prop :=
  truthy (row !! "stop_id") = Some stopId
  ∧ stationId_of row stopId = id
  ∧ is_Some (JSMap.get id byId)
  ∧ inferDirFromStopId stopId = Some dir.

(** The entry of one direction, when the station has a stop for it. *)
Definition direction_entry (id dir : string) : list Direction.t :=
  match platform dirStopsByStation id dir with
  | Some stopId => [Direction.mk dir stopId]
  | None => []
  end.

Definition directions_of (id : string) : list Direction.t :=
  direction_entry id "N" ++ direction_entry id "S".

(** [nameCounts]: how many stations have the normalised name [k]. *)
Definition nameCounts : gmap string nat :=
  foldl (λ counts e, <[normName (Station.name e.2) := S (default 0%nat (counts !! normName (Station.name e.2)))]> counts)
    ∅ byId.

Definition displayName_of (s : Station.t) : string :=
  if bool_decide (1 < default 0 (nameCounts !! normName (Station.name s)))%nat
  then Station.name s ++ " (" ++ JSString.join ", " (Station.lines s) ++ ")"
  else Station.name s.

(** The station with its borough, its directions and its display name. *)
Definition ui_station (e : string * Station.t) : UiStation.t :=
  UiStation.mk (Station.id e.2) (Station.name e.2) (Station.lines e.2)
    (or_else (boroughById !! e.1) "Unknown")
    (directions_of e.1)
    (displayName_of e.2).

(** The comparator of the final sort: borough, then display name. *)
Definition compare_ui (a b : UiStation.t) : comparison :=
  match localeCompare false (UiStation.borough a) (UiStation.borough b) with
  | Eq => localeCompare false (UiStation.displayName a) (UiStation.displayName b)
  | c => c
  end.

(** The array written to the output file. *)
Definition out : list UiStation.t :=
  array_sort compare_ui (ui_station <$> byId).
End build.

(** A station list of two stations of the same name, a borough for the
    first, and the stops of the first: its own row, two northbound
    stops and a southbound one. *)
Definition sample_base : list Station.t :=
  [Station.mk "101" "Grand Ave" ["Q"]; Station.mk "202" "grand  ave" ["7"; "N"]].
Definition sample_boroughs : list Row :=
  [ {[ "id" := "101"; "Borough" := "Queens" ]} ].
Definition stop_of (stop_id parent : string) : Row :=
  {[ "stop_id" := stop_id; "parent_station" := parent ]}.
Definition sample_stops : list Row :=
  [stop_of "101" ""; stop_of "101N" "101"; stop_of "109N" "101"; stop_of "101S" "101"].
(** Three stations to sort: Zoo and Elm in Queens, ash in brooklyn. *)
Definition order_base : list Station.t :=
  [Station.mk "1" "Zoo" ["A"]; Station.mk "2" "ash" ["B"]; Station.mk "3" "Elm" ["C"]].
Definition order_boroughs : list Row :=
  [ {[ "id" := "1"; "Borough" := "Queens" ]};
    {[ "id" := "2"; "Borough" := "brooklyn" ]};
    {[ "id" := "3"; "Borough" := "Queens" ]} ].
Definition sample_first : UiStation.t :=
  UiStation.mk "101" "Grand Ave" ["Q"] "Queens"
    [Direction.mk "N" "101N"; Direction.mk "S" "101S"] "Grand Ave (Q)".

End Ui.

(** * The page of the board (the script inside [index.js]) *)

Module Client.

(** The stop whose departures the page asks for, given the station
    chosen (or none) and the direction chosen. *)
Definition pickStopIdForDirection (station : option Ui.UiStation.t) (dir : string)
  : string :=
  let dirs := default [] (Ui.UiStation.directions <$> station) in
  let id := or_else (Ui.UiStation.id <$> station) "" in
  match dirs with
  | [] => id
  | first :: _ =>
      let want := JSString.toUpperCase dir in
      let found :=
        List.find (λ d, bool_decide (JSString.toUpperCase (Ui.Direction.dir d) = want))
          dirs in
      match truthy (Ui.Direction.stopId <$> found) with
      | Some stopId => stopId
      | None => or_else (Some (Ui.Direction.stopId first)) id
      end
  end.

End Client.

(** * The merge of the boroughs ([merge-boroughs-into-stations-ui.mjs])

    A record of the CSV is here an object read through its keys in
    column order: a list of pairs of a header and a value. *)

Module Merge.

(** The first candidate that some key of the row equals up to case
    gives the value under that key; [""] when there is none. *)
Fixpoint getField (row : list (string * string)) (candidates : list string) : string :=
  match candidates with
  | [] => ""
  | c :: candidates' =>
      match List.find (λ kv : string * string,
                         bool_decide (Collation.toLowerCase kv.1 = Collation.toLowerCase c))
              row with
      | Some (hit, value) =>
          if bool_decide (hit = "") then getField row candidates' else value
      | None => getField row candidates'
      end
  end.

(** The string without a double quote that ends it. *)
Fixpoint drop_closing_quote (s : string) : string :=
  match s with
  | EmptyString => EmptyString
  | String c EmptyString => if bool_decide (c = Csv.quote) then EmptyString else s
  | String c s' => String c (drop_closing_quote s')
  end.

(** [replace(/^"|"$/g, "")] with the double quote: one quote that opens
    the string and one that ends it are removed. *)
Definition strip_quotes (s : string) : string :=
  match s with
  | String c s' =>
      if bool_decide (c = Csv.quote) then drop_closing_quote s' else drop_closing_quote s
  | EmptyString => EmptyString
  end.

(** [cleanId] and [cleanBorough] *)
Definition clean (x : string) : string := strip_quotes (JSString.trim x).

(** The body of the loop over the records of the CSV. *)
Definition borough_step (idToBorough : gmap string string) (r : list (string * string))
  : gmap string string :=
  let id := clean (getField r ["id"; "stop_id"; "station_id"]) in
  let borough := clean (getField r ["Borough"; "borough"]) in
  if negb (bool_decide (id = "")) && negb (bool_decide (borough = ""))
  then <[id := borough]> idToBorough
  else idToBorough.

Definition idToBorough (rows : list (list (string * string))) : gmap string string :=
  foldl borough_step ∅ rows.

Definition with_borough (s : Ui.UiStation.t) (borough : string) : Ui.UiStation.t :=
  Ui.UiStation.mk (Ui.UiStation.id s) (Ui.UiStation.name s) (Ui.UiStation.lines s)
    borough (Ui.UiStation.directions s) (Ui.UiStation.displayName s).

(** The station as the loop over the stations leaves it, for the
    statements below. *)
Definition merged (boroughs : gmap string string) (s : Ui.UiStation.t) : Ui.UiStation.t :=
  match boroughs !! clean (Ui.UiStation.id s) with
  | Some b => with_borough s b
  | None =>
      with_borough s
        (if negb (bool_decide (Ui.UiStation.borough s = ""))
            && negb (bool_decide (Ui.UiStation.borough s = "Unknown"))
         then Ui.UiStation.borough s else "Unknown")
  end.

(** The state of the loop over the stations: the stations rewritten so
    far and the two counts. *)
Record State := {
  stations : list Ui.UiStation.t;
  matched : nat;
  missing : nat
}.

(** The body of the loop over the stations. *)
Definition station_step (boroughs : gmap string string) (st : State) (s : Ui.UiStation.t)
  : State :=
  match truthy (boroughs !! clean (Ui.UiStation.id s)) with
  | Some b =>
      {| stations := stations st ++ [with_borough s b];
         matched := S (matched st);
         missing := missing st |}
  | None =>
      {| stations :=
           stations st
           ++ [with_borough s
                 (if negb (bool_decide (Ui.UiStation.borough s = ""))
                     && negb (bool_decide (Ui.UiStation.borough s = "Unknown"))
                  then Ui.UiStation.borough s else "Unknown")];
         matched := matched st;
         missing := S (missing st) |}
  end.

(** The stations written back, with the number of those the CSV gave a
    borough and the number of the others. *)
Definition merge (input : list Ui.UiStation.t) (rows : list (list (string * string)))
  : State :=
  foldl (station_step (idToBorough rows))
    {| stations := []; matched := 0; missing := 0 |} input.


End Merge.

(** * Properties *)

(** ** The sort *)

Section array_sort_facts.
Context {A : Type} (cmp : A → A → comparison).

Lemma sort_insert_perm x l : sort_insert cmp x l ≡ₚ x :: l.
Proof.
  induction l as [|y l IH]; simpl; [done|].
  destruct (cmp x y); try done.
  rewrite IH. apply Permutation_swap.
Qed.

Lemma array_sort_perm l : array_sort cmp l ≡ₚ l.
Proof.
  induction l as [|x l IH]; simpl; [done|].
  by rewrite sort_insert_perm, IH.
Qed.

Lemma elem_of_array_sort x l : x ∈ array_sort cmp l ↔ x ∈ l.
Proof. by rewrite array_sort_perm. Qed.

Lemma array_sort_length l : length (array_sort cmp l) = length l.
Proof. apply Permutation_length, array_sort_perm. Qed.



Hypothesis cmp_total : ∀ x y, cmp x y = Gt → cmp y x ≠ Gt.

Lemma sort_insert_sorted x l :
Sorted (cmp_le cmp) l → Sorted (cmp_le cmp) (sort_insert cmp x l).
Proof.
  induction 1 as [|y l Hl IH Hhd]; simpl.
  - repeat constructor.
  - destruct (cmp x y) eqn:Hxy.
    + constructor; [by constructor|]. constructor. unfold cmp_le. by rewrite Hxy.
    + constructor; [by constructor|]. constructor. unfold cmp_le. by rewrite Hxy.
    + constructor; [done|].
      destruct Hhd as [|z l Hyz]; simpl.
      * constructor. by apply cmp_total.
      * destruct (cmp x z); constructor; try done; by apply cmp_total.
Qed.

Lemma array_sort_sorted l : Sorted (cmp_le cmp) (array_sort cmp l).
Proof.
  induction l as [|x l IH]; simpl; [constructor|].
  by apply sort_insert_sorted.
Qed.

Hypothesis cmp_trans : ∀ x y z, cmp_le cmp x y → cmp_le cmp y z → cmp_le cmp x z.

Lemma array_sort_strongly_sorted l : StronglySorted (cmp_le cmp) (array_sort cmp l).
Proof.
  apply Sorted.Sorted_StronglySorted; [|apply array_sort_sorted].
  intros x y z. apply cmp_trans.
Qed.
End array_sort_facts.

(** ** The comparator is a total preorder *)

Module CollationFacts.
Import Collation.

Lemma element_compare_antisym a b :
  element_compare b a = CompOpp (element_compare a b).
Proof.
  unfold element_compare.
  rewrite (Z.compare_antisym a.1 b.1), (Z.compare_antisym a.2 b.2).
  by destruct (a.1 ?= b.1)%Z.
Qed.

Lemma element_compare_eq a b : element_compare a b = Eq → a = b.
Proof.
  destruct a as [a1 a2], b as [b1 b2]. unfold element_compare; simpl.
  destruct (Z.compare_spec a1 b1); try done.
  intros ?%Z.compare_eq. congruence.
Qed.

Lemma element_compare_refl a : element_compare a a = Eq.
Proof. unfold element_compare. by rewrite !Z.compare_refl. Qed.

Lemma element_compare_lt_trans a b c :
  element_compare a b = Lt → element_compare b c = Lt → element_compare a c = Lt.
Proof.
  destruct a as [a1 a2], b as [b1 b2], c as [c1 c2].
  unfold element_compare; simpl.
  destruct (Z.compare_spec a1 b1), (Z.compare_spec b1 c1),
    (Z.compare_spec a1 c1); try done; try lia.
  rewrite !Z.compare_lt_iff. lia.
Qed.

Lemma key_compare_antisym k1 k2 :
  key_compare k2 k1 = CompOpp (key_compare k1 k2).
Proof.
  revert k2. induction k1 as [|a k1 IH]; intros [|b k2]; simpl; try done.
  rewrite (element_compare_antisym a b).
  destruct (element_compare a b); simpl; auto.
Qed.

Lemma key_compare_refl k : key_compare k k = Eq.
Proof. induction k as [|a k IH]; simpl; [done|]. by rewrite element_compare_refl. Qed.

Lemma key_compare_trans k1 k2 k3 :
  key_compare k1 k2 ≠ Gt → key_compare k2 k3 ≠ Gt → key_compare k1 k3 ≠ Gt.
Proof.
  revert k2 k3.
  induction k1 as [|a k1 IH]; intros [|b k2] [|c k3]; simpl; try done.
  destruct (element_compare a b) eqn:Hab; try done.
  - apply element_compare_eq in Hab as ->.
    destruct (element_compare b c); try done. apply IH.
  - intros _. destruct (element_compare b c) eqn:Hbc; try done.
    + apply element_compare_eq in Hbc as ->. by rewrite Hab.
    + by rewrite (element_compare_lt_trans a b c).
Qed.

Lemma localeCompare_total numeric a b :
  localeCompare numeric a b = Gt → localeCompare numeric b a ≠ Gt.
Proof.
  unfold localeCompare. intros H.
  rewrite key_compare_antisym, H. done.
Qed.

Lemma localeCompare_trans numeric a b c :
  localeCompare numeric a b ≠ Gt → localeCompare numeric b c ≠ Gt →
  localeCompare numeric a c ≠ Gt.
Proof. apply key_compare_trans. Qed.

Lemma localeCompare_refl numeric a : localeCompare numeric a a = Eq.
Proof. apply key_compare_refl. Qed.

Lemma key_compare_eq k1 k2 : key_compare k1 k2 = Eq → k1 = k2.
Proof.
  revert k2. induction k1 as [|a k1 IH]; intros [|b k2]; simpl; try done.
  destruct (element_compare a b) eqn:Hab; try done.
  intros ->%IH. by apply element_compare_eq in Hab as ->.
Qed.

(** Strings that compare equal to the same string compare equal. *)
Lemma localeCompare_class numeric c a b :
  localeCompare numeric c a = Eq → localeCompare numeric c b = Eq →
  localeCompare numeric a b ≠ Gt.
Proof.
  unfold localeCompare. intros <-%key_compare_eq <-%key_compare_eq.
  by rewrite key_compare_refl.
Qed.
End CollationFacts.

(** ** Consistent comparators *)

Section consistent_facts.
Context {A : Type} (cmp : A → A → comparison).
Hypothesis Hcmp : consistent cmp.

Lemma consistent_refl x : cmp x x = Eq.
Proof using Hcmp.
  destruct Hcmp as [Hsym _]. pose proof (Hsym x x) as Hx.
  by destruct (cmp x x).
Qed.

Lemma consistent_total x y : cmp x y = Gt → cmp y x ≠ Gt.
Proof using Hcmp.
  destruct Hcmp as [Hsym _]. intros Hxy. by rewrite (Hsym x y), Hxy.
Qed.

Lemma consistent_trans x y z : cmp_le cmp x y → cmp_le cmp y z → cmp_le cmp x z.
Proof using Hcmp. destruct Hcmp as [_ Htrans]. apply Htrans. Qed.

End consistent_facts.

Lemma consistent_on {A B : Type} (f : B → A) (cmp : A → A → comparison) :
  consistent cmp → consistent (λ x y, cmp (f x) (f y)).
Proof.
  intros [Hsym Htrans]. split.
  - intros a b. apply Hsym.
  - intros a b c. apply Htrans.
Qed.

(** Comparing by one consistent comparator and, where it ties, by a
    second one, is consistent. *)
Lemma consistent_then {A : Type} (first second : A → A → comparison) :
  consistent first → consistent second →
  consistent (λ a b, match first a b with Eq => second a b | c => c end).
Proof.
  intros [Hsym1 Htrans1] [Hsym2 Htrans2]. split.
  - intros a b. rewrite (Hsym1 a b), (Hsym2 a b). by destruct (first a b).
  - intros a b c.
    pose proof (Htrans1 a b c) as Habc. pose proof (Htrans1 c a b) as Hcab.
    pose proof (Htrans1 b c a) as Hbca. pose proof (Htrans2 a b c) as Hsecond.
    rewrite (Hsym1 a c), (Hsym1 b c) in Hcab. rewrite (Hsym1 a c), (Hsym1 a b) in Hbca.
    destruct (first a b), (first b c), (first a c); simpl in *; naive_solver.
Qed.

(** The root collation on 7-bit ASCII is a collator as the sort expects
    one. *)
Lemma root_lawful : lawful root_collator.
Proof.
  intros numeric. split.
  - intros a b. apply CollationFacts.key_compare_antisym.
  - intros a b c. apply CollationFacts.localeCompare_trans.
Qed.

(** ** Insertion-ordered sets and maps *)

Module JSFacts.

Lemma elem_of_add x y s : x ∈ JSSet.add y s ↔ x = y ∨ x ∈ s.
Proof.
  unfold JSSet.add. case_bool_decide as Hy.
  - split; [auto|]. intros [->|]; done.
  - rewrite elem_of_app, list_elem_of_singleton. tauto.
Qed.

Lemma NoDup_add y s : NoDup s → NoDup (JSSet.add y s).
Proof.
  unfold JSSet.add. intros Hs. case_bool_decide as Hy; [done|].
  apply NoDup_app. split_and!; [done| |apply NoDup_singleton].
  intros x Hx ->%list_elem_of_singleton. done.
Qed.

Lemma add_nonempty y s : JSSet.add y s ≠ [].
Proof.
  unfold JSSet.add. case_bool_decide as Hy.
  - intros ->. by apply not_elem_of_nil in Hy.
  - by destruct s.
Qed.

Lemma elem_of_foldl_add x acc l :
  x ∈ foldl (λ s y, JSSet.add y s) acc l ↔ x ∈ acc ∨ x ∈ l.
Proof.
  revert acc. induction l as [|y l IH]; intros acc; simpl.
  - rewrite elem_of_nil. tauto.
  - rewrite IH, elem_of_add, elem_of_cons. tauto.
Qed.

Lemma NoDup_foldl_add acc l :
  NoDup acc → NoDup (foldl (λ s y, JSSet.add y s) acc l).
Proof.
  revert acc. induction l as [|y l IH]; intros acc Hacc; simpl; [done|].
  by apply IH, NoDup_add.
Qed.

Lemma elem_of_from x l : x ∈ JSSet.from l ↔ x ∈ l.
Proof.
  unfold JSSet.from. rewrite elem_of_foldl_add, elem_of_nil. tauto.
Qed.

Lemma NoDup_from l : NoDup (JSSet.from l).
Proof. apply NoDup_foldl_add, NoDup_nil_2. Qed.

Section map.
Context {V : Type}.
Implicit Types (m : list (string * V)) (k : string) (v : V).

Lemma get_set_eq k v m : JSMap.get k (JSMap.set k v m) = Some v.
Proof.
  induction m as [|[k' v'] m IH]; simpl.
  - by rewrite bool_decide_eq_true_2.
  - case_bool_decide as Hk; simpl.
    + by rewrite bool_decide_eq_true_2.
    + by rewrite bool_decide_eq_false_2.
Qed.

Lemma get_set_ne k k' v m :
  k ≠ k' → JSMap.get k' (JSMap.set k v m) = JSMap.get k' m.
Proof.
  intros Hne. induction m as [|[k0 v0] m IH]; simpl.
  - by rewrite bool_decide_eq_false_2.
  - case_bool_decide as Hk; simpl.
    + subst k0. by rewrite !bool_decide_eq_false_2.
    + by rewrite IH.
Qed.

Lemma get_None k m : JSMap.get k m = None ↔ k ∉ JSMap.keys m.
Proof.
  unfold JSMap.keys. induction m as [|[k' v'] m IH]; simpl.
  - split; [intros _; apply not_elem_of_nil|done].
  - rewrite not_elem_of_cons. case_bool_decide; [|tauto].
    split; [done|]. intros [? _]. done.
Qed.

Lemma get_Some_elem k v m : JSMap.get k m = Some v → (k, v) ∈ m.
Proof.
  induction m as [|[k' v'] m IH]; simpl; [done|].
  case_bool_decide.
  - intros [= ->]. subst. apply list_elem_of_here.
  - intros. by apply list_elem_of_further, IH.
Qed.

Lemma elem_get k v m :
  NoDup (JSMap.keys m) → (k, v) ∈ m → JSMap.get k m = Some v.
Proof.
  unfold JSMap.keys. induction m as [|[k' v'] m IH]; simpl.
  - intros _ ?%not_elem_of_nil. done.
  - intros [Hk' Hm]%NoDup_cons [Heq|Hin]%elem_of_cons.
    + injection Heq as -> ->. by rewrite bool_decide_eq_true_2.
    + case_bool_decide; [|by apply IH]. subst k'.
      exfalso. apply Hk'. apply list_elem_of_fmap. by exists (k, v).
Qed.

Lemma keys_set k v m :
  JSMap.keys (JSMap.set k v m) =
    if bool_decide (k ∈ JSMap.keys m) then JSMap.keys m else JSMap.keys m ++ [k].
Proof.
  unfold JSMap.keys. induction m as [|[k' v'] m IH]; [done|].
  cbn [JSMap.set]. rewrite fmap_cons. cbn [fst].
  destruct (bool_decide_reflect (k = k')) as [->|Hk]; rewrite fmap_cons; cbn [fst].
  - rewrite bool_decide_eq_true_2; [done|apply list_elem_of_here].
  - rewrite IH. destruct (bool_decide_reflect (k ∈ m.*1)) as [Hin|Hin].
    + rewrite bool_decide_eq_true_2; [done|by apply list_elem_of_further].
    + rewrite bool_decide_eq_false_2; [done|].
      rewrite not_elem_of_cons. done.
Qed.

Lemma NoDup_keys_set k v m :
  NoDup (JSMap.keys m) → NoDup (JSMap.keys (JSMap.set k v m)).
Proof.
  intros Hm. rewrite keys_set. case_bool_decide as Hin; [done|].
  apply NoDup_app. split_and!; [done| |apply NoDup_singleton].
  intros x Hx ->%list_elem_of_singleton. done.
Qed.

Lemma elem_of_keys_set k' k v m :
  k' ∈ JSMap.keys (JSMap.set k v m) ↔ k' = k ∨ k' ∈ JSMap.keys m.
Proof.
  rewrite keys_set. case_bool_decide as Hin.
  - split; [auto|]. intros [->|]; done.
  - rewrite elem_of_app, list_elem_of_singleton. tauto.
Qed.
End map.
End JSFacts.

(** ** The accumulator of the aggregator *)

Section aggregator.
Variable ONLY_SUBWAY : bool.
Variable ix : Indices.
Implicit Types (m : list (string * list string)) (st : Agg.t) (row : Row).

Lemma truthy_Some x s : truthy x = Some s ↔ x = Some s ∧ s ≠ "".
Proof.
  unfold truthy. destruct x as [s'|]; [|naive_solver].
  case_bool_decide; naive_solver.
Qed.

Lemma truthy_None x : truthy x = None ↔ x = None ∨ x = Some "".
Proof.
  unfold truthy. destruct x as [s'|]; [|naive_solver].
  case_bool_decide; naive_solver.
Qed.

Lemma step_stationRoutes st row :
  Agg.stationRoutes (aggregate_step ONLY_SUBWAY ix st row) =
    match event ONLY_SUBWAY ix row with
    | Some (s, r) => add_route s r (Agg.stationRoutes st)
    | None => Agg.stationRoutes st
    end.
Proof.
  unfold aggregate_step, event, resolves.
  destruct (truthy (row !! "trip_id")) as [t|]; simpl; [|done].
  destruct (truthy (row !! "stop_id")) as [p|]; simpl; [|done].
  destruct (truthy (tripToRoute ix !! t)) as [r|]; simpl; [|done].
  destruct (truthy (stopToStation ix !! p)) as [s|]; simpl; [|done].
  by destruct (ONLY_SUBWAY && not_subway ix r).
Qed.

Lemma foldl_stationRoutes st rows :
  Agg.stationRoutes (foldl (aggregate_step ONLY_SUBWAY ix) st rows) =
    accumulate (Agg.stationRoutes st) (omap (event ONLY_SUBWAY ix) rows).
Proof.
  revert st. induction rows as [|row rows IH]; intros st; simpl; [done|].
  rewrite IH, step_stationRoutes.
  by destruct (event ONLY_SUBWAY ix row) as [[s r]|].
Qed.

Lemma aggregate_stationRoutes rows :
  Agg.stationRoutes (aggregate ONLY_SUBWAY ix rows) =
    accumulate [] (omap (event ONLY_SUBWAY ix) rows).
Proof. apply foldl_stationRoutes. Qed.

Lemma has_route_add s r s' r' m :
  has_route s r (add_route s' r' m) ↔ (s = s' ∧ r = r') ∨ has_route s r m.
Proof.
  unfold has_route, add_route.
  destruct (decide (s = s')) as [->|Hne].
  - destruct (JSMap.get s' m) as [set0|] eqn:Hget;
      rewrite JSFacts.get_set_eq.
    + split.
      * intros (set & [= <-] & Hin). apply JSFacts.elem_of_add in Hin. naive_solver.
      * intros [[_ ->]|(set & [= <-] & Hin)]; eexists; split; try done;
          apply JSFacts.elem_of_add; auto.
    + split.
      * intros (set & [= <-] & Hin). apply JSFacts.elem_of_add in Hin.
        destruct Hin as [->|?%not_elem_of_nil]; [auto|done].
      * intros [[_ ->]|(set & ? & _)]; [|done].
        eexists; split; [done|]. apply JSFacts.elem_of_add; auto.
  - destruct (JSMap.get s' m) as [set0|];
      (rewrite JSFacts.get_set_ne by done); naive_solver.
Qed.

Lemma has_route_accumulate s r m events :
  has_route s r (accumulate m events) ↔ has_route s r m ∨ (s, r) ∈ events.
Proof.
  unfold accumulate. revert m.
  induction events as [|[s' r'] events IH]; intros m; simpl.
  - rewrite elem_of_nil. tauto.
  - rewrite IH, has_route_add, elem_of_cons. naive_solver.
Qed.

Lemma well_formed_add s r m : well_formed m → well_formed (add_route s r m).
Proof.
  intros [Hkeys Hsets]. unfold add_route. split.
  - destruct (JSMap.get s m); by apply JSFacts.NoDup_keys_set.
  - intros s' set'. destruct (decide (s = s')) as [->|Hne].
    + destruct (JSMap.get s' m) as [set0|] eqn:Hget;
        rewrite JSFacts.get_set_eq; intros [= <-];
        (split; [apply JSFacts.add_nonempty|apply JSFacts.NoDup_add]).
      * by apply (Hsets s').
      * apply NoDup_nil_2.
    + destruct (JSMap.get s m); (rewrite JSFacts.get_set_ne by done); apply Hsets.
Qed.

Lemma well_formed_accumulate m events :
  well_formed m → well_formed (accumulate m events).
Proof.
  unfold accumulate. revert m.
  induction events as [|e events IH]; intros m Hm; simpl; [done|].
  by apply IH, well_formed_add.
Qed.

Lemma well_formed_nil : well_formed [].
Proof. split; [apply NoDup_nil_2|done]. Qed.

Lemma well_formed_aggregate rows :
  well_formed (Agg.stationRoutes (aggregate ONLY_SUBWAY ix rows)).
Proof.
  rewrite aggregate_stationRoutes.
  apply well_formed_accumulate, well_formed_nil.
Qed.

(** Every route of the final accumulator was inserted by a record. *)
Lemma has_route_aggregate s r rows :
  has_route s r (Agg.stationRoutes (aggregate ONLY_SUBWAY ix rows)) ↔
  ∃ row, row ∈ rows ∧ event ONLY_SUBWAY ix row = Some (s, r).
Proof.
  rewrite aggregate_stationRoutes, has_route_accumulate, list_elem_of_omap.
  unfold has_route; simpl. naive_solver.
Qed.

(** An entry of a well-formed accumulator holds at least one route. *)
Lemma entry_has_route s set m :
  well_formed m → (s, set) ∈ m →
  JSMap.get s m = Some set ∧ ∃ r, r ∈ set.
Proof.
  intros [Hkeys Hsets] Hin.
  pose proof (JSFacts.elem_get _ _ _ Hkeys Hin) as Hget.
  split; [done|]. destruct (Hsets _ _ Hget) as [Hne _].
  destruct set as [|r set]; [done|]. exists r. apply list_elem_of_here.
Qed.

Lemma resolves_nonempty row s r : resolves ix row = Some (s, r) → s ≠ "" ∧ r ≠ "".
Proof.
  unfold resolves.
  destruct (truthy (row !! "trip_id")) as [t|]; simpl; [|done].
  destruct (truthy (row !! "stop_id")) as [p|]; simpl; [|done].
  destruct (truthy (tripToRoute ix !! t)) as [r'|] eqn:Hr; simpl; [|done].
  destruct (truthy (stopToStation ix !! p)) as [s'|] eqn:Hs; simpl; [|done].
  intros [= <- <-]. apply truthy_Some in Hr, Hs. naive_solver.
Qed.

Lemma event_resolves row s r :
  event ONLY_SUBWAY ix row = Some (s, r) ↔
  resolves ix row = Some (s, r) ∧ (ONLY_SUBWAY && not_subway ix r) = false.
Proof.
  unfold event. destruct (resolves ix row) as [[s' r']|]; [|naive_solver].
  destruct (ONLY_SUBWAY && not_subway ix r') eqn:Hf; split.
  - done.
  - intros [[= -> ->] ?]. congruence.
  - intros [= -> ->]. done.
  - intros [[= -> ->] ?]. done.
Qed.
End aggregator.

(** ** The comparator ignores case and reads digit runs as numbers *)

Module NaturalOrder.
Import Collation.

Lemma is_digit_lower c : is_digit (lower c) = is_digit c.
Proof. by destruct c as [[] [] [] [] [] [] [] []]. Qed.

Lemma digit_value_lower c : is_digit c = true → digit_value (lower c) = digit_value c.
Proof. by destruct c as [[] [] [] [] [] [] [] []]. Qed.

Lemma char_element_lower c : char_element (lower c) = char_element c.
Proof. by destruct c as [[] [] [] [] [] [] [] []]; vm_compute. Qed.

Lemma key_from_lower numeric pending s :
  key_from numeric pending (toLowerCase s) = key_from numeric pending s.
Proof.
  revert pending. induction s as [|c s IH]; intros pending; simpl; [done|].
  rewrite is_digit_lower, char_element_lower.
  destruct (numeric && is_digit c) eqn:Hd.
  - rewrite digit_value_lower by (by apply andb_true_iff in Hd as [_ ?]).
    destruct (push_digit pending (digit_value c)) as [closed run]. by rewrite IH.
  - by rewrite IH.
Qed.

Lemma localeCompare_lower numeric a b :
  localeCompare numeric (toLowerCase a) (toLowerCase b) = localeCompare numeric a b.
Proof. unfold localeCompare, key. by rewrite !key_from_lower. Qed.

(** The digits of a run that fits in one segment add up to one number. *)
Lemma key_from_run v n d s :
  all_digits d = true → (0 ≤ n)%Z →
  (n + Z.of_nat (String.length d) ≤ segment_digits)%Z →
  ∃ n', key_from true (Some (v, n)) (d ++ s) = key_from true (Some (decimal v d, n')) s.
Proof.
  revert v n. induction d as [|c d IH]; intros v n Hd Hn Hlen.
  - by exists n.
  - cbn [all_digits] in Hd. apply andb_true_iff in Hd as [Hc Hd].
    cbn [String.length] in Hlen.
    change (String c d ++ s)%string with (String c (d ++ s)).
    cbn [key_from decimal]. rewrite Hc. cbn [andb push_digit].
    destruct (Z.eqb_spec n segment_digits) as [->|_]; [lia|].
    apply IH; [done| |]; destruct ((v =? 0)%Z && (digit_value c =? 0)%Z); lia.
Qed.

(** What follows a run closes it. *)
Lemma key_from_closed v n s :
  starts_with_digit s = false → key_from true (Some (v, n)) s = (2, v)%Z :: key true s.
Proof.
  destruct s as [|c s]; [done|]. cbn [starts_with_digit]. intros Hc.
  unfold key. cbn [key_from]. by rewrite Hc.
Qed.

Lemma key_run d s :
  d ≠ "" → all_digits d = true → (String.length d ≤ 254)%nat →
  starts_with_digit s = false →
  key true (d ++ s) = (2, decimal 0 d)%Z :: key true s.
Proof.
  destruct d as [|c d]; [done|]. intros _ Hd Hlen Hs.
  cbn [all_digits] in Hd. apply andb_true_iff in Hd as [Hc Hd].
  cbn [String.length] in Hlen.
  change (String c d ++ s)%string with (String c (d ++ s)).
  unfold key at 1. cbn [key_from decimal]. rewrite Hc. cbn [andb push_digit app].
  unfold start_segment.
  destruct (key_from_run (digit_value c) (if (digit_value c =? 0)%Z then 0 else 1)%Z d s)
    as [n' ->]; [done| | |].
  - destruct (digit_value c =? 0)%Z; lia.
  - unfold segment_digits. destruct (digit_value c =? 0)%Z; lia.
  - rewrite key_from_closed by done.
    by replace (10 * 0 + digit_value c)%Z with (digit_value c) by lia.
Qed.





Lemma append_empty_r (s : string) : (s ++ "")%string = s.
Proof.
  induction s as [|c s IH]; [done|].
  change (String c (s ++ "") = String c s). by f_equal.
Qed.

Lemma localeCompare_digits a b :
  a ≠ "" → all_digits a = true → (String.length a ≤ 254)%nat →
  b ≠ "" → all_digits b = true → (String.length b ≤ 254)%nat →
  localeCompare true a b = (decimal 0 a ?= decimal 0 b)%Z.
Proof.
  intros Ha Hda Hla Hb Hdb Hlb.
  pose proof (key_run a "" Ha Hda Hla eq_refl) as Hka.
  pose proof (key_run b "" Hb Hdb Hlb eq_refl) as Hkb.
  rewrite append_empty_r in Hka, Hkb.
  unfold localeCompare. rewrite Hka, Hkb.
  cbn [key key_from flush key_compare]. unfold element_compare. cbn [fst snd].
  rewrite Z.compare_refl. by destruct (decimal 0 a ?= decimal 0 b)%Z.
Qed.
End NaturalOrder.

(** ** The output array *)

Section output.
Context {C : Collator}.
Hypothesis HC : lawful C.
Variable ix : Indices.
Implicit Types (m : list (string * list string)) (station : Station.t).


Lemma compare_stations_consistent : consistent compare_stations.
Proof using HC. apply (consistent_on Station.name), HC. Qed.



Lemma compare_stations_total a b :
  compare_stations a b = Gt → compare_stations b a ≠ Gt.
Proof using HC. apply consistent_total, compare_stations_consistent. Qed.

Lemma compare_stations_trans a b c :
  cmp_le compare_stations a b → cmp_le compare_stations b c →
  cmp_le compare_stations a c.
Proof using HC. apply consistent_trans, compare_stations_consistent. Qed.

Lemma or_else_nonempty x d : d ≠ "" → or_else x d ≠ "".
Proof using Type.
  unfold or_else. destruct (truthy x) as [s|] eqn:Hx; [|done].
  intros _. apply truthy_Some in Hx. tauto.
Qed.

Lemma line_code_nonempty rid : rid ≠ "" → line_code ix rid ≠ "".
Proof using Type. apply or_else_nonempty. Qed.

Lemma filter_all {A} (P : A → Prop) `{!∀ x, Decision (P x)} (l : list A) :
  Forall P l → filter P l = l.
Proof using Type.
  induction 1 as [|x l Hx Hl IH]; [done|].
  by rewrite filter_cons_True, IH.
Qed.

Lemma elem_of_assemble station m :
  station ∈ assemble ix m ↔ ∃ entry, entry ∈ m ∧ station = station_record ix entry.
Proof using Type.
  unfold assemble. rewrite elem_of_array_sort, list_elem_of_fmap. naive_solver.
Qed.

Lemma station_record_id entry : Station.id (station_record ix entry) = entry.1.
Proof using Type. by destruct entry. Qed.

Lemma assemble_ids m : Station.id <$> assemble ix m ≡ₚ JSMap.keys m.
Proof using Type.
  unfold assemble, JSMap.keys. rewrite array_sort_perm, <-list_fmap_compose.
  erewrite list_fmap_ext; [done|]. intros _ entry _. apply station_record_id.
Qed.


Lemma assemble_sorted m : StronglySorted (cmp_le compare_stations) (assemble ix m).
Proof using HC.
  apply array_sort_strongly_sorted;
    [apply compare_stations_total|apply compare_stations_trans].
Qed.
End output.

(** * The claims of the specification *)

(** C1. End-to-end scenario: with a parent station row "101" named
    "Grand Ave", a child stop row "101N" whose parent is "101", the route
    "Q" with short name "Q", the trip "t1" on route "Q" and the single
    stop-time record (t1, 101N), the output is exactly the one-element
    list [{id "101", name "Grand Ave", lines ["Q"]}].  This holds with
    and without the subway-only flag, whichever of the two stop rows
    comes first, and for the script run on the four files. *)
Theorem C1_end_to_end_scenario :
  (∀ only_subway,
     pipeline only_subway Scenario.stops Scenario.routes Scenario.trips
       Scenario.stop_times = Scenario.expected)
  ∧ pipeline false (reverse Scenario.stops) Scenario.routes Scenario.trips
      Scenario.stop_times = Scenario.expected
  ∧ exitCode (script Scenario.join Scenario.argv Scenario.fs) = 0%Z
  ∧ written (script Scenario.join Scenario.argv Scenario.fs)
      = Some ("out.json", Scenario.expected).
Proof.
  split_and!; [intros []|..]; vm_compute; reflexivity.
Qed.

Section output_claims.
Context {C : Collator}.
Variables (only_subway : bool) (ix : Indices) (stop_times : list Row).
Variable station : Station.t.
Hypothesis emitted : station ∈ (buildStationLines only_subway ix stop_times).1.

(** The accumulator entry a station of the output comes from. *)
Lemma emitted_entry :
  ∃ routeIds,
    (Station.id station, routeIds)
      ∈ Agg.stationRoutes (aggregate only_subway ix stop_times)
    ∧ station = station_record ix (Station.id station, routeIds)
    ∧ routeIds ≠ [] ∧ NoDup routeIds
    ∧ Station.id station ≠ ""
    ∧ Forall (λ rid, rid ≠ "") routeIds.
Proof using emitted.
  simpl in emitted. apply elem_of_assemble in emitted as ([s rids] & Hin & ->).
  exists rids. simpl.
  pose proof (well_formed_aggregate only_subway ix stop_times) as Hwf.
  destruct (entry_has_route _ _ _ Hwf Hin) as [Hget [r0 Hr0]].
  destruct Hwf as [_ Hsets]. destruct (Hsets _ _ Hget) as [Hne Hnd].
  assert (∀ r, r ∈ rids → s ≠ "" ∧ r ≠ "") as Hall.
  { intros r Hr.
    assert (has_route s r (Agg.stationRoutes (aggregate only_subway ix stop_times)))
      as Hhas by (by exists rids).
    apply has_route_aggregate in Hhas as (row & _ & Hev).
    apply event_resolves in Hev as [Hres _].
    by apply resolves_nonempty in Hres. }
  split_and!; try done.
  - by apply (Hall r0).
  - apply Forall_forall. intros r Hr. by apply (Hall r).
Qed.

(** The lines of a station of the output, without the filter of empty
    codes, which removes nothing. *)
Lemma emitted_lines routeIds :
  station = station_record ix (Station.id station, routeIds) →
  Forall (λ rid, rid ≠ "") routeIds →
  Station.lines station
    = array_sort compare_lines (JSSet.from (line_code ix <$> routeIds)).
Proof using Type.
  intros -> Hne. simpl. f_equal. f_equal. apply filter_all.
  apply Forall_fmap. eapply Forall_impl; [done|].
  intros rid. apply line_code_nonempty.
Qed.
End output_claims.




(** C9. For every station record of the output: when no canonical name
    was recorded for its station id, or the recorded name is the empty
    string, the [name] field is the station id; otherwise it is the
    recorded name; and it is never the empty string. *)
Theorem C9_name_falls_back_to_id
    (only_subway : bool) (ix : Indices) (stop_times : list Row) (station : Station.t) :
  station ∈ (buildStationLines only_subway ix stop_times).1 →
  (stationName ix !! Station.id station = None
   ∨ stationName ix !! Station.id station = Some "" →
   Station.name station = Station.id station)
  ∧ (∀ n, stationName ix !! Station.id station = Some n → n ≠ "" →
          Station.name station = n)
  ∧ Station.name station ≠ "".
Proof.
  intros Hin.
  destruct (emitted_entry _ _ _ _ Hin) as (rids & _ & Hrec & _ & _ & Hid & _).
  assert (Station.name station
          = or_else (stationName ix !! Station.id station) (Station.id station))
    as Hname by (by rewrite Hrec at 1).
  split_and!.
  - intros Hnone%truthy_None. unfold or_else in Hname. by rewrite Hnone in Hname.
  - intros n Hn Hne. unfold or_else in Hname.
    by rewrite (proj2 (truthy_Some _ n) (conj Hn Hne)) in Hname.
  - rewrite Hname. by apply or_else_nonempty.
Qed.

(** A run in which the only stop row has no name: the station is listed
    under its id. *)
Lemma C9_name_falls_back_to_id_witness :
  let ix := indices [ {[ "stop_id" := "R14" ]} ] Scenario.routes Scenario.trips in
  let station := Station.mk "R14" "R14" ["Q"] in
  station ∈ (buildStationLines false ix [Scenario.visit "t1" "R14"]).1
  ∧ stationName ix !! "R14" = Some ""
  ∧ Station.name station = Station.id station
  ∧ Station.name station ≠ "".
Proof.
  intros ix station.
  assert (station ∈ (buildStationLines false ix [Scenario.visit "t1" "R14"]).1) as Hin
    by (vm_compute; apply list_elem_of_here).
  assert (stationName ix !! "R14" = Some "") as Hname by (vm_compute; reflexivity).
  pose proof (C9_name_falls_back_to_id false ix [Scenario.visit "t1" "R14"] station Hin)
    as (Hid & _ & Hne).
  split_and!; [exact Hin|exact Hname|exact (Hid (or_intror Hname))|exact Hne].
Defined.

(** C10. For every station record of the output, the [lines] list is not
    empty and none of its elements is the empty string. *)
Theorem C10_lines_nonempty
    (only_subway : bool) (ix : Indices) (stop_times : list Row) (station : Station.t) :
  station ∈ (buildStationLines only_subway ix stop_times).1 →
  Station.lines station ≠ []
  ∧ ∀ code, code ∈ Station.lines station → code ≠ "".
Proof.
  intros Hin.
  destruct (emitted_entry _ _ _ _ Hin) as (rids & _ & Hrec & Hrids & _ & _ & Hne).
  pose proof (emitted_lines ix station rids Hrec Hne) as Hlines.
  assert (∀ code, code ∈ Station.lines station ↔
                  ∃ rid, rid ∈ rids ∧ code = line_code ix rid) as Hmem.
  { intros code. rewrite Hlines, elem_of_array_sort, JSFacts.elem_of_from,
      list_elem_of_fmap. naive_solver. }
  split.
  - destruct rids as [|rid rids]; [done|].
    intros Hnil. assert (line_code ix rid ∈ Station.lines station) as Hcode.
    { apply Hmem. exists rid. split; [apply list_elem_of_here|done]. }
    rewrite Hnil in Hcode. by apply not_elem_of_nil in Hcode.
  - intros code (rid & Hrid & ->)%Hmem. apply line_code_nonempty.
    rewrite Forall_forall in Hne. by apply Hne.
Qed.

Lemma C10_lines_nonempty_witness :
  Scenario.four_station
    ∈ (buildStationLines false Scenario.four_indices Scenario.four_visits).1
  ∧ Station.lines Scenario.four_station ≠ []
  ∧ ∀ code, code ∈ Station.lines Scenario.four_station → code ≠ "".
Proof.
  assert (Scenario.four_station
    ∈ (buildStationLines false Scenario.four_indices Scenario.four_visits).1) as Hin
    by (vm_compute; apply list_elem_of_here).
  split; [exact Hin|].
  exact (C10_lines_nonempty false Scenario.four_indices Scenario.four_visits
           Scenario.four_station Hin).
Defined.

(** ** The Stop Resolver *)

Section stop_resolver.
Implicit Types (st : Stops.t) (row : Row) (names : gmap string string).

Lemma step_stationName st row :
  Stops.stationName (loadStops_step st row) = name_rule (Stops.stationName st) row.
Proof.
  unfold loadStops_step, name_rule, row_station, records_name,
    is_station_row, row_name.
  destruct (truthy (row !! "stop_id")) as [stop_id|]; simpl; [|done].
  set (parent := or_else (row !! "parent_station") "").
  set (name := or_else (row !! "stop_name") "").
  set (sid := station_of parent stop_id).
  destruct (bool_decide_reflect (is_Some (Stops.stationName st !! sid)))
    as [[n Hn]|Hn%eq_None_not_Some]; simpl.
  - destruct (bool_decide_reflect (parent = "")) as [Hp|Hp],
      (bool_decide_reflect (name = "")) as [Hnm|Hnm]; simpl;
      case_decide as Hd; try done; exfalso; naive_solver.
  - case_decide as Hd; [done|]. exfalso. apply Hd. by right.
Qed.

Lemma foldl_stationName st rows :
  Stops.stationName (foldl loadStops_step st rows)
    = foldl name_rule (Stops.stationName st) rows.
Proof.
  revert st. induction rows as [|row rows IH]; intros st; simpl; [done|].
  by rewrite IH, step_stationName.
Qed.

(** A station row with a name sets the name of its station. *)
Lemma name_rule_station_row names row s :
  row_station row = Some s → is_station_row row → row_name row ≠ "" →
  name_rule names row !! s = Some (row_name row).
Proof.
  intros Hs Hrow Hname. unfold name_rule. rewrite Hs.
  rewrite decide_True by (by left). apply lookup_insert_eq.
Qed.

(** A child row leaves a recorded name alone, and so does a row of
    another station. *)
Lemma name_rule_keeps names row s n :
  names !! s = Some n →
  (row_station row = Some s → ¬ is_station_row row) →
  name_rule names row !! s = Some n.
Proof.
  intros Hn Hchild. unfold name_rule.
  destruct (row_station row) as [s'|] eqn:Hs; [|done].
  destruct (decide (s' = s)) as [->|Hne].
  - rewrite decide_False; [done|].
    intros [[Hrow _]|Hnone]; [by apply Hchild|congruence].
  - case_decide; [|done]. by rewrite lookup_insert_ne.
Qed.

Lemma foldl_name_rule_keeps names rows s n :
  names !! s = Some n →
  (∀ row, row ∈ rows → row_station row = Some s → ¬ is_station_row row) →
  foldl name_rule names rows !! s = Some n.
Proof.
  revert names. induction rows as [|row rows IH]; intros names Hn Hrows; simpl.
  - done.
  - apply IH.
    + apply name_rule_keeps; [done|]. apply Hrows, list_elem_of_here.
    + intros row' Hin. by apply Hrows, list_elem_of_further.
Qed.

(** What a child row does to the name of its station. *)
Lemma name_rule_child names row s :
  row_station row = Some s → ¬ is_station_row row →
  name_rule names row !! s =
    match names !! s with
    | Some n => Some n
    | None => Some (row_name row)
    end.
Proof.
  intros Hs Hchild. unfold name_rule. rewrite Hs.
  case_decide as Hd.
  - destruct Hd as [[Hrow _]|Hnone]; [done|].
    by rewrite lookup_insert_eq, Hnone.
  - destruct (names !! s) as [n|] eqn:Hn; [done|].
    exfalso. apply Hd. by right.
Qed.
End stop_resolver.

(** C3. For every sequence of stop rows read in file order, the name
    recorded for each station id is the one the per-row rule determines:
    a row records or overwrites the name of its station exactly when it
    is parent-less and carries a non-empty name, or no name has been
    recorded for that station yet.  Hence the name of a station row is
    kept through every child row that follows, and the name of a child
    row is taken only when nothing has been recorded yet. *)
Theorem C3_station_name_rule :
  (∀ rows, Stops.stationName (loadStops rows) = foldl name_rule ∅ rows)
  ∧ (∀ names row s,
       row_station row = Some s →
       name_rule names row !! s =
         if decide ((is_station_row row ∧ row_name row ≠ "") ∨ names !! s = None)
         then Some (row_name row) else names !! s)
  ∧ (∀ before row after s,
       row_station row = Some s → is_station_row row → row_name row ≠ "" →
       (∀ row', row' ∈ after → row_station row' = Some s → ¬ is_station_row row') →
       Stops.stationName (loadStops (before ++ row :: after)) !! s
         = Some (row_name row))
  ∧ (∀ before row s,
       row_station row = Some s → ¬ is_station_row row →
       Stops.stationName (loadStops (before ++ [row])) !! s =
         match Stops.stationName (loadStops before) !! s with
         | Some n => Some n
         | None => Some (row_name row)
         end).
Proof.
  split_and!.
  - intros rows. unfold loadStops. by rewrite foldl_stationName.
  - intros names row s Hs. unfold name_rule, records_name. rewrite Hs.
    case_decide; [apply lookup_insert_eq|done].
  - intros before row after s Hs Hrow Hname Hafter.
    unfold loadStops. rewrite foldl_stationName, foldl_app. simpl.
    apply foldl_name_rule_keeps; [|done].
    by apply name_rule_station_row.
  - intros before row s Hs Hchild.
    unfold loadStops. rewrite !foldl_stationName, foldl_app. simpl.
    by apply name_rule_child.
Qed.

(** The parent/child scenario: the station row "S1" named "Main St" is
    read after one child row and before another; the station keeps the
    name "Main St", and a stop-time at a child stop is attributed to the
    station "S1" under that name. *)
Lemma C3_station_name_rule_witness :
  Stops.stationName
    (loadStops ([Scenario.main_st_north] ++ Scenario.main_st :: [Scenario.main_st_south]))
    !! "S1" = Some "Main St"
  ∧ pipeline false [Scenario.main_st_north; Scenario.main_st; Scenario.main_st_south]
      Scenario.routes Scenario.trips [Scenario.visit "t1" "S1S"]
    = [Station.mk "S1" "Main St" ["Q"]].
Proof.
  split; [|vm_compute; reflexivity].
  destruct C3_station_name_rule as (_ & _ & Hwins & _).
  apply (Hwins [Scenario.main_st_north] Scenario.main_st [Scenario.main_st_south] "S1").
  - vm_compute; reflexivity.
  - vm_compute; reflexivity.
  - vm_compute; discriminate.
  - intros row' ->%list_elem_of_singleton _. vm_compute; discriminate.
Defined.

(** ** The mode filter *)

Section mode_filter.
Variable ix : Indices.

Lemma not_subway_true r : not_subway ix r = true ↔ classified_non_subway ix r.
Proof.
  unfold not_subway, classified_non_subway.
  destruct (routeMap ix !! r) as [info|]; [|naive_solver].
  rewrite andb_true_iff, !negb_true_iff, !bool_decide_eq_false. naive_solver.
Qed.

Lemma unclassified_passes r : unclassified ix r → not_subway ix r = false.
Proof.
  intros Hr. apply not_true_is_false. rewrite not_subway_true.
  intros (info & Hinfo & Hblank & _). destruct Hr as [Hr|(info' & Hr & Hty)]; congruence.
Qed.

(** A route of the accumulator reaches the lines of its station. *)
Lemma has_route_output only_subway stop_times s r :
  has_route s r (Agg.stationRoutes (aggregate only_subway ix stop_times)) →
  ∃ station,
    station ∈ (buildStationLines only_subway ix stop_times).1
    ∧ Station.id station = s ∧ line_code ix r ∈ Station.lines station.
Proof.
  intros Hhas. pose proof Hhas as (row & _ & Hev)%has_route_aggregate.
  apply event_resolves in Hev as [[_ Hr]%resolves_nonempty _].
  destruct Hhas as (set & Hget%JSFacts.get_Some_elem & Hin).
  exists (station_record ix (s, set)). split_and!; [|done|].
  - simpl. apply elem_of_assemble. by exists (s, set).
  - simpl. rewrite elem_of_array_sort, JSFacts.elem_of_from, list_elem_of_filter.
    split; [by apply line_code_nonempty|]. by apply list_elem_of_fmap_2.
Qed.
End mode_filter.

(** C4. In subway-only mode the aggregator skips a stop-time event whose
    route has a known, non-empty classification other than the subway
    one, and does not skip an event whose route is unknown to the Route
    Catalog or has a blank classification.  So a route classified as
    non-subway is in the set of no station, while a resolvable event of
    an unclassified route puts the route in the set of its station and
    its code in the lines of that station. *)
Theorem C4_subway_only_filter (ix : Indices) :
  (∀ st row s r,
     resolves ix row = Some (s, r) → classified_non_subway ix r →
     Agg.stationRoutes (aggregate_step true ix st row) = Agg.stationRoutes st)
  ∧ (∀ st row s r,
       resolves ix row = Some (s, r) → unclassified ix r →
       Agg.stationRoutes (aggregate_step true ix st row)
         = add_route s r (Agg.stationRoutes st))
  ∧ (∀ stop_times s r,
       classified_non_subway ix r →
       ¬ has_route s r (Agg.stationRoutes (aggregate true ix stop_times)))
  ∧ (∀ stop_times row s r,
       row ∈ stop_times → resolves ix row = Some (s, r) → unclassified ix r →
       has_route s r (Agg.stationRoutes (aggregate true ix stop_times))
       ∧ ∃ station,
           station ∈ (buildStationLines true ix stop_times).1
           ∧ Station.id station = s ∧ line_code ix r ∈ Station.lines station).
Proof.
  split_and!.
  - intros st row s r Hres Hcls%not_subway_true.
    rewrite step_stationRoutes. unfold event. by rewrite Hres, Hcls.
  - intros st row s r Hres Hun%unclassified_passes.
    rewrite step_stationRoutes. unfold event. by rewrite Hres, Hun.
  - intros stop_times s r Hcls%not_subway_true (row & _ & Hev)%has_route_aggregate.
    apply event_resolves in Hev as [_ Hpass]. by rewrite Hcls in Hpass.
  - intros stop_times row s r Hin Hres Hun%unclassified_passes.
    assert (has_route s r (Agg.stationRoutes (aggregate true ix stop_times))) as Hhas.
    { apply has_route_aggregate. exists row. split; [done|].
      apply event_resolves. by rewrite Hun. }
    split; [done|]. by apply has_route_output.
Qed.

(** With the filter on, the bus route B1 is in no set, the route SIR of
    blank classification is in the set of the station, and the station
    lists Q and SIR only. *)
Lemma C4_subway_only_filter_witness :
  ¬ has_route "101" "B1"
      (Agg.stationRoutes (aggregate true Scenario.mixed_indices Scenario.mixed_visits))
  ∧ has_route "101" "SIR"
      (Agg.stationRoutes (aggregate true Scenario.mixed_indices Scenario.mixed_visits))
  ∧ (buildStationLines true Scenario.mixed_indices Scenario.mixed_visits).1
    = [Station.mk "101" "Grand Ave" ["Q"; "SIR"]].
Proof.
  destruct (C4_subway_only_filter Scenario.mixed_indices) as (_ & _ & Hout & Hin).
  split_and!.
  - apply Hout. exists (RouteInfo.mk "B1" "" "3").
    split_and!; [vm_compute; reflexivity|vm_compute; discriminate..].
  - apply (Hin Scenario.mixed_visits (Scenario.visit "s" "101N") "101" "SIR").
    + apply list_elem_of_further, list_elem_of_here.
    + vm_compute; reflexivity.
    + right. exists (RouteInfo.mk "SIR" "" ""). split; vm_compute; reflexivity.
  - vm_compute; reflexivity.
Defined.

(** ** The indices the loaders build *)

Lemma foldl_invariant {A B : Type} (P : A → Prop) (f : A → B → A) (a : A) (l : list B) :
  P a → (∀ a b, P a → b ∈ l → P (f a b)) → P (foldl f a l).
Proof.
  revert a. induction l as [|b l IH]; intros a Ha Hstep; simpl; [done|].
  apply IH.
  - apply Hstep; [done|apply list_elem_of_here].
  - intros a' b' Ha' Hb'. apply Hstep; [done|by apply list_elem_of_further].
Qed.

Lemma station_of_nonempty parent stop_id : stop_id ≠ "" → station_of parent stop_id ≠ "".
Proof. unfold station_of. by case_bool_decide. Qed.

Lemma loadStops_provenance stops p s :
  Stops.stopToStation (loadStops stops) !! p = Some s →
  ∃ row, row ∈ stops ∧ truthy (row !! "stop_id") = Some p ∧ row_station row = Some s.
Proof.
  revert p s. unfold loadStops.
  apply (foldl_invariant (λ st, ∀ p s, Stops.stopToStation st !! p = Some s →
    ∃ row, row ∈ stops ∧ truthy (row !! "stop_id") = Some p ∧ row_station row = Some s)).
  - intros p s. simpl. by rewrite lookup_empty.
  - intros st row IH Hrow p s. unfold loadStops_step.
    destruct (truthy (row !! "stop_id")) as [stop_id|] eqn:Hid; [|apply IH].
    simpl. destruct (decide (stop_id = p)) as [->|Hne].
    + rewrite lookup_insert_eq. intros [= <-]. exists row. split_and!; [done..|].
      unfold row_station. by rewrite Hid.
    + rewrite lookup_insert_ne by done. apply IH.
Qed.

Lemma loadTripsToRoute_values trips t r :
  (loadTripsToRoute trips).1 !! t = Some r → r ≠ "".
Proof.
  simpl. revert t r. unfold loadTripsToRoute_loop.
  apply (foldl_invariant (λ st, ∀ t r, Trips.tripToRoute st !! t = Some r → r ≠ "")).
  - intros t r. simpl. by rewrite lookup_empty.
  - intros st row IH _ t r. unfold loadTripsToRoute_step.
    destruct (truthy (row !! "trip_id")) as [trip_id|]; [|apply IH].
    destruct (truthy (row !! "route_id")) as [route_id|] eqn:Hr; [|apply IH].
    simpl. destruct (decide (trip_id = t)) as [->|Hne].
    + rewrite lookup_insert_eq. intros [= <-]. by apply truthy_Some in Hr as [_ ?].
    + rewrite lookup_insert_ne by done. apply IH.
Qed.

Lemma clean_indices stops routes trips : clean (indices stops routes trips).
Proof.
  split; simpl.
  - apply loadTripsToRoute_values.
  - intros p s (row & _ & _ & Hs)%loadStops_provenance.
    unfold row_station in Hs.
    destruct (truthy (row !! "stop_id")) as [stop_id|] eqn:Hid; [|done].
    simpl in Hs. injection Hs as <-.
    apply station_of_nonempty. by apply truthy_Some in Hid as [_ ?].
Qed.

(** ** Records the aggregator cannot resolve *)

Section orphans.
Variable only_subway : bool.
Variable ix : Indices.
Hypothesis ix_clean : clean ix.

Lemma falsy_truthy x : falsy x = match truthy x with Some _ => false | None => true end.
Proof. unfold falsy, truthy. destruct x as [s|]; [|done]. by case_bool_decide. Qed.

Lemma truthy_trip t : truthy (tripToRoute ix !! t) = tripToRoute ix !! t.
Proof using ix_clean.
  destruct (tripToRoute ix !! t) as [r|] eqn:Hr; [|done].
  apply truthy_Some. split; [done|]. by apply (proj1 ix_clean t).
Qed.

Lemma truthy_stop p : truthy (stopToStation ix !! p) = stopToStation ix !! p.
Proof using ix_clean.
  destruct (stopToStation ix !! p) as [s|] eqn:Hs; [|done].
  apply truthy_Some. split; [done|]. by apply (proj2 ix_clean p).
Qed.

Lemma orphan_no_event row :
  orphan_trip ix row = true ∨ orphan_stop ix row = true →
  event only_subway ix row = None.
Proof using Type.
  unfold orphan_trip, orphan_stop, event, resolves.
  destruct (truthy (row !! "trip_id")) as [t|]; simpl; [|done].
  destruct (truthy (row !! "stop_id")) as [p|]; simpl; [|done].
  intros [Ht%bool_decide_eq_true|Hp%bool_decide_eq_true].
  - by rewrite Ht.
  - rewrite Hp. simpl. by destruct (truthy (tripToRoute ix !! t)).
Qed.

Lemma step_missedTrips st row :
  Agg.missedTrips (aggregate_step only_subway ix st row)
  = (Agg.missedTrips st + if keyed row && orphan_trip ix row then 1 else 0)%N.
Proof using ix_clean.
  unfold aggregate_step, keyed, orphan_trip. rewrite !falsy_truthy.
  destruct (truthy (row !! "trip_id")) as [t|]; simpl; [|by rewrite N.add_0_r].
  destruct (truthy (row !! "stop_id")) as [p|]; simpl; [|by rewrite N.add_0_r].
  rewrite truthy_trip, truthy_stop.
  destruct (tripToRoute ix !! t) as [r|]; simpl; [|done].
  destruct (stopToStation ix !! p) as [s|]; simpl; [|by rewrite N.add_0_r].
  destruct (only_subway && not_subway ix r); simpl; by rewrite N.add_0_r.
Qed.

Lemma step_missedStops st row :
  Agg.missedStops (aggregate_step only_subway ix st row)
  = (Agg.missedStops st
     + if keyed row && negb (orphan_trip ix row) && orphan_stop ix row
       then 1 else 0)%N.
Proof using ix_clean.
  unfold aggregate_step, keyed, orphan_trip, orphan_stop. rewrite !falsy_truthy.
  destruct (truthy (row !! "trip_id")) as [t|]; simpl; [|by rewrite N.add_0_r].
  destruct (truthy (row !! "stop_id")) as [p|]; simpl; [|by rewrite N.add_0_r].
  rewrite truthy_trip, truthy_stop.
  destruct (tripToRoute ix !! t) as [r|]; simpl; [|by rewrite N.add_0_r].
  destruct (stopToStation ix !! p) as [s|]; simpl; [|done].
  destruct (only_subway && not_subway ix r); simpl; by rewrite N.add_0_r.
Qed.

Lemma foldl_count (counter : Agg.t → N) (counted : Row → bool) st rows :
  (∀ st row, counter (aggregate_step only_subway ix st row)
             = (counter st + if counted row then 1 else 0)%N) →
  counter (foldl (aggregate_step only_subway ix) st rows)
  = (counter st + N.of_nat (length (filter (λ row, counted row = true) rows)))%N.
Proof using Type.
  intros Hstep. revert st.
  induction rows as [|row rows IH]; intros st; [simpl; by rewrite N.add_0_r|].
  rewrite filter_cons. cbn [foldl]. rewrite IH, Hstep.
  destruct (counted row).
  - rewrite decide_True by done. cbn [length]. lia.
  - rewrite decide_False by done. lia.
Qed.

Lemma omap_filter_event (keep : Row → Prop) `{!∀ row, Decision (keep row)}
    (rows : list Row) :
  (∀ row, ¬ keep row → event only_subway ix row = None) →
  omap (event only_subway ix) (filter keep rows) = omap (event only_subway ix) rows.
Proof using Type.
  intros Hdrop. induction rows as [|row rows IH]; [done|].
  rewrite filter_cons. case_decide as Hk; csimpl.
  - by rewrite IH.
  - by rewrite IH, (Hdrop row Hk).
Qed.
End orphans.

(** C5. A stop-time record that names a trip absent from the
    Trip-to-Route Index, or a stop absent from the Stop Resolver, adds no
    route to any station: the loop goes on, and the output is the one the
    other records produce.  Of the records that carry both keys, those
    with an unknown trip are counted in [missedTrips], and those with a
    known trip and an unknown stop in [missedStops]; each count is printed
    after the loop when it is not zero.  Every record that does perform
    an insertion is found in the output. *)
Theorem C5_orphan_rows_tolerated
    (only_subway : bool) (stops routes trips stop_times : list Row) :
  let ix := indices stops routes trips in
  let agg := aggregate only_subway ix stop_times in
  (∀ st row,
     orphan_trip ix row = true ∨ orphan_stop ix row = true →
     Agg.stationRoutes (aggregate_step only_subway ix st row) = Agg.stationRoutes st)
  ∧ pipeline only_subway stops routes trips stop_times
    = pipeline only_subway stops routes trips
        (filter (λ row, orphan_trip ix row = false ∧ orphan_stop ix row = false)
           stop_times)
  ∧ Agg.missedTrips agg
    = N.of_nat (length (filter (λ row, keyed row && orphan_trip ix row = true)
                          stop_times))
  ∧ Agg.missedStops agg
    = N.of_nat (length (filter (λ row, keyed row && negb (orphan_trip ix row)
                                       && orphan_stop ix row = true) stop_times))
  ∧ (Agg.missedTrips agg ≠ 0%N →
     MsgUnknownTrips (Agg.missedTrips agg)
       ∈ (buildStationLines only_subway ix stop_times).2)
  ∧ (Agg.missedStops agg ≠ 0%N →
     MsgUnknownStops (Agg.missedStops agg)
       ∈ (buildStationLines only_subway ix stop_times).2)
  ∧ (∀ row s r,
       row ∈ stop_times → event only_subway ix row = Some (s, r) →
       ∃ station,
         station ∈ pipeline only_subway stops routes trips stop_times
         ∧ Station.id station = s ∧ line_code ix r ∈ Station.lines station).
Proof.
  intros ix agg.
  pose proof (clean_indices stops routes trips) as Hclean. fold ix in Hclean.
  split_and!.
  - intros st row Horphan. rewrite step_stationRoutes.
    by rewrite (orphan_no_event only_subway ix row Horphan).
  - unfold pipeline, buildStationLines. fold ix. cbn [fst].
    rewrite !aggregate_stationRoutes.
    rewrite (omap_filter_event only_subway ix
               (λ row, orphan_trip ix row = false ∧ orphan_stop ix row = false));
      [done|]. intros row Hkeep. apply orphan_no_event.
    destruct (orphan_trip ix row), (orphan_stop ix row); auto;
      exfalso; by apply Hkeep.
  - unfold agg, aggregate.
    rewrite (foldl_count only_subway ix Agg.missedTrips
               (λ row, keyed row && orphan_trip ix row)); [done|].
    intros st row. by apply step_missedTrips.
  - unfold agg, aggregate.
    rewrite (foldl_count only_subway ix Agg.missedStops
               (λ row, keyed row && negb (orphan_trip ix row) && orphan_stop ix row));
      [done|].
    intros st row. by apply step_missedStops.
  - intros Hne. simpl. fold agg. unfold summary.
    apply N.eqb_neq in Hne. rewrite Hne.
    rewrite !elem_of_app, !list_elem_of_singleton. right. right. left. done.
  - intros Hne. simpl. fold agg. unfold summary.
    apply N.eqb_neq in Hne. rewrite Hne.
    rewrite !elem_of_app, !list_elem_of_singleton. right. right. right. done.
  - intros row s r Hin Hev. apply has_route_output.
    apply has_route_aggregate. by exists row.
Qed.

(** The orphan scenario: a record of an unknown trip and a record of an
    unknown stop change nothing in the output and are counted once each. *)
Lemma C5_orphan_rows_tolerated_witness :
  pipeline false Scenario.stops Scenario.routes Scenario.trips Scenario.orphan_visits
    = Scenario.expected
  ∧ Agg.missedTrips
      (aggregate false (indices Scenario.stops Scenario.routes Scenario.trips)
         Scenario.orphan_visits) = 1%N
  ∧ Agg.missedStops
      (aggregate false (indices Scenario.stops Scenario.routes Scenario.trips)
         Scenario.orphan_visits) = 1%N.
Proof.
  destruct (C5_orphan_rows_tolerated false Scenario.stops Scenario.routes
              Scenario.trips Scenario.orphan_visits) as (_ & Hout & Htrips & Hstops & _).
  split_and!.
  - rewrite Hout. vm_compute. reflexivity.
  - rewrite Htrips. vm_compute. reflexivity.
  - rewrite Hstops. vm_compute. reflexivity.
Defined.

(** ** Rows that lack a key field *)

Lemma foldl_filter_skip {A B : Type} (f : A → B → A) (keep : B → Prop)
    `{!∀ b, Decision (keep b)} (a : A) (l : list B) :
  (∀ a b, ¬ keep b → f a b = a) → foldl f a (filter keep l) = foldl f a l.
Proof.
  intros Hskip. revert a. induction l as [|b l IH]; intros a; [done|].
  rewrite filter_cons. case_decide as Hb; cbn [foldl].
  - apply IH.
  - by rewrite (Hskip a b Hb).
Qed.

Lemma falsy_None x : falsy x = true → truthy x = None.
Proof. rewrite falsy_truthy. by destruct (truthy x). Qed.

Lemma loadStops_step_skip st row :
  falsy (row !! "stop_id") = true → loadStops_step st row = st.
Proof. intros Hid%falsy_None. unfold loadStops_step. by rewrite Hid. Qed.

Lemma loadRoutes_step_skip m row :
  falsy (row !! "route_id") = true → loadRoutes_step m row = m.
Proof. intros Hid%falsy_None. unfold loadRoutes_step. by rewrite Hid. Qed.

Lemma loadTripsToRoute_step_skip st row :
  falsy (row !! "trip_id") = true ∨ falsy (row !! "route_id") = true →
  loadTripsToRoute_step st row = st.
Proof.
  unfold loadTripsToRoute_step. intros [Hid%falsy_None|Hid%falsy_None]; rewrite Hid.
  - done.
  - by destruct (truthy (row !! "trip_id")).
Qed.

Lemma aggregate_step_skip only_subway ix st row :
  falsy (row !! "trip_id") = true ∨ falsy (row !! "stop_id") = true →
  aggregate_step only_subway ix st row
  = Agg.mk (Agg.stationRoutes st) (Agg.rows st + 1) (Agg.missedTrips st)
      (Agg.missedStops st) (Agg.console st).
Proof.
  unfold aggregate_step. intros [Hid%falsy_None|Hid%falsy_None]; rewrite Hid.
  - done.
  - by destruct (truthy (row !! "trip_id")).
Qed.

Lemma not_false_falsy x : ¬ falsy x = false → falsy x = true.
Proof. by destruct (falsy x). Qed.

Lemma aggregate_rows only_subway ix stop_times :
  Agg.rows (aggregate only_subway ix stop_times) = N.of_nat (length stop_times).
Proof.
  unfold aggregate.
  assert (∀ st, Agg.rows (foldl (aggregate_step only_subway ix) st stop_times)
                = (Agg.rows st + N.of_nat (length stop_times))%N) as Hgen.
  { induction stop_times as [|row rows IH]; intros st; simpl foldl.
    - simpl. lia.
    - rewrite IH. cbn [length].
      assert (Agg.rows (aggregate_step only_subway ix st row) = (Agg.rows st + 1)%N)
        as ->; [|lia].
      unfold aggregate_step.
      repeat (match goal with |- context [match ?x with _ => _ end] => destruct x end);
        reflexivity. }
  by rewrite Hgen.
Qed.

(** C6, as the code has it.  In every table a row that lacks a required
    key field (stop_id; route_id; trip_id or route_id; trip_id or
    stop_id) is skipped and the loop goes on: the row changes no index,
    no accumulator and no orphan counter, so the indices and the output
    are those of the tables without such rows.  No count of such rows is
    kept: the one number they enter is the total of stop-time records
    read. *)
Theorem C6_malformed_rows_skipped :
  (∀ st row, falsy (row !! "stop_id") = true → loadStops_step st row = st)
  ∧ (∀ m row, falsy (row !! "route_id") = true → loadRoutes_step m row = m)
  ∧ (∀ st row,
       falsy (row !! "trip_id") = true ∨ falsy (row !! "route_id") = true →
       loadTripsToRoute_step st row = st)
  ∧ (∀ only_subway ix st row,
       falsy (row !! "trip_id") = true ∨ falsy (row !! "stop_id") = true →
       aggregate_step only_subway ix st row
       = Agg.mk (Agg.stationRoutes st) (Agg.rows st + 1) (Agg.missedTrips st)
           (Agg.missedStops st) (Agg.console st))
  ∧ (∀ stops routes trips,
       indices stops routes trips
       = indices (filter (λ row, falsy (row !! "stop_id") = false) stops)
           (filter (λ row, falsy (row !! "route_id") = false) routes)
           (filter (λ row, falsy (row !! "trip_id") = false
                           ∧ falsy (row !! "route_id") = false) trips))
  ∧ (∀ only_subway ix stop_times,
       (buildStationLines only_subway ix stop_times).1
       = (buildStationLines only_subway ix
            (filter (λ row, falsy (row !! "trip_id") = false
                            ∧ falsy (row !! "stop_id") = false) stop_times)).1
       ∧ Agg.rows (aggregate only_subway ix stop_times)
         = N.of_nat (length stop_times)).
Proof.
  split_and!.
  - apply loadStops_step_skip.
  - apply loadRoutes_step_skip.
  - apply loadTripsToRoute_step_skip.
  - apply aggregate_step_skip.
  - intros stops routes trips. unfold indices, loadStops, loadRoutes, loadTripsToRoute,
      loadTripsToRoute_loop.
    rewrite !foldl_filter_skip; [done|..].
    + intros st row Hkeep. apply loadTripsToRoute_step_skip.
      destruct (falsy (row !! "trip_id")), (falsy (row !! "route_id")); auto;
        exfalso; by apply Hkeep.
    + intros m row Hkeep%not_false_falsy. by apply loadRoutes_step_skip.
    + intros st row Hkeep%not_false_falsy. by apply loadStops_step_skip.
  - intros only_subway ix stop_times. split; [|apply aggregate_rows].
    unfold buildStationLines. cbn [fst]. rewrite !aggregate_stationRoutes.
    rewrite (omap_filter_event only_subway ix
               (λ row, falsy (row !! "trip_id") = false
                       ∧ falsy (row !! "stop_id") = false)); [done|].
    intros row Hkeep. unfold event, resolves.
    destruct (falsy (row !! "trip_id")) eqn:Ht.
    + by rewrite (falsy_None _ Ht).
    + destruct (falsy (row !! "stop_id")) eqn:Hp; [|exfalso; by apply Hkeep].
      rewrite (falsy_None _ Hp). by destruct (truthy (row !! "trip_id")).
Qed.

(** Each of the four rows without a key leaves the state of its loop as
    it was. *)
Lemma C6_malformed_rows_skipped_witness :
  loadStops_step (loadStops Scenario.stops) Scenario.stop_without_id
    = loadStops Scenario.stops
  ∧ loadRoutes_step (loadRoutes Scenario.routes) Scenario.route_without_id
    = loadRoutes Scenario.routes
  ∧ loadTripsToRoute_step (loadTripsToRoute_loop Scenario.trips) Scenario.trip_without_id
    = loadTripsToRoute_loop Scenario.trips
  ∧ Agg.stationRoutes
      (aggregate_step false (indices Scenario.stops Scenario.routes Scenario.trips)
         Agg.empty Scenario.visit_without_stop) = [].
Proof.
  destruct C6_malformed_rows_skipped as (Hstops & Hroutes & Htrips & Hvisits & _).
  split_and!.
  - apply Hstops. vm_compute. reflexivity.
  - apply Hroutes. vm_compute. reflexivity.
  - apply Htrips. left. vm_compute. reflexivity.
  - rewrite Hvisits; [reflexivity|]. right. vm_compute. reflexivity.
Defined.

(** C6, as stated, fails: a run whose stops, routes and trips tables each
    hold one row without its key leaves exactly what the run without
    those rows leaves (exit code, both streams, output file); and a
    stop-time record without its stop is indistinguishable from a repeated
    well-formed one.  No count of the skipped rows is surfaced. *)
Lemma C6_malformed_rows_not_counted :
  Scenario.missing "stop_id" (Scenario.stops ++ [Scenario.stop_without_id]) = 1
  ∧ Scenario.missing "stop_id" Scenario.stops = 0
  ∧ script Scenario.join Scenario.argv
      (Scenario.files (Some (Scenario.stops ++ [Scenario.stop_without_id]))
         (Some (Scenario.routes ++ [Scenario.route_without_id]))
         (Some (Scenario.trips ++ [Scenario.trip_without_id]))
         (Some Scenario.stop_times))
    = script Scenario.join Scenario.argv Scenario.fs
  ∧ Scenario.missing "stop_id"
      (Scenario.stop_times ++ [Scenario.visit_without_stop]) = 1
  ∧ Scenario.missing "stop_id" (Scenario.stop_times ++ Scenario.stop_times) = 0
  ∧ script Scenario.join Scenario.argv
      (Scenario.files (Some Scenario.stops) (Some Scenario.routes) (Some Scenario.trips)
         (Some (Scenario.stop_times ++ [Scenario.visit_without_stop])))
    = script Scenario.join Scenario.argv
        (Scenario.files (Some Scenario.stops) (Some Scenario.routes)
           (Some Scenario.trips) (Some (Scenario.stop_times ++ Scenario.stop_times))).
Proof.
  split_and!; vm_compute; reflexivity.
Qed.

(** ** The pre-flight check *)

Section preflight_facts.
Variable path_join : string → string → string.
Variable argv : list string.
Variable fs : string → option (list Row).

Lemma preflight_None files :
  preflight path_join argv fs files = None ↔
  ∀ f, f ∈ files → is_Some (fs (path_join (GTFS_DIR argv) f)).
Proof.
  induction files as [|f files IH]; simpl.
  - split; [|done]. by intros _ f ?%not_elem_of_nil.
  - case_bool_decide as Hf.
    + rewrite IH. split.
      * intros Hall f' [->|?]%elem_of_cons; auto.
      * intros Hall f' Hin. by apply Hall, list_elem_of_further.
    + split; [done|]. intros Hall. exfalso. apply Hf, Hall, list_elem_of_here.
Qed.

Lemma preflight_Some files report :
  preflight path_join argv fs files = Some report →
  ∃ f, f ∈ files ∧ fs (path_join (GTFS_DIR argv) f) = None
       ∧ report = MsgMissing f (path_join (GTFS_DIR argv) f).
Proof.
  induction files as [|f files IH]; simpl; [done|].
  case_bool_decide as Hf.
  - intros (f' & Hin & Hnone & ->)%IH. exists f'.
    split_and!; [by apply list_elem_of_further|done..].
  - intros [= <-]. exists f. split_and!; [apply list_elem_of_here| |done].
    by apply eq_None_not_Some.
Qed.
End preflight_facts.

(** C7. If one of the four required files is absent from the source
    directory, the run ends with exit code 1 before any table is read:
    nothing is printed on the output stream, no output file is written,
    and the error stream holds one message that names an absent required
    file and its path.  With the four files present the run goes through,
    writes the output array to the destination file and ends with exit
    code 0. *)
Theorem C7_missing_file_aborts
    (path_join : string → string → string) (argv : list string)
    (fs : string → option (list Row)) :
  let dir := GTFS_DIR argv in
  let run := script path_join argv fs in
  ((∃ f, f ∈ required ∧ fs (path_join dir f) = None) →
   exitCode run = 1%Z ∧ stdout run = [] ∧ written run = None
   ∧ ∃ f, f ∈ required ∧ fs (path_join dir f) = None
          ∧ stderr run = [MsgMissing f (path_join dir f)])
  ∧ ((∀ f, f ∈ required → is_Some (fs (path_join dir f))) →
     exitCode run = 0%Z ∧ stderr run = []
     ∧ written run
       = Some (OUT_FILE argv,
               pipeline (ONLY_SUBWAY argv)
                 (streamCsv fs (path_join dir "stops.txt"))
                 (streamCsv fs (path_join dir "routes.txt"))
                 (streamCsv fs (path_join dir "trips.txt"))
                 (streamCsv fs (path_join dir "stop_times.txt")))).
Proof.
  intros dir run. unfold run, script. split.
  - intros (f & Hin & Hnone).
    destruct (preflight path_join argv fs required) as [report|] eqn:Hpre.
    + apply preflight_Some in Hpre as (f' & Hin' & Hnone' & ->). simpl.
      split_and!; try done. by exists f'.
    + exfalso. rewrite preflight_None in Hpre.
      destruct (Hpre f Hin) as [rows Hrows]. fold dir in Hrows. congruence.
  - intros Hall%preflight_None. by rewrite Hall.
Qed.

(** Without [trips.txt] the run stops with the report of that file; with
    the four files of the end-to-end scenario it ends with exit code 0. *)
Lemma C7_missing_file_aborts_witness :
  let broken := Scenario.files (Some Scenario.stops) (Some Scenario.routes) None
                  (Some Scenario.stop_times) in
  script Scenario.join Scenario.argv broken
    = {| exitCode := 1; stdout := [];
         stderr := [MsgMissing "trips.txt" "gtfs/trips.txt"]; written := None |}
  ∧ exitCode (script Scenario.join Scenario.argv broken) = 1%Z
  ∧ exitCode (script Scenario.join Scenario.argv Scenario.fs) = 0%Z.
Proof.
  intros broken.
  destruct (C7_missing_file_aborts Scenario.join Scenario.argv broken) as [Habort _].
  destruct (C7_missing_file_aborts Scenario.join Scenario.argv Scenario.fs) as [_ Hrun].
  split_and!.
  - vm_compute. reflexivity.
  - apply Habort. exists "trips.txt". split; [|vm_compute; reflexivity].
    apply list_elem_of_further, list_elem_of_further, list_elem_of_here.
  - apply Hrun. intros f Hin.
    repeat (apply elem_of_cons in Hin as [->|Hin]; [vm_compute; eauto|]).
    by apply not_elem_of_nil in Hin.
Defined.

(** ** Completeness of the output *)

Lemma length_filter_once {A : Type} (f : A → string) (l : list A) (x : string) :
  NoDup (f <$> l) → x ∈ f <$> l → length (filter (λ y, f y = x) l) = 1.
Proof.
  induction l as [|a l IH]; csimpl.
  - by intros _ ?%not_elem_of_nil.
  - intros [Ha Hl]%NoDup_cons Hin. rewrite filter_cons.
    case_decide as Hfa.
    + subst x. cbn [length]. f_equal.
      destruct (filter (λ y, f y = f a) l) as [|b l'] eqn:Hf; [done|].
      exfalso. apply Ha.
      assert (b ∈ filter (λ y, f y = f a) l) as Hb by (rewrite Hf; apply list_elem_of_here).
      apply list_elem_of_filter in Hb as [<- Hb]. by apply list_elem_of_fmap_2.
    + apply elem_of_cons in Hin as [->|Hin]; [done|]. by apply IH.
Qed.

Lemma has_route_key s r (m : list (string * list string)) :
  has_route s r m → s ∈ JSMap.keys m.
Proof.
  intros (set & Hget & _). destruct (decide (s ∈ JSMap.keys m)) as [|Hnot]; [done|].
  apply JSFacts.get_None in Hnot. congruence.
Qed.

Lemma resolves_stop ix row s r :
  resolves ix row = Some (s, r) → ∃ p, stopToStation ix !! p = Some s.
Proof.
  unfold resolves.
  destruct (truthy (row !! "trip_id")) as [t|]; simpl; [|done].
  destruct (truthy (row !! "stop_id")) as [p|]; simpl; [|done].
  destruct (truthy (tripToRoute ix !! t)) as [r'|]; simpl; [|done].
  destruct (truthy (stopToStation ix !! p)) as [s'|] eqn:Hs; simpl; [|done].
  intros [= <- <-]. exists p. by apply truthy_Some in Hs as [? _].
Qed.

(** C8, as the code has it.  The output is sorted by the [name] field
    in the order of the collator of the platform, whichever consistent
    collator that is; in the root collation the comparison ignores case.
    No station id appears twice.  Every station visited by a resolvable
    stop-time event that the subway-only filter does not skip appears
    exactly once, and the id of every station of the output is the
    station of a stop row of the input. *)
Theorem C8_output_sorted_and_complete
    (C : Collator) (only_subway : bool) (stops routes trips stop_times : list Row) :
  lawful C →
  let ix := indices stops routes trips in
  let out := pipeline (C:=C) only_subway stops routes trips stop_times in
  StronglySorted (cmp_le (compare_stations (C:=C))) out
  ∧ (∀ a b, compare_stations (C:=root_collator) a b
            = Collation.localeCompare false
                (Collation.toLowerCase (Station.name a))
                (Collation.toLowerCase (Station.name b)))
  ∧ NoDup (Station.id <$> out)
  ∧ (∀ row s r,
       row ∈ stop_times → resolves ix row = Some (s, r) →
       only_subway = false ∨ ¬ classified_non_subway ix r →
       length (filter (λ station, Station.id station = s) out) = 1)
  ∧ (∀ station,
       station ∈ out →
       ∃ stop_row, stop_row ∈ stops ∧ row_station stop_row = Some (Station.id station)).
Proof.
  intros HC ix out.
  assert (NoDup (Station.id <$> out)) as Hnodup.
  { unfold out, pipeline, buildStationLines. cbn [fst]. rewrite assemble_ids.
    apply well_formed_aggregate. }
  split_and!.
  - by apply assemble_sorted.
  - intros a b. unfold compare_stations.
    by rewrite NaturalOrder.localeCompare_lower.
  - done.
  - intros row s r Hin Hres Hpass. apply length_filter_once; [done|].
    unfold out, pipeline, buildStationLines. cbn [fst]. rewrite assemble_ids.
    apply (has_route_key s r), has_route_aggregate. exists row. split; [done|].
    apply event_resolves. split; [done|].
    destruct Hpass as [->|Hpass]; [done|].
    apply andb_false_iff. right. apply not_true_is_false.
    by rewrite not_subway_true.
  - intros station Hstation.
    destruct (emitted_entry _ _ _ _ Hstation) as (rids & Hentry & _ & Hne & _).
    pose proof (well_formed_aggregate only_subway ix stop_times) as Hwf.
    destruct (entry_has_route _ _ _ Hwf Hentry) as [Hget [r Hr]].
    assert (has_route (Station.id station) r
              (Agg.stationRoutes (aggregate only_subway ix stop_times))) as Hhas
      by (by exists rids).
    apply has_route_aggregate in Hhas as (row & _ & Hev).
    apply event_resolves in Hev as [(p & Hp)%resolves_stop _].
    apply loadStops_provenance in Hp as (stop_row & Hin & _ & Hs). by exists stop_row.
Qed.

(** In the root collation.  In the subway-only scenario the three events
    are resolvable; the station they visit appears once, since two of
    them pass the filter.  The stations "Elm St" and "dock St", visited
    in that order, come out sorted: "dock St" first. *)
Lemma C8_output_sorted_and_complete_witness :
  let out := pipeline true Scenario.stops Scenario.mixed_routes Scenario.mixed_trips
               Scenario.mixed_visits in
  let streets := pipeline false Scenario.street_stops Scenario.routes Scenario.trips
                   Scenario.street_visits in
  length (filter (λ station, Station.id station = "101") out) = 1
  ∧ (∃ stop_row, stop_row ∈ Scenario.stops ∧ row_station stop_row = Some "101")
  ∧ Station.name <$> streets = ["dock St"; "Elm St"]
  ∧ StronglySorted (cmp_le compare_stations) streets.
Proof.
  intros out streets.
  destruct (C8_output_sorted_and_complete root_collator true Scenario.stops
              Scenario.mixed_routes Scenario.mixed_trips Scenario.mixed_visits root_lawful)
    as (_ & _ & _ & Honce & Hstop).
  destruct (C8_output_sorted_and_complete root_collator false Scenario.street_stops
              Scenario.routes Scenario.trips Scenario.street_visits root_lawful)
    as (Hsorted & _).
  split_and!.
  - apply (Honce (Scenario.visit "s" "101N") "101" "SIR").
    + apply list_elem_of_further, list_elem_of_here.
    + vm_compute. reflexivity.
    + right. intros (info & Hinfo & Hblank & _).
      vm_compute in Hinfo. injection Hinfo as <-. by apply Hblank.
  - apply (Hstop (Station.mk "101" "Grand Ave" ["Q"; "SIR"])).
    vm_compute. apply list_elem_of_here.
  - vm_compute. reflexivity.
  - exact Hsorted.
Defined.

(** C8, as stated, fails: in subway-only mode the one stop-time record
    resolves (trip "b" is on the bus route "B1", stop "101N" belongs to
    station "101"), yet the station it visits is not in the output. *)
Lemma C8_visited_station_filtered_out :
  let ix := indices Scenario.stops Scenario.mixed_routes Scenario.mixed_trips in
  resolves ix (Scenario.visit "b" "101N") = Some ("101", "B1")
  ∧ pipeline true Scenario.stops Scenario.mixed_routes Scenario.mixed_trips
      [Scenario.visit "b" "101N"] = []
  ∧ length (filter (λ station, Station.id station = "101")
              (pipeline true Scenario.stops Scenario.mixed_routes Scenario.mixed_trips
                 [Scenario.visit "b" "101N"])) ≠ 1.
Proof.
  split_and!; vm_compute; (reflexivity || discriminate).
Qed.

(** * Further properties of the code *)

(** ** Command-line arguments *)

(** X1. [getArg] returns the argument that follows the first occurrence
    of the option name, whatever it is (another option included), and
    the fallback when the name does not occur or is the last argument. *)
Theorem X1_getArg_lookup (name fallback : string) :
  (∀ argv, name ∉ argv → getArg name fallback argv = fallback)
  ∧ (∀ before value after,
       name ∉ before →
       getArg name fallback (before ++ name :: value :: after) = value)
  ∧ (∀ before, name ∉ before → getArg name fallback (before ++ [name]) = fallback).
Proof.
  split_and!.
  - intros argv. induction argv as [|a argv IH]; [done|].
    intros [Ha Hargv]%not_elem_of_cons. cbn [getArg].
    rewrite bool_decide_eq_false_2 by done. by apply IH.
  - intros before value after. induction before as [|a before IH]; cbn [app getArg].
    + intros _. by rewrite bool_decide_eq_true_2.
    + intros [Ha Hbefore]%not_elem_of_cons.
      rewrite bool_decide_eq_false_2 by done. by apply IH.
  - intros before. induction before as [|a before IH]; cbn [app getArg].
    + intros _. by rewrite bool_decide_eq_true_2.
    + intros [Ha Hbefore]%not_elem_of_cons.
      rewrite bool_decide_eq_false_2 by done. by apply IH.
Qed.

(** The directory option followed by another option takes that option
    as its value; an option given last falls back. *)
Lemma X1_getArg_lookup_witness :
  getArg "--gtfs" "./gtfs" (["node"; "script"] ++ "--gtfs" :: "--out" :: ["x.json"])
    = "--out"
  ∧ getArg "--out" "./stations-lines.json" (["node"; "script"] ++ ["--out"])
    = "./stations-lines.json".
Proof.
  destruct (X1_getArg_lookup "--gtfs" "./gtfs") as (_ & Hvalue & _).
  destruct (X1_getArg_lookup "--out" "./stations-lines.json") as (_ & _ & Hlast).
  split.
  - apply Hvalue. compute_done.
  - apply Hlast. compute_done.
Defined.

(** ** The Route Catalog *)

Lemma loadRoutes_snoc routes row :
  loadRoutes (routes ++ [row]) = loadRoutes_step (loadRoutes routes) row.
Proof. unfold loadRoutes. by rewrite foldl_app. Qed.

Lemma loadRoutes_provenance routes id info :
  loadRoutes routes !! id = Some info →
  ∃ row, row ∈ routes ∧ truthy (row !! "route_id") = Some id
         ∧ RouteInfo.shortName info = or_else (row !! "route_short_name") id
         ∧ RouteInfo.routeType info = default "" (row !! "route_type").
Proof.
  revert id info. unfold loadRoutes.
  apply (foldl_invariant (λ m : gmap string RouteInfo.t, ∀ id info,
    m !! id = Some info →
    ∃ row, row ∈ routes ∧ truthy (row !! "route_id") = Some id
           ∧ RouteInfo.shortName info = or_else (row !! "route_short_name") id
           ∧ RouteInfo.routeType info = default "" (row !! "route_type"))).
  - intros id info. by rewrite lookup_empty.
  - intros m row IH Hrow id info. unfold loadRoutes_step.
    destruct (truthy (row !! "route_id")) as [route_id|] eqn:Hid; [|apply IH].
    destruct (decide (route_id = id)) as [->|Hne].
    + rewrite lookup_insert_eq. intros [= <-]. by exists row.
    + rewrite lookup_insert_ne by done. apply IH.
Qed.

(** X2. The Route Catalog maps a route id to the fields of a row of
    [routes.txt] that carries this id, and the last such row decides; an
    id no row carries is absent.  The short name of an entry is never
    empty (it is the route id when the row gives none), so the line code
    of a route the catalog knows is its short name. *)
Theorem X2_route_catalog (routes : list Row) (id : string) :
  (∀ info,
     loadRoutes routes !! id = Some info →
     id ≠ "" ∧ RouteInfo.shortName info ≠ ""
     ∧ ∃ row, row ∈ routes ∧ truthy (row !! "route_id") = Some id
              ∧ RouteInfo.shortName info = or_else (row !! "route_short_name") id
              ∧ RouteInfo.routeType info = default "" (row !! "route_type"))
  ∧ ((∀ row, row ∈ routes → truthy (row !! "route_id") ≠ Some id) →
     loadRoutes routes !! id = None)
  ∧ (∀ row,
       truthy (row !! "route_id") = Some id →
       ∃ info,
         loadRoutes (routes ++ [row]) !! id = Some info
         ∧ RouteInfo.shortName info = or_else (row !! "route_short_name") id
         ∧ RouteInfo.routeType info = default "" (row !! "route_type"))
  ∧ (∀ stops trips info,
       loadRoutes routes !! id = Some info →
       line_code (indices stops routes trips) id = RouteInfo.shortName info).
Proof.
  assert (∀ info, loadRoutes routes !! id = Some info →
                  id ≠ "" ∧ RouteInfo.shortName info ≠ "") as Hnonempty.
  { intros info (row & _ & Hid & Hshort & _)%loadRoutes_provenance.
    apply truthy_Some in Hid as [_ Hid]. split; [done|].
    rewrite Hshort. by apply or_else_nonempty. }
  split_and!.
  - intros info Hinfo. destruct (Hnonempty info Hinfo) as [? ?].
    split_and!; [done..|]. by apply loadRoutes_provenance.
  - intros Hnone. destruct (loadRoutes routes !! id) as [info|] eqn:Hinfo; [|done].
    apply loadRoutes_provenance in Hinfo as (row & Hin & Hid & _).
    by destruct (Hnone row Hin).
  - intros row Hid. rewrite loadRoutes_snoc. unfold loadRoutes_step. rewrite Hid.
    eexists. rewrite lookup_insert_eq. done.
  - intros stops trips info Hinfo. unfold line_code, or_else. simpl.
    rewrite Hinfo. simpl. rewrite bool_decide_eq_false_2; [done|].
    by apply (Hnonempty info).
Qed.

(** Two rows for the route "Q": the second, which has no short name,
    decides, and the code of the route is its id. *)
Lemma X2_route_catalog_witness :
  let routes := Scenario.routes in
  let later : Row := {[ "route_id" := "Q"; "route_type" := "1" ]} in
  ∃ info,
    loadRoutes (routes ++ [later]) !! "Q" = Some info
    ∧ RouteInfo.shortName info = "Q" ∧ RouteInfo.routeType info = "1".
Proof.
  intros routes later.
  destruct (X2_route_catalog routes "Q") as (_ & _ & Hlast & _).
  destruct (Hlast later) as (info & Hinfo & Hshort & Htype).
  - vm_compute. reflexivity.
  - exists info. split_and!; [done|rewrite Hshort|rewrite Htype]; vm_compute; reflexivity.
Defined.

(** ** The Trip-to-Route Index *)

Lemma loadTripsToRoute_loop_snoc trips row :
  loadTripsToRoute_loop (trips ++ [row])
  = loadTripsToRoute_step (loadTripsToRoute_loop trips) row.
Proof. unfold loadTripsToRoute_loop. by rewrite foldl_app. Qed.

Lemma loadTripsToRoute_provenance trips t r :
  (loadTripsToRoute trips).1 !! t = Some r →
  ∃ row, row ∈ trips ∧ truthy (row !! "trip_id") = Some t
         ∧ truthy (row !! "route_id") = Some r.
Proof.
  simpl. revert t r. unfold loadTripsToRoute_loop.
  apply (foldl_invariant (λ st, ∀ t r, Trips.tripToRoute st !! t = Some r →
    ∃ row, row ∈ trips ∧ truthy (row !! "trip_id") = Some t
           ∧ truthy (row !! "route_id") = Some r)).
  - intros t r. simpl. by rewrite lookup_empty.
  - intros st row IH Hrow t r. unfold loadTripsToRoute_step.
    destruct (truthy (row !! "trip_id")) as [trip_id|] eqn:Ht; [|apply IH].
    destruct (truthy (row !! "route_id")) as [route_id|] eqn:Hr; [|apply IH].
    simpl. destruct (decide (trip_id = t)) as [->|Hne].
    + rewrite lookup_insert_eq. intros [= <-]. by exists row.
    + rewrite lookup_insert_ne by done. apply IH.
Qed.

Lemma loadTripsToRoute_count trips :
  Trips.count (loadTripsToRoute_loop trips)
  = N.of_nat (length (filter (λ row, falsy (row !! "trip_id") = false
                                     ∧ falsy (row !! "route_id") = false) trips)).
Proof.
  induction trips as [|row trips IH] using rev_ind; [done|].
  rewrite loadTripsToRoute_loop_snoc, filter_app, length_app, filter_cons, filter_nil.
  unfold loadTripsToRoute_step. rewrite !falsy_truthy.
  destruct (truthy (row !! "trip_id")) as [t|];
    destruct (truthy (row !! "route_id")) as [r|]; cbn [Trips.count];
    (rewrite decide_True by done) || (rewrite decide_False by naive_solver);
    cbn [length]; lia.
Qed.

Lemma loadTripsToRoute_quiet trips :
  (Trips.count (loadTripsToRoute_loop trips) < 200000)%N →
  Trips.console (loadTripsToRoute_loop trips) = [].
Proof.
  induction trips as [|row trips IH] using rev_ind; [done|].
  rewrite loadTripsToRoute_loop_snoc. unfold loadTripsToRoute_step.
  destruct (truthy (row !! "trip_id")) as [t|]; [|done].
  destruct (truthy (row !! "route_id")) as [r|]; [|done].
  simpl. intros Hcount.
  destruct (N.eqb_spec ((Trips.count (loadTripsToRoute_loop trips) + 1)
                          mod 200000) 0) as [Hmod|_].
  - rewrite N.mod_small in Hmod by done. lia.
  - apply IH. lia.
Qed.

Lemma loadTripsToRoute_size trips :
  (N.of_nat (size (Trips.tripToRoute (loadTripsToRoute_loop trips)))
   <= Trips.count (loadTripsToRoute_loop trips))%N.
Proof.
  induction trips as [|row trips IH] using rev_ind; [done|].
  rewrite loadTripsToRoute_loop_snoc. unfold loadTripsToRoute_step.
  destruct (truthy (row !! "trip_id")) as [t|]; [|done].
  destruct (truthy (row !! "route_id")) as [r|]; [|done].
  cbn [Trips.tripToRoute Trips.count]. rewrite map_size_insert.
  destruct (Trips.tripToRoute (loadTripsToRoute_loop trips) !! t); simpl; lia.
Qed.

(** X3. The Trip-to-Route Index maps a trip id to the route id of a row
    of [trips.txt] that carries both, and the last such row decides; no
    key and no value is empty, and a trip id that no complete row carries
    is absent.  The total the loader prints is the number of rows that
    carry both fields, which bounds the size of the index; with fewer
    than 200000 such rows that total is the only line printed. *)
Theorem X3_trip_index (trips : list Row) :
  let index := (loadTripsToRoute trips).1 in
  let loaded := N.of_nat (length (filter (λ row, falsy (row !! "trip_id") = false
                                                 ∧ falsy (row !! "route_id") = false)
                                    trips)) in
  (∀ t r,
     index !! t = Some r →
     t ≠ "" ∧ r ≠ ""
     ∧ ∃ row, row ∈ trips ∧ truthy (row !! "trip_id") = Some t
              ∧ truthy (row !! "route_id") = Some r)
  ∧ (∀ t,
       (∀ row, row ∈ trips → truthy (row !! "trip_id") = Some t →
               truthy (row !! "route_id") = None) →
       index !! t = None)
  ∧ (∀ row t r,
       truthy (row !! "trip_id") = Some t → truthy (row !! "route_id") = Some r →
       (loadTripsToRoute (trips ++ [row])).1 !! t = Some r)
  ∧ last (loadTripsToRoute trips).2 = Some (MsgLoadedTripsTotal loaded)
  ∧ (N.of_nat (size index) <= loaded)%N
  ∧ ((loaded < 200000)%N → (loadTripsToRoute trips).2 = [MsgLoadedTripsTotal loaded]).
Proof.
  intros index loaded. unfold index, loaded. split_and!.
  - intros t r Hr.
    pose proof Hr as (row & Hin & Ht & Hroute)%loadTripsToRoute_provenance.
    split_and!; [by apply truthy_Some in Ht as [_ ?]
                |by apply truthy_Some in Hroute as [_ ?]|by exists row].
  - intros t Hnone.
    destruct ((loadTripsToRoute trips).1 !! t) as [r|] eqn:Hr; [|done].
    apply loadTripsToRoute_provenance in Hr as (row & Hin & Ht & Hroute).
    rewrite (Hnone row Hin Ht) in Hroute. done.
  - intros row t r Ht Hr. cbn [loadTripsToRoute fst].
    rewrite loadTripsToRoute_loop_snoc. unfold loadTripsToRoute_step.
    rewrite Ht, Hr. cbn [Trips.tripToRoute]. apply lookup_insert_eq.
  - cbn [loadTripsToRoute snd]. by rewrite last_snoc, loadTripsToRoute_count.
  - rewrite <-loadTripsToRoute_count. apply loadTripsToRoute_size.
  - rewrite <-loadTripsToRoute_count. intros Hsmall. cbn [loadTripsToRoute snd].
    by rewrite (loadTripsToRoute_quiet trips Hsmall).
Qed.

(** A later row moves the trip "t1" to another route; a row without a
    route id changes nothing and is not counted. *)
Lemma X3_trip_index_witness :
  let moved := Scenario.trip_row "t1" "R" in
  (loadTripsToRoute ((Scenario.trips ++ [Scenario.trip_without_route]) ++ [moved])).1
    !! "t1" = Some "R"
  ∧ (loadTripsToRoute (Scenario.trips ++ [Scenario.trip_without_route])).2
    = [MsgLoadedTripsTotal 1].
Proof.
  intros moved. split.
  - apply (X3_trip_index (Scenario.trips ++ [Scenario.trip_without_route]));
      vm_compute; reflexivity.
  - destruct (X3_trip_index (Scenario.trips ++ [Scenario.trip_without_route]))
      as (_ & _ & _ & _ & _ & Hquiet).
    rewrite Hquiet; [|vm_compute; reflexivity]. vm_compute. reflexivity.
Defined.

(** ** The Stop Resolver, as a whole *)

Lemma loadStops_snoc stops row :
  loadStops (stops ++ [row]) = loadStops_step (loadStops stops) row.
Proof. unfold loadStops. by rewrite foldl_app. Qed.

Lemma loadStops_step_named st row :
  (∀ p s, Stops.stopToStation st !! p = Some s → is_Some (Stops.stationName st !! s)) →
  ∀ p s, Stops.stopToStation (loadStops_step st row) !! p = Some s →
         is_Some (Stops.stationName (loadStops_step st row) !! s).
Proof.
  intros IH p s. unfold loadStops_step.
  destruct (truthy (row !! "stop_id")) as [stop_id|]; [|apply IH].
  cbn [Stops.stopToStation Stops.stationName].
  set (name := or_else (row !! "stop_name") "").
  set (parent := or_else (row !! "parent_station") "").
  set (sid := station_of parent stop_id).
  assert (∀ s', is_Some (Stops.stationName st !! s') ∨ s' = sid →
    is_Some ((if negb (bool_decide (is_Some (Stops.stationName st !! sid)))
                 || (bool_decide (parent = "") && negb (bool_decide (name = "")))
              then <[sid := name]> (Stops.stationName st)
              else Stops.stationName st) !! s')) as Hgrow.
  { intros s' Hs'.
    destruct (bool_decide_reflect (is_Some (Stops.stationName st !! sid))) as [Hhas|Hhas];
      cbn [negb orb].
    - destruct (bool_decide (parent = "") && negb (bool_decide (name = ""))).
      + rewrite lookup_insert_is_Some. destruct Hs' as [?| ->]; [|by left].
        destruct (decide (sid = s')); auto.
      + by destruct Hs' as [?| ->].
    - rewrite lookup_insert_is_Some. destruct Hs' as [?| ->]; [|by left].
      destruct (decide (sid = s')); auto. }
  destruct (decide (stop_id = p)) as [->|Hne].
  - rewrite lookup_insert_eq. intros [= <-]. apply Hgrow. by right.
  - rewrite lookup_insert_ne by done. intros Hs. apply Hgrow. left. by apply (IH p).
Qed.

Lemma loadStops_named stops p s :
  Stops.stopToStation (loadStops stops) !! p = Some s →
  is_Some (Stops.stationName (loadStops stops) !! s).
Proof.
  revert p s. induction stops as [|row stops IH] using rev_ind.
  - intros p s. unfold loadStops. simpl. by rewrite lookup_empty.
  - rewrite loadStops_snoc. by apply loadStops_step_named.
Qed.

Lemma loadStops_total stops row p :
  row ∈ stops → truthy (row !! "stop_id") = Some p →
  is_Some (Stops.stopToStation (loadStops stops) !! p).
Proof.
  induction stops as [|row' stops IH] using rev_ind.
  - by intros ?%not_elem_of_nil.
  - rewrite loadStops_snoc. intros [Hin| ->%list_elem_of_singleton]%elem_of_app Hp.
    + unfold loadStops_step. destruct (truthy (row' !! "stop_id")) as [p'|]; [|by apply IH].
      cbn [Stops.stopToStation]. rewrite lookup_insert_is_Some.
      destruct (decide (p' = p)); [by left|right]. split; [done|by apply IH].
    + unfold loadStops_step. rewrite Hp. cbn [Stops.stopToStation].
      rewrite lookup_insert_eq. eauto.
Qed.

Lemma loadStops_name_provenance stops s n :
  Stops.stationName (loadStops stops) !! s = Some n →
  ∃ row, row ∈ stops ∧ row_station row = Some s ∧ row_name row = n.
Proof.
  unfold loadStops. rewrite foldl_stationName. revert s n. simpl.
  apply (foldl_invariant (λ names : gmap string string, ∀ s n,
    names !! s = Some n →
    ∃ row, row ∈ stops ∧ row_station row = Some s ∧ row_name row = n)).
  - intros s n. by rewrite lookup_empty.
  - intros names row IH Hrow s n. unfold name_rule.
    destruct (row_station row) as [s'|] eqn:Hs'; [|apply IH].
    case_decide; [|apply IH].
    destruct (decide (s' = s)) as [->|Hne].
    + rewrite lookup_insert_eq. intros [= <-]. by exists row.
    + rewrite lookup_insert_ne by done. apply IH.
Qed.

(** X4. The Stop Resolver is total over the stop ids it has read: every
    row of [stops.txt] with a stop id resolves to a non-empty station id
    for which a name entry exists.  The last row carrying a stop id
    decides its station (its parent if it has one, else the stop itself);
    a stop id no row carries is absent; and the name recorded for a
    station is the name field of one of the rows of that station. *)
Theorem X4_stop_resolver_total (stops : list Row) :
  (∀ row p,
     row ∈ stops → truthy (row !! "stop_id") = Some p →
     ∃ s, Stops.stopToStation (loadStops stops) !! p = Some s ∧ s ≠ ""
          ∧ is_Some (Stops.stationName (loadStops stops) !! s))
  ∧ (∀ row p,
       truthy (row !! "stop_id") = Some p →
       Stops.stopToStation (loadStops (stops ++ [row])) !! p
       = Some (station_of (or_else (row !! "parent_station") "") p))
  ∧ (∀ p,
       (∀ row, row ∈ stops → truthy (row !! "stop_id") ≠ Some p) →
       Stops.stopToStation (loadStops stops) !! p = None)
  ∧ (∀ s n,
       Stops.stationName (loadStops stops) !! s = Some n →
       ∃ row, row ∈ stops ∧ row_station row = Some s ∧ row_name row = n).
Proof.
  split_and!.
  - intros row p Hin Hp.
    destruct (loadStops_total stops row p Hin Hp) as [s Hs]. exists s.
    split_and!; [done| |by apply (loadStops_named stops p)].
    apply (proj2 (clean_indices stops [] []) p s Hs).
  - intros row p Hp. rewrite loadStops_snoc. unfold loadStops_step. rewrite Hp.
    cbn [Stops.stopToStation]. apply lookup_insert_eq.
  - intros p Hnone.
    destruct (Stops.stopToStation (loadStops stops) !! p) as [s|] eqn:Hs; [|done].
    apply loadStops_provenance in Hs as (row & Hin & Hp & _). by destruct (Hnone row Hin).
  - apply loadStops_name_provenance.
Qed.

(** In the parent/child scenario the child stop "S1N" resolves to the
    station "S1", which has a name entry. *)
Lemma X4_stop_resolver_total_witness :
  let stops := [Scenario.main_st_north; Scenario.main_st] in
  ∃ s, Stops.stopToStation (loadStops stops) !! "S1N" = Some s ∧ s ≠ ""
       ∧ is_Some (Stops.stationName (loadStops stops) !! s).
Proof.
  intros stops.
  destruct (X4_stop_resolver_total stops) as (Htotal & _).
  apply (Htotal Scenario.main_st_north "S1N").
  - apply list_elem_of_here.
  - vm_compute. reflexivity.
Defined.

(** ** The output, read back against the stop-time records *)

Section output_events.
Context {C : Collator}.
Variables (only_subway : bool) (ix : Indices).
Implicit Types (stop_times : list Row) (station : Station.t).

(** A record inserts the route [r] at the station [s]. *)
Lemma event_spelled row s r :
  event only_subway ix row = Some (s, r) ↔
  resolves ix row = Some (s, r) ∧ (only_subway = true → not_subway ix r = false).
Proof.
  rewrite event_resolves. destruct only_subway; simpl; naive_solver.
Qed.

Lemma key_has_route stop_times s :
  s ∈ JSMap.keys (Agg.stationRoutes (aggregate only_subway ix stop_times)) ↔
  ∃ r, has_route s r (Agg.stationRoutes (aggregate only_subway ix stop_times)).
Proof.
  split.
  - unfold JSMap.keys. intros ([s' set] & -> & Hin)%list_elem_of_fmap. simpl.
    pose proof (well_formed_aggregate only_subway ix stop_times) as Hwf.
    destruct (entry_has_route _ _ _ Hwf Hin) as [Hget [r Hr]].
    exists r, set. done.
  - intros [r Hr]. by apply (has_route_key s r).
Qed.

Lemma output_ids stop_times s :
  s ∈ Station.id <$> (buildStationLines only_subway ix stop_times).1 ↔
  ∃ row r, row ∈ stop_times ∧ event only_subway ix row = Some (s, r).
Proof.
  cbn [buildStationLines fst]. rewrite assemble_ids, key_has_route.
  setoid_rewrite has_route_aggregate. naive_solver.
Qed.

Lemma output_lines stop_times station code :
  station ∈ (buildStationLines only_subway ix stop_times).1 →
  code ∈ Station.lines station ↔
  ∃ row r, row ∈ stop_times
           ∧ event only_subway ix row = Some (Station.id station, r)
           ∧ code = line_code ix r.
Proof.
  intros Hin.
  destruct (emitted_entry _ _ _ _ Hin) as (rids & Hentry & Hrec & _ & _ & _ & Hne).
  rewrite (emitted_lines ix station rids Hrec Hne).
  rewrite elem_of_array_sort, JSFacts.elem_of_from, list_elem_of_fmap.
  pose proof (well_formed_aggregate only_subway ix stop_times) as [Hkeys _].
  pose proof (JSFacts.elem_get _ _ _ Hkeys Hentry) as Hget.
  split.
  - intros (rid & -> & Hrid).
    assert (has_route (Station.id station) rid
              (Agg.stationRoutes (aggregate only_subway ix stop_times))) as Hhas
      by (by exists rids).
    apply has_route_aggregate in Hhas as (row & Hrow & Hev). by exists row, rid.
  - intros (row & r & Hrow & Hev & ->). exists r. split; [done|].
    assert (has_route (Station.id station) r
              (Agg.stationRoutes (aggregate only_subway ix stop_times))) as Hhas
      by (apply has_route_aggregate; by exists row).
    destruct Hhas as (set & Hget' & Hr). congruence.
Qed.

Lemma output_name stop_times station :
  station ∈ (buildStationLines only_subway ix stop_times).1 →
  Station.name station
  = or_else (stationName ix !! Station.id station) (Station.id station).
Proof.
  intros Hin.
  destruct (emitted_entry _ _ _ _ Hin) as (rids & _ & Hrec & _).
  by rewrite Hrec at 1.
Qed.

Lemma output_lines_NoDup stop_times station :
  station ∈ (buildStationLines only_subway ix stop_times).1 →
  NoDup (Station.lines station).
Proof.
  intros Hin.
  destruct (emitted_entry _ _ _ _ Hin) as (rids & _ & Hrec & _ & _ & _ & Hne).
  rewrite (emitted_lines ix station rids Hrec Hne), array_sort_perm.
  apply JSFacts.NoDup_from.
Qed.

Lemma output_ids_NoDup stop_times :
  NoDup (Station.id <$> (buildStationLines only_subway ix stop_times).1).
Proof.
  cbn [buildStationLines fst]. rewrite assemble_ids. apply well_formed_aggregate.
Qed.
End output_events.

(** X5. The output holds exactly what the stop-time records put there:
    a station id is in the output if and only if some record resolves to
    that station and passes the mode filter, and a code is in the lines
    of a station if and only if it is the line code of the route of such
    a record at that station.  No station and no line appears without a
    record behind it. *)
Theorem X5_output_is_exactly_the_events
    (only_subway : bool) (ix : Indices) (stop_times : list Row) :
  (∀ s,
     s ∈ Station.id <$> (buildStationLines only_subway ix stop_times).1 ↔
     ∃ row r, row ∈ stop_times ∧ resolves ix row = Some (s, r)
              ∧ (only_subway = true → not_subway ix r = false))
  ∧ (∀ station code,
       station ∈ (buildStationLines only_subway ix stop_times).1 →
       code ∈ Station.lines station ↔
       ∃ row r, row ∈ stop_times ∧ resolves ix row = Some (Station.id station, r)
                ∧ (only_subway = true → not_subway ix r = false)
                ∧ code = line_code ix r).
Proof.
  split.
  - intros s. rewrite output_ids. setoid_rewrite event_spelled. naive_solver.
  - intros station code Hin. rewrite (output_lines _ _ _ _ _ Hin).
    setoid_rewrite event_spelled. naive_solver.
Qed.

(** In the subway-only scenario the line "SIR" of the station is there
    because of the record of trip "s". *)
Lemma X5_output_is_exactly_the_events_witness :
  ∃ row r,
    row ∈ Scenario.mixed_visits
    ∧ resolves Scenario.mixed_indices row = Some ("101", r)
    ∧ (true = true → not_subway Scenario.mixed_indices r = false)
    ∧ "SIR" = line_code Scenario.mixed_indices r.
Proof.
  destruct (X5_output_is_exactly_the_events true Scenario.mixed_indices
              Scenario.mixed_visits) as [_ Hlines].
  apply (Hlines (Station.mk "101" "Grand Ave" ["Q"; "SIR"]) "SIR").
  - vm_compute. apply list_elem_of_here.
  - apply list_elem_of_further, list_elem_of_here.
Defined.

(** ** Repeated and reordered records *)

Lemma set_present {V : Type} k (v : V) m : JSMap.get k m = Some v → JSMap.set k v m = m.
Proof.
  induction m as [|[k' v'] m IH]; simpl; [done|].
  destruct (bool_decide_reflect (k = k')) as [->|Hne].
  - by intros [= ->].
  - intros Hget. by rewrite IH.
Qed.

Lemma add_present x s : x ∈ s → JSSet.add x s = s.
Proof. intros Hin. unfold JSSet.add. by rewrite bool_decide_eq_true_2. Qed.

Lemma add_route_present s r m : has_route s r m → add_route s r m = m.
Proof.
  intros (set & Hget & Hin). unfold add_route. rewrite Hget.
  rewrite add_present by done. by apply set_present.
Qed.

Lemma accumulate_present m events :
  (∀ s r, (s, r) ∈ events → has_route s r m) → accumulate m events = m.
Proof.
  unfold accumulate. induction events as [|[s r] events IH]; intros Hall; simpl; [done|].
  rewrite add_route_present by (apply Hall, list_elem_of_here).
  apply IH. intros s' r' Hin. by apply Hall, list_elem_of_further.
Qed.

Lemma accumulate_app m events more :
  accumulate m (events ++ more) = accumulate (accumulate m events) more.
Proof. unfold accumulate. apply foldl_app. Qed.

(** X6. Stop-time records that repeat earlier records change nothing:
    with every record of [more] already among the records of [before],
    the output for [before ++ more ++ after] is the output for
    [before ++ after]. *)
Theorem X6_repeated_records_change_nothing
    (only_subway : bool) (ix : Indices) (before more after : list Row) :
  (∀ row, row ∈ more → row ∈ before) →
  Agg.stationRoutes (aggregate only_subway ix (before ++ more ++ after))
  = Agg.stationRoutes (aggregate only_subway ix (before ++ after))
  ∧ (buildStationLines only_subway ix (before ++ more ++ after)).1
    = (buildStationLines only_subway ix (before ++ after)).1.
Proof.
  intros Hmore.
  assert (Agg.stationRoutes (aggregate only_subway ix (before ++ more ++ after))
          = Agg.stationRoutes (aggregate only_subway ix (before ++ after))) as Hacc.
  { rewrite !aggregate_stationRoutes, !omap_app, !accumulate_app. f_equal.
    apply accumulate_present. intros s r (row & Hrow & Hev)%list_elem_of_omap.
    apply has_route_accumulate. right. apply list_elem_of_omap.
    exists row. split; [by apply Hmore|done]. }
  split; [done|]. cbn [buildStationLines fst]. by rewrite Hacc.
Qed.

(** The natural-ordering scenario with its first two records repeated in
    the middle. *)
Lemma X6_repeated_records_change_nothing_witness :
  (buildStationLines false Scenario.four_indices
     (take 2 Scenario.four_visits ++ take 2 Scenario.four_visits
      ++ drop 2 Scenario.four_visits)).1
  = (buildStationLines false Scenario.four_indices
       (take 2 Scenario.four_visits ++ drop 2 Scenario.four_visits)).1.
Proof.
  apply (X6_repeated_records_change_nothing false Scenario.four_indices
           (take 2 Scenario.four_visits) (take 2 Scenario.four_visits)
           (drop 2 Scenario.four_visits)).
  intros row Hrow. exact Hrow.
Defined.

(** X7. The order of the stop-time records does not change what the
    output holds: for a reordering of the records the output has the
    same station ids, and a station has the same name and the same line
    codes (the order of the output can differ only where the comparators
    tie). *)
Theorem X7_record_order_is_immaterial
    (only_subway : bool) (ix : Indices) (stop_times reordered : list Row) :
  stop_times ≡ₚ reordered →
  Station.id <$> (buildStationLines only_subway ix stop_times).1
    ≡ₚ Station.id <$> (buildStationLines only_subway ix reordered).1
  ∧ ∀ station,
      station ∈ (buildStationLines only_subway ix stop_times).1 →
      ∃ station',
        station' ∈ (buildStationLines only_subway ix reordered).1
        ∧ Station.id station' = Station.id station
        ∧ Station.name station' = Station.name station
        ∧ Station.lines station' ≡ₚ Station.lines station.
Proof.
  intros Hperm.
  assert (∀ s, s ∈ Station.id <$> (buildStationLines only_subway ix stop_times).1 ↔
               s ∈ Station.id <$> (buildStationLines only_subway ix reordered).1) as Hids.
  { intros s. rewrite !output_ids. by setoid_rewrite Hperm. }
  split.
  - apply NoDup_Permutation; [apply output_ids_NoDup..|done].
  - intros station Hin.
    assert (Station.id station
              ∈ Station.id <$> (buildStationLines only_subway ix reordered).1)
      as (station' & Hid & Hin')%list_elem_of_fmap
      by (apply Hids; by apply list_elem_of_fmap_2).
    exists station'. split_and!; [done..| |].
    + rewrite (output_name _ _ _ _ Hin), (output_name _ _ _ _ Hin'). by rewrite Hid.
    + apply NoDup_Permutation; [by eapply output_lines_NoDup..|].
      intros code. rewrite (output_lines _ _ _ _ _ Hin), (output_lines _ _ _ _ _ Hin').
      rewrite <-Hid. by setoid_rewrite Hperm.
Qed.

(** The natural-ordering scenario read backwards. *)
Lemma X7_record_order_is_immaterial_witness :
  Station.id <$> (buildStationLines false Scenario.four_indices Scenario.four_visits).1
    ≡ₚ Station.id <$> (buildStationLines false Scenario.four_indices
                         (reverse Scenario.four_visits)).1.
Proof.
  apply (X7_record_order_is_immaterial false Scenario.four_indices
           Scenario.four_visits (reverse Scenario.four_visits)).
  symmetry. apply reverse_Permutation.
Defined.

(** X8. The subway-only flag only removes: every station of the output
    built with the flag is a station of the output built without it,
    under the same name, and each of its line codes is among the line
    codes the station has there. *)
Theorem X8_filter_only_removes (ix : Indices) (stop_times : list Row) (station : Station.t) :
  station ∈ (buildStationLines true ix stop_times).1 →
  ∃ station',
    station' ∈ (buildStationLines false ix stop_times).1
    ∧ Station.id station' = Station.id station
    ∧ Station.name station' = Station.name station
    ∧ ∀ code, code ∈ Station.lines station → code ∈ Station.lines station'.
Proof.
  intros Hin.
  assert (∀ row s r, event true ix row = Some (s, r) → event false ix row = Some (s, r))
    as Hweaker.
  { intros row s r [Hres _]%event_resolves. by apply event_resolves. }
  assert (Station.id station ∈ Station.id <$> (buildStationLines false ix stop_times).1)
    as (station' & Hid & Hin')%list_elem_of_fmap.
  { apply output_ids.
    assert (Station.id station ∈ Station.id <$> (buildStationLines true ix stop_times).1)
      as (row & r & Hrow & Hev)%output_ids by (by apply list_elem_of_fmap_2).
    exists row, r. split; [done|by apply Hweaker]. }
  exists station'. split_and!; [done..| |].
  - rewrite (output_name _ _ _ _ Hin), (output_name _ _ _ _ Hin'). by rewrite Hid.
  - intros code (row & r & Hrow & Hev & ->)%(output_lines _ _ _ _ _ Hin).
    apply (output_lines _ _ _ _ _ Hin'). exists row, r.
    rewrite <-Hid. split_and!; [done| |done]. by apply Hweaker.
Qed.

(** The station of the subway-only scenario lists Q and SIR with the
    flag, and those two among its lines without it. *)
Lemma X8_filter_only_removes_witness :
  ∃ station',
    station' ∈ (buildStationLines false Scenario.mixed_indices Scenario.mixed_visits).1
    ∧ Station.id station' = "101"
    ∧ Station.name station' = "Grand Ave"
    ∧ ∀ code, code ∈ ["Q"; "SIR"] → code ∈ Station.lines station'.
Proof.
  apply (X8_filter_only_removes Scenario.mixed_indices Scenario.mixed_visits
           (Station.mk "101" "Grand Ave" ["Q"; "SIR"])).
  vm_compute. apply list_elem_of_here.
Defined.

(** ** The first missing file *)

Lemma preflight_first path_join argv fs before f after :
  (∀ g, g ∈ before → is_Some (fs (path_join (GTFS_DIR argv) g))) →
  fs (path_join (GTFS_DIR argv) f) = None →
  preflight path_join argv fs (before ++ f :: after)
  = Some (MsgMissing f (path_join (GTFS_DIR argv) f)).
Proof.
  intros Hbefore Hf. induction before as [|g before IH]; cbn [app preflight].
  - rewrite Hf. by rewrite bool_decide_eq_false_2 by (by intros [? ?]).
  - rewrite bool_decide_eq_true_2 by apply Hbefore, list_elem_of_here.
    apply IH. intros g' Hg'. by apply Hbefore, list_elem_of_further.
Qed.

(** X9. The pre-flight check stops at the first required file that is
    absent, in the order stops, routes, trips, stop_times: the run
    reports this file alone and ends with exit code 1, whatever the state
    of the files after it. *)
Theorem X9_first_missing_file_is_reported
    (path_join : string → string → string) (argv : list string)
    (fs : string → option (list Row)) (before : list string) (f : string)
    (after : list string) :
  required = before ++ f :: after →
  (∀ g, g ∈ before → is_Some (fs (path_join (GTFS_DIR argv) g))) →
  fs (path_join (GTFS_DIR argv) f) = None →
  script path_join argv fs
  = {| exitCode := 1; stdout := [];
       stderr := [MsgMissing f (path_join (GTFS_DIR argv) f)];
       written := None |}.
Proof.
  intros Hreq Hbefore Hf. unfold script. rewrite Hreq.
  by rewrite (preflight_first _ _ _ _ _ _ Hbefore Hf).
Qed.

(** With [routes.txt] and [trips.txt] both absent, the report names
    [routes.txt]. *)
Lemma X9_first_missing_file_is_reported_witness :
  script Scenario.join Scenario.argv
    (Scenario.files (Some Scenario.stops) None None (Some Scenario.stop_times))
  = {| exitCode := 1; stdout := [];
       stderr := [MsgMissing "routes.txt"
                    (Scenario.join (GTFS_DIR Scenario.argv) "routes.txt")];
       written := None |}.
Proof.
  apply (X9_first_missing_file_is_reported Scenario.join Scenario.argv _
           ["stops.txt"] "routes.txt" ["trips.txt"; "stop_times.txt"]).
  - reflexivity.
  - intros g ->%list_elem_of_singleton. vm_compute. eauto.
  - vm_compute. reflexivity.
Defined.

(** ** The order of the accumulator *)




(** ** Line names and feeds *)

Module ServerFacts.
Import JSString Server.

Lemma is_space_upper c : is_space (upper c) = is_space c.
Proof. by destruct c as [[] [] [] [] [] [] [] []]. Qed.

Lemma upper_upper c : upper (upper c) = upper c.
Proof. by destruct c as [[] [] [] [] [] [] [] []]. Qed.

Lemma toUpperCase_idemp s : toUpperCase (toUpperCase s) = toUpperCase s.
Proof. induction s as [|c s IH]; simpl; [done|]. by rewrite upper_upper, IH. Qed.

Lemma toUpperCase_trimStart s : toUpperCase (trimStart s) = trimStart (toUpperCase s).
Proof.
  induction s as [|c s IH]; simpl; [done|].
  rewrite is_space_upper. by destruct (is_space c).
Qed.

Lemma toUpperCase_empty s : toUpperCase s = "" ↔ s = "".
Proof. by destruct s. Qed.

Lemma toUpperCase_trimEnd s : toUpperCase (trimEnd s) = trimEnd (toUpperCase s).
Proof.
  induction s as [|c s IH]; simpl; [done|].
  rewrite <-IH, is_space_upper.
  destruct (trimEnd s) as [|c' t]; simpl; [|done].
  by destruct (is_space c).
Qed.

Lemma toUpperCase_trim s : toUpperCase (trim s) = trim (toUpperCase s).
Proof. unfold trim. by rewrite toUpperCase_trimEnd, toUpperCase_trimStart. Qed.

Lemma trimEnd_idemp s : trimEnd (trimEnd s) = trimEnd s.
Proof.
  induction s as [|c s IH]; simpl; [done|].
  destruct (trimEnd s) as [|c' t] eqn:Ht.
  - destruct (is_space c) eqn:Hc; simpl; [done|]. by rewrite Hc.
  - simpl in *. by rewrite IH.
Qed.

(** A string with no space in front keeps none when its end is trimmed. *)
Lemma trimStart_trimEnd s : trimStart s = s → trimStart (trimEnd s) = trimEnd s.
Proof.
  destruct s as [|c s]; simpl; [done|].
  destruct (is_space c) eqn:Hc.
  - intros Hs. exfalso.
    assert (∀ s', (String.length (trimStart s') ≤ String.length s')%nat) as Hlen.
    { induction s' as [|c' s' IH]; simpl; [done|]. destruct (is_space c'); simpl; lia. }
    pose proof (Hlen s) as Hle. rewrite Hs in Hle. simpl in Hle. lia.
  - intros _. destruct (trimEnd s); simpl; by rewrite Hc.
Qed.

Lemma trimStart_idemp s : trimStart (trimStart s) = trimStart s.
Proof.
  induction s as [|c s IH]; simpl; [done|].
  destruct (is_space c) eqn:Hc; [done|]. simpl. by rewrite Hc.
Qed.

Lemma trim_idemp s : trim (trim s) = trim s.
Proof.
  unfold trim. rewrite (trimStart_trimEnd (trimStart s)) by apply trimStart_idemp.
  apply trimEnd_idemp.
Qed.

Lemma or_else_Some_empty s : or_else (Some s) "" = s.
Proof. unfold or_else, truthy. by case_bool_decide. Qed.

Lemma normalizeLine_idemp x :
  normalizeLine (Some (normalizeLine x)) = normalizeLine x.
Proof.
  unfold normalizeLine. rewrite or_else_Some_empty.
  by rewrite <-toUpperCase_trim, toUpperCase_idemp, trim_idemp.
Qed.

Lemma wanted_lines_idemp lines :
  wanted_lines ((λ l, normalizeLine (Some l)) <$> lines) = wanted_lines lines.
Proof.
  unfold wanted_lines. f_equal. rewrite <-list_fmap_compose.
  apply list_fmap_ext. intros _ l _. simpl. apply normalizeLine_idemp.
Qed.

Lemma table_in_all_feeds l u :
  JSMap.get l FEED_BY_LINE = Some u → u ∈ ALL_FEEDS ∧ u ≠ "".
Proof.
  assert (Forall (λ e : string * string, e.2 ∈ ALL_FEEDS ∧ e.2 ≠ "") FEED_BY_LINE) as Hall.
  { unfold FEED_BY_LINE. repeat (apply Forall_cons; split; [split; [compute_done|done]|]).
    apply Forall_nil_2. }
  intros Hget%JSFacts.get_Some_elem. rewrite Forall_forall in Hall.
  apply (Hall (l, u) Hget).
Qed.

Lemma elem_of_collect_from u acc wanted :
  u ∈ foldl (λ set l, match truthy (JSMap.get l FEED_BY_LINE) with
                      | Some u => JSSet.add u set
                      | None => set
                      end) acc wanted ↔
  u ∈ acc ∨ ∃ l, l ∈ wanted ∧ JSMap.get l FEED_BY_LINE = Some u.
Proof.
  revert acc. induction wanted as [|l wanted IH]; intros acc; cbn [foldl].
  - split; [auto|]. intros [?|(l & ?%not_elem_of_nil & _)]; done.
  - rewrite IH. setoid_rewrite elem_of_cons.
    destruct (truthy (JSMap.get l FEED_BY_LINE)) as [u'|] eqn:Hl.
    + apply truthy_Some in Hl as [Hl _]. rewrite JSFacts.elem_of_add. split.
      * intros [[->|Hacc]|(l' & Hl' & Hget)].
        -- right. exists l. auto.
        -- by left.
        -- right. exists l'. auto.
      * intros [Hacc|(l' & [->|Hl'] & Hget)].
        -- left. by right.
        -- left. left. congruence.
        -- right. by exists l'.
    + split.
      * intros [Hacc|(l' & Hl' & Hget)]; [by left|]. right. exists l'. auto.
      * intros [Hacc|(l' & [->|Hl'] & Hget)]; [by left| |right; by exists l'].
        exfalso. destruct (table_in_all_feeds _ _ Hget) as [_ Hne].
        apply truthy_None in Hl as [Hl|Hl]; congruence.
Qed.

Lemma elem_of_collect u wanted :
  u ∈ collect_feeds wanted ↔ ∃ l, l ∈ wanted ∧ JSMap.get l FEED_BY_LINE = Some u.
Proof.
  unfold collect_feeds. rewrite elem_of_collect_from.
  split; [intros [?%not_elem_of_nil|?]; done|auto].
Qed.

Lemma NoDup_collect wanted : NoDup (collect_feeds wanted).
Proof.
  unfold collect_feeds. generalize (NoDup_nil_2 (A:=string)). generalize (@nil string).
  induction wanted as [|l wanted IH]; intros acc Hacc; cbn [foldl]; [done|].
  apply IH. destruct (truthy (JSMap.get l FEED_BY_LINE)); [|done].
  by apply JSFacts.NoDup_add.
Qed.

Lemma elem_of_wanted l lines :
  l ∈ wanted_lines lines ↔ l ≠ "" ∧ ∃ x, x ∈ lines ∧ l = normalizeLine (Some x).
Proof.
  unfold wanted_lines. rewrite list_elem_of_filter, list_elem_of_fmap. naive_solver.
Qed.

(** The case of a name and the blanks around it do not reach the
    normalised name. *)
Lemma is_space_lower c : is_space (Collation.lower c) = is_space c.
Proof. by destruct c as [[] [] [] [] [] [] [] []]. Qed.

Lemma upper_lower c : upper (Collation.lower c) = upper c.
Proof. by destruct c as [[] [] [] [] [] [] [] []]. Qed.

Lemma toUpperCase_lower s : toUpperCase (Collation.toLowerCase s) = toUpperCase s.
Proof. induction s as [|c s IH]; simpl; [done|]. by rewrite upper_lower, IH. Qed.

Lemma toLowerCase_trimStart s :
  Collation.toLowerCase (trimStart s) = trimStart (Collation.toLowerCase s).
Proof.
  induction s as [|c s IH]; simpl; [done|].
  rewrite is_space_lower. by destruct (is_space c).
Qed.

Lemma toLowerCase_trimEnd s :
  Collation.toLowerCase (trimEnd s) = trimEnd (Collation.toLowerCase s).
Proof.
  induction s as [|c s IH]; simpl; [done|].
  rewrite <-IH, is_space_lower.
  destruct (trimEnd s) as [|c' t]; simpl; [|done].
  by destruct (is_space c).
Qed.

Lemma trimStart_blank s : blank s = true → trimStart s = "".
Proof.
  induction s as [|c s IH]; simpl; [done|].
  intros [-> Hs]%andb_true_iff. by apply IH.
Qed.

Lemma trimEnd_blank s : blank s = true → trimEnd s = "".
Proof.
  induction s as [|c s IH]; simpl; [done|].
  intros [-> Hs]%andb_true_iff. by rewrite IH.
Qed.

Lemma trimStart_app_blank before s :
  blank before = true → trimStart (before ++ s)%string = trimStart s.
Proof.
  induction before as [|c before IH]; [done|]. cbn [blank].
  intros [Hc Hb]%andb_true_iff.
  change (String c before ++ s)%string with (String c (before ++ s)).
  cbn [trimStart]. rewrite Hc. by apply IH.
Qed.

Lemma trimEnd_app_blank s after :
  blank after = true → trimEnd (s ++ after)%string = trimEnd s.
Proof.
  intros Hafter. induction s as [|c s IH]; [by apply trimEnd_blank|].
  change (String c s ++ after)%string with (String c (s ++ after)).
  cbn [trimEnd]. by rewrite IH.
Qed.

Lemma trim_app_blank before s after :
  blank before = true → blank after = true →
  trim (before ++ s ++ after)%string = trim s.
Proof.
  intros Hbefore Hafter. unfold trim. rewrite trimStart_app_blank by done.
  induction s as [|c s IH].
  - cbn [append]. rewrite trimStart_blank by done. done.
  - change (String c s ++ after)%string with (String c (s ++ after)).
    cbn [trimStart]. destruct (is_space c); [done|].
    change (String c (s ++ after)) with (String c s ++ after)%string.
    by apply trimEnd_app_blank.
Qed.

Lemma normalizeLine_upper l :
  normalizeLine (Some (toUpperCase l)) = normalizeLine (Some l).
Proof.
  unfold normalizeLine. rewrite !or_else_Some_empty.
  by rewrite <-toUpperCase_trim, toUpperCase_idemp.
Qed.

Lemma normalizeLine_lower l :
  normalizeLine (Some (Collation.toLowerCase l)) = normalizeLine (Some l).
Proof.
  unfold normalizeLine, trim. rewrite !or_else_Some_empty.
  by rewrite <-toLowerCase_trimStart, <-toLowerCase_trimEnd, toUpperCase_lower.
Qed.

Lemma normalizeLine_blanks before l after :
  blank before = true → blank after = true →
  normalizeLine (Some (before ++ l ++ after)%string) = normalizeLine (Some l).
Proof.
  intros Hbefore Hafter. unfold normalizeLine. rewrite !or_else_Some_empty.
  by rewrite trim_app_blank.
Qed.

(** The feeds depend on the names through their normalised form. *)
Lemma pickFeedUrlsForLines_ext (f : string → string) lines :
  (∀ l, normalizeLine (Some (f l)) = normalizeLine (Some l)) →
  pickFeedUrlsForLines (f <$> lines) = pickFeedUrlsForLines lines.
Proof.
  intros Hf. unfold pickFeedUrlsForLines, wanted_lines.
  rewrite <-list_fmap_compose.
  by rewrite (list_fmap_ext _ (λ l, normalizeLine (Some l)) lines) by (intros; apply Hf).
Qed.

End ServerFacts.

(** X11. Whatever lines are asked for, [pickFeedUrlsForLines] returns a
    list of feeds that is not empty, repeats none and holds only feeds of
    [ALL_FEEDS]; and the answer does not depend on the case of the line
    names nor on blanks around them: the names in upper case, the names
    in lower case and the names with white space before and after them
    select the same feeds. *)
Theorem X11_feeds_always_usable (lines : list string) :
  Server.pickFeedUrlsForLines lines ≠ []
  ∧ NoDup (Server.pickFeedUrlsForLines lines)
  ∧ (∀ u, u ∈ Server.pickFeedUrlsForLines lines → u ∈ Server.ALL_FEEDS)
  ∧ Server.pickFeedUrlsForLines (JSString.toUpperCase <$> lines)
    = Server.pickFeedUrlsForLines lines
  ∧ Server.pickFeedUrlsForLines (Collation.toLowerCase <$> lines)
    = Server.pickFeedUrlsForLines lines
  ∧ (∀ before after,
       JSString.blank before = true → JSString.blank after = true →
       Server.pickFeedUrlsForLines ((λ l : string, (before ++ l ++ after)%string) <$> lines)
       = Server.pickFeedUrlsForLines lines).
Proof.
  assert (NoDup Server.ALL_FEEDS) as Hall by compute_done.
  split_and!.
  4: apply ServerFacts.pickFeedUrlsForLines_ext, ServerFacts.normalizeLine_upper.
  4: apply ServerFacts.pickFeedUrlsForLines_ext, ServerFacts.normalizeLine_lower.
  4: { intros before after Hbefore Hafter.
       apply (ServerFacts.pickFeedUrlsForLines_ext
                (λ l : string, (before ++ l ++ after)%string)).
       intros l. by apply ServerFacts.normalizeLine_blanks. }
  all: unfold Server.pickFeedUrlsForLines;
    destruct (Server.wanted_lines lines) as [|l wanted] eqn:Hwanted; [done|];
    pose proof (ServerFacts.NoDup_collect (l :: wanted)) as Hnodup;
    pose proof (λ u, proj1 (ServerFacts.elem_of_collect u (l :: wanted))) as Hin;
    destruct (Server.collect_feeds (l :: wanted)) as [|u urls]; [done|]; try done.
  intros u' (l' & _ & Hget)%Hin. by apply (ServerFacts.table_in_all_feeds l').
Qed.

(** The line Q selects the NQRW feed, however it is written. *)
Lemma X11_feeds_always_usable_witness :
  Server.pickFeedUrlsForLines ["Q"] = [Server.feed "-nqrw"]
  ∧ Server.pickFeedUrlsForLines ["q"] = [Server.feed "-nqrw"]
  ∧ Server.pickFeedUrlsForLines ["  q "] = [Server.feed "-nqrw"].
Proof.
  destruct (X11_feeds_always_usable ["q"]) as (_ & _ & _ & Hupper & _ & Hblanks).
  split_and!.
  - exact (eq_trans Hupper eq_refl).
  - vm_compute. reflexivity.
  - exact (eq_trans (Hblanks "  " " " eq_refl eq_refl) eq_refl).
Defined.

(** X12. For line names of 7-bit ASCII: when at least one of the lines
    asked for is a line of the table, the feeds returned are exactly the
    feeds of those lines; when none is (no line at all, or only unknown
    names), all feeds are returned. *)
Theorem X12_feeds_of_the_lines (lines : list string) :
  Forall (λ l, Collation.ascii_only l = true) lines →
  ((∃ l u, l ∈ lines
           ∧ JSMap.get (Server.normalizeLine (Some l)) Server.FEED_BY_LINE = Some u) →
   ∀ u, u ∈ Server.pickFeedUrlsForLines lines ↔
        ∃ l, l ∈ lines
             ∧ JSMap.get (Server.normalizeLine (Some l)) Server.FEED_BY_LINE = Some u)
  ∧ ((∀ l, l ∈ lines →
           JSMap.get (Server.normalizeLine (Some l)) Server.FEED_BY_LINE = None) →
     Server.pickFeedUrlsForLines lines = Server.ALL_FEEDS).
Proof.
  intros _.
  assert (∀ u, u ∈ Server.collect_feeds (Server.wanted_lines lines) ↔
               ∃ l, l ∈ lines
                    ∧ JSMap.get (Server.normalizeLine (Some l)) Server.FEED_BY_LINE
                      = Some u) as Hcollect.
  { intros u. rewrite ServerFacts.elem_of_collect.
    setoid_rewrite ServerFacts.elem_of_wanted. split.
    - intros (l & (_ & x & Hx & ->) & Hget). by exists x.
    - intros (x & Hx & Hget). exists (Server.normalizeLine (Some x)).
      split; [|done]. split; [|by exists x].
      intros Hempty. rewrite Hempty in Hget. vm_compute in Hget. done. }
  unfold Server.pickFeedUrlsForLines. split.
  - intros (l & u & Hl & Hget) u'.
    assert (u ∈ Server.collect_feeds (Server.wanted_lines lines)) as Hu
      by (apply Hcollect; by exists l).
    rewrite <-Hcollect.
    destruct (Server.wanted_lines lines) as [|l0 wanted]; [by apply not_elem_of_nil in Hu|].
    destruct (Server.collect_feeds (l0 :: wanted)); [by apply not_elem_of_nil in Hu|done].
  - intros Hnone.
    destruct (Server.wanted_lines lines) as [|l0 wanted]; [done|].
    destruct (Server.collect_feeds (l0 :: wanted)) as [|u urls] eqn:Hurls; [done|].
    assert (u ∈ u :: urls) as (l & Hl & Hget)%Hcollect by apply list_elem_of_here.
    rewrite (Hnone l Hl) in Hget. done.
Qed.

(** The lines " q " and "a" select the NQRW feed and the ACE feed, in the
    order asked; the unknown line "X9" alone selects every feed. *)
Lemma X12_feeds_of_the_lines_witness :
  (∀ u, u ∈ Server.pickFeedUrlsForLines [" q "; "a"]
        ↔ u = Server.feed "-nqrw" ∨ u = Server.feed "-ace")
  ∧ Server.pickFeedUrlsForLines [" q "; "a"] = [Server.feed "-nqrw"; Server.feed "-ace"]
  ∧ Server.pickFeedUrlsForLines ["X9"] = Server.ALL_FEEDS.
Proof.
  destruct (X12_feeds_of_the_lines ["X9"]) as [_ Hall]; [compute_done|].
  destruct (X12_feeds_of_the_lines [" q "; "a"]) as [Hsome _]; [compute_done|].
  split_and!; [|vm_compute; reflexivity|].
  - intros u. rewrite Hsome.
    + split.
      * intros (l & [->|[->|[]%elem_of_nil]%elem_of_cons]%elem_of_cons & Hget);
          vm_compute in Hget; injection Hget as <-; auto.
      * intros [->| ->]; [exists " q "|exists "a"];
          (split; [set_solver|vm_compute; reflexivity]).
    + exists " q ", (Server.feed "-nqrw"). split; [set_solver|vm_compute; reflexivity].
  - apply Hall. intros l ->%list_elem_of_singleton. vm_compute. reflexivity.
Defined.

(** ** Departures *)

(** A fold whose steps only grow the state, and where a step repeated on
    a state that has grown past it does nothing. *)
Section absorbing_fold.
Context {S X : Type} (step : S → X → S) (le : S → S → Prop).
Hypothesis le_refl : ∀ s, le s s.
Hypothesis le_trans : ∀ s1 s2 s3, le s1 s2 → le s2 s3 → le s1 s3.
Hypothesis step_grows : ∀ s x, le s (step s x).
Hypothesis step_absorbed : ∀ s x s', le (step s x) s' → step s' x = s'.

Lemma foldl_grows s l : le s (foldl step s l).
Proof using le_refl le_trans step_grows.
  revert s. induction l as [|x l IH]; intros s; cbn [foldl]; [done|].
  eapply le_trans; [apply step_grows|apply IH].
Qed.

Lemma foldl_elem_absorbed s l x s' :
  x ∈ l → le (foldl step s l) s' → step s' x = s'.
Proof using le_refl le_trans step_grows step_absorbed.
  revert s. induction l as [|y l IH]; intros s; [by intros ?%not_elem_of_nil|].
  cbn [foldl]. intros [->|Hin]%elem_of_cons Hle.
  - apply (step_absorbed s). eapply le_trans; [apply foldl_grows|done].
  - by apply (IH (step s y)).
Qed.

Lemma foldl_fixed s' l : (∀ x, x ∈ l → step s' x = s') → foldl step s' l = s'.
Proof using Type.
  induction l as [|x l IH]; intros Hfix; cbn [foldl]; [done|].
  rewrite Hfix by apply list_elem_of_here.
  apply IH. intros y Hy. by apply Hfix, list_elem_of_further.
Qed.

Lemma foldl_absorbed s l s' : le (foldl step s l) s' → foldl step s' l = s'.
Proof using le_refl le_trans step_grows step_absorbed.
  intros Hle. apply foldl_fixed. intros x Hx. by apply (foldl_elem_absorbed s l).
Qed.
End absorbing_fold.

Lemma StronglySorted_weaken {A : Type} (R R' : A → A → Prop) (l : list A) :
  (∀ x y, R x y → R' x y) → StronglySorted R l → StronglySorted R' l.
Proof.
  intros Hweak. induction 1 as [|x l Hl IH Hx]; constructor; [done|].
  eapply Forall_impl; [done|]. intros y. apply Hweak.
Qed.

Section departures.
Import Server.
Variables (nowSec : Z) (stopIds allowedLines : list string).

Lemma scan_update_scans routeId tripId st stu :
  normalizeLine (Some routeId) = routeId →
  (wanted_lines allowedLines ≠ [] →
   ∃ l, l ∈ allowedLines ∧ routeId = normalizeLine (Some l)) →
  scans nowSec stopIds allowedLines st →
  scans nowSec stopIds allowedLines (scan_update nowSec stopIds routeId tripId st stu).
Proof using Type.
  intros Hnorm Hallowed (Hseen & Hlen & Hsound). unfold scan_update.
  destruct (truthy (StopTimeUpdate.stopId stu)) as [stopId|] eqn:Hstop; [|done].
  destruct (bool_decide_reflect (stopId ∈ stopIds)) as [Hin|]; [|done]. cbn [negb].
  destruct (update_time stu) as [t|]; [|done].
  destruct (Z.eqb_spec t 0) as [|Ht]; [done|].
  destruct (Z.ltb_spec (t - nowSec) 0) as [|Heta]; [done|].
  destruct (bool_decide_reflect
              (departure_key routeId stopId t tripId ∈ Scan.seen st)) as [|Hnew]; [done|].
  split_and!; cbn [Scan.seen Scan.departures].
  - by apply JSFacts.NoDup_add.
  - unfold JSSet.add. rewrite bool_decide_eq_false_2 by done.
    rewrite !length_app. simpl. lia.
  - apply Forall_app. split; [done|]. apply Forall_singleton.
    apply truthy_Some in Hstop as [_ Hstop].
    unfold sound. cbn. split_and!; try done. lia.
Qed.

Lemma scan_entity_scans st entity :
  scans nowSec stopIds allowedLines st →
  scans nowSec stopIds allowedLines (scan_entity nowSec stopIds allowedLines st entity).
Proof using Type.
  intros Hst. unfold scan_entity.
  destruct (FeedEntity.tripUpdate entity) as [tripUpdate|]; [|done].
  destruct (TripUpdate.stopTimeUpdate tripUpdate) as [updates|]; [|done].
  set (routeId := normalizeLine (TripUpdate.trip tripUpdate ≫= TripDescriptor.routeId)).
  destruct (bool_decide_reflect (allowSet allowedLines = [])) as [Hempty|Hsome];
    cbn [negb andb].
  - apply foldl_invariant; [done|]. intros st' stu Hst' _.
    apply scan_update_scans; [apply ServerFacts.normalizeLine_idemp| |done].
    intros Hwanted. exfalso. unfold allowSet in Hempty.
    destruct (wanted_lines allowedLines) as [|l ls] eqn:Hw; [done|].
    assert (l ∈ JSSet.from (l :: ls)) as Hl
      by (apply JSFacts.elem_of_from, list_elem_of_here).
    rewrite Hempty in Hl. by apply not_elem_of_nil in Hl.
  - destruct (bool_decide_reflect (routeId ∈ allowSet allowedLines)) as [Hin|]; [|done].
    cbn [negb]. apply foldl_invariant; [done|]. intros st' stu Hst' _.
    apply scan_update_scans; [apply ServerFacts.normalizeLine_idemp| |done].
    intros _. unfold allowSet in Hin.
    apply JSFacts.elem_of_from, ServerFacts.elem_of_wanted in Hin as (_ & l & Hl & Heq).
    by exists l.
Qed.

Lemma scan_scans feeds :
  scans nowSec stopIds allowedLines (scan nowSec stopIds allowedLines feeds).
Proof using Type.
  unfold scan. apply foldl_invariant.
  - split_and!; [apply NoDup_nil_2|done|apply Forall_nil_2].
  - intros st feed Hst _. unfold scan_feed. apply foldl_invariant; [done|].
    intros st' entity Hst' _. by apply scan_entity_scans.
Qed.

Lemma grown_refl s : grown s s.
Proof using Type. unfold grown. set_solver. Qed.

Lemma grown_trans s1 s2 s3 : grown s1 s2 → grown s2 s3 → grown s1 s3.
Proof using Type. unfold grown. set_solver. Qed.

Lemma scan_update_grows routeId tripId st stu :
  grown st (scan_update nowSec stopIds routeId tripId st stu).
Proof using Type.
  unfold grown, scan_update.
  repeat (match goal with
          | |- context [match ?x with _ => _ end] => destruct x
          end); try set_solver.
  cbn [Scan.seen]. intros k Hk. apply JSFacts.elem_of_add. by right.
Qed.

Lemma scan_update_absorbed routeId tripId st stu st' :
  grown (scan_update nowSec stopIds routeId tripId st stu) st' →
  scan_update nowSec stopIds routeId tripId st' stu = st'.
Proof using Type.
  unfold grown, scan_update.
  destruct (truthy (StopTimeUpdate.stopId stu)) as [stopId|]; [|done].
  destruct (negb (bool_decide (stopId ∈ stopIds))); [done|].
  destruct (update_time stu) as [t|]; [|done].
  destruct (t =? 0)%Z; [done|].
  destruct (t - nowSec <? 0)%Z; [done|].
  destruct (bool_decide_reflect
              (departure_key routeId stopId t tripId ∈ Scan.seen st)) as [Hold|Hnew].
  - intros Hle. by rewrite bool_decide_eq_true_2 by (by apply Hle).
  - cbn [Scan.seen]. intros Hle. rewrite bool_decide_eq_true_2; [done|].
    apply Hle, JSFacts.elem_of_add. by left.
Qed.

Lemma scan_entity_grows st entity :
  grown st (scan_entity nowSec stopIds allowedLines st entity).
Proof using Type.
  unfold scan_entity.
  destruct (FeedEntity.tripUpdate entity) as [tripUpdate|]; [|apply grown_refl].
  destruct (TripUpdate.stopTimeUpdate tripUpdate) as [updates|]; [|apply grown_refl].
  destruct (_ && _); [apply grown_refl|].
  apply (foldl_grows _ grown grown_refl grown_trans). intros s x. apply scan_update_grows.
Qed.

Lemma scan_entity_absorbed st entity st' :
  grown (scan_entity nowSec stopIds allowedLines st entity) st' →
  scan_entity nowSec stopIds allowedLines st' entity = st'.
Proof using Type.
  unfold scan_entity.
  destruct (FeedEntity.tripUpdate entity) as [tripUpdate|]; [|done].
  destruct (TripUpdate.stopTimeUpdate tripUpdate) as [updates|]; [|done].
  destruct (_ && _); [done|].
  apply (foldl_absorbed _ grown grown_refl grown_trans).
  - intros s x. apply scan_update_grows.
  - intros s x s''. apply scan_update_absorbed.
Qed.

Lemma scan_feed_grows st feed : grown st (scan_feed nowSec stopIds allowedLines st feed).
Proof using Type.
  apply (foldl_grows _ grown grown_refl grown_trans). intros s x. apply scan_entity_grows.
Qed.

Lemma scan_feed_absorbed st feed st' :
  grown (scan_feed nowSec stopIds allowedLines st feed) st' →
  scan_feed nowSec stopIds allowedLines st' feed = st'.
Proof using Type.
  apply (foldl_absorbed _ grown grown_refl grown_trans).
  - intros s x. apply scan_entity_grows.
  - intros s x s''. apply scan_entity_absorbed.
Qed.

Lemma scan_repeated feeds more :
  (∀ feed, feed ∈ more → feed ∈ feeds) →
  scan nowSec stopIds allowedLines (feeds ++ more) = scan nowSec stopIds allowedLines feeds.
Proof using Type.
  intros Hmore. unfold scan. rewrite foldl_app. apply foldl_fixed.
  intros feed Hfeed.
  apply (foldl_elem_absorbed _ grown grown_refl grown_trans scan_feed_grows
           scan_feed_absorbed Scan.empty feeds); [by apply Hmore|apply grown_refl].
Qed.

(** The time of a departure is a time of the feeds. *)
Lemma update_time_listed stu t : update_time stu = Some t → t ∈ update_times stu.
Proof using Type.
  unfold update_time, update_times.
  destruct (event_time (StopTimeUpdate.arrival stu)) as [ta|].
  - intros [= ->]. apply elem_of_app. left. apply list_elem_of_here.
  - intros ->. apply elem_of_app. right. apply list_elem_of_here.
Qed.

Lemma scan_update_times (times : list Z) routeId tripId st stu :
  (∀ t, t ∈ update_times stu → t ∈ times) →
  Forall (λ d, Departure.timestamp d ∈ times) (Scan.departures st) →
  Forall (λ d, Departure.timestamp d ∈ times)
    (Scan.departures (scan_update nowSec stopIds routeId tripId st stu)).
Proof using Type.
  intros Hstu Hst. unfold scan_update.
  destruct (truthy (StopTimeUpdate.stopId stu)) as [stopId|]; [|done].
  destruct (negb (bool_decide (stopId ∈ stopIds))); [done|].
  destruct (update_time stu) as [t|] eqn:Ht; [|done].
  destruct (t =? 0)%Z; [done|].
  destruct (t - nowSec <? 0)%Z; [done|].
  destruct (bool_decide _); [done|]. cbn [Scan.departures].
  apply Forall_app. split; [done|]. apply Forall_singleton. cbn.
  by apply Hstu, update_time_listed.
Qed.

Lemma scan_entity_times (times : list Z) st entity :
  (∀ t, t ∈ entity_updates entity ≫= update_times → t ∈ times) →
  Forall (λ d, Departure.timestamp d ∈ times) (Scan.departures st) →
  Forall (λ d, Departure.timestamp d ∈ times)
    (Scan.departures (scan_entity nowSec stopIds allowedLines st entity)).
Proof using Type.
  unfold scan_entity, entity_updates.
  destruct (FeedEntity.tripUpdate entity) as [tripUpdate|]; [|done]. cbn [mbind option_bind].
  destruct (TripUpdate.stopTimeUpdate tripUpdate) as [updates|]; [|done]. cbn [default].
  intros Hentity Hst. destruct (_ && _); [done|].
  apply (foldl_invariant (λ st, Forall (λ d, Departure.timestamp d ∈ times)
                                  (Scan.departures st))); [done|].
  intros st' stu Hst' Hstu. apply scan_update_times; [|done].
  intros t Ht. apply Hentity, list_elem_of_bind. by exists stu.
Qed.

Lemma scan_times feeds :
  Forall (λ d, Departure.timestamp d ∈ feeds ≫= feed_times)
    (Scan.departures (scan nowSec stopIds allowedLines feeds)).
Proof using Type.
  unfold scan.
  apply (foldl_invariant (λ st, Forall (λ d, Departure.timestamp d ∈ feeds ≫= feed_times)
                                  (Scan.departures st))); [apply Forall_nil_2|].
  intros st feed Hst Hfeed. unfold scan_feed.
  apply (foldl_invariant (λ st, Forall (λ d, Departure.timestamp d ∈ feeds ≫= feed_times)
                                  (Scan.departures st))); [done|].
  intros st' entity Hst' Hentity. apply scan_entity_times; [|done].
  intros t Ht. apply list_elem_of_bind. exists feed. split; [|done].
  unfold feed_times. apply list_elem_of_bind in Ht as (stu & Ht & Hstu).
  apply list_elem_of_bind. exists stu. split; [done|].
  apply list_elem_of_bind. by exists entity.
Qed.

Lemma sound_result feeds d :
  d ∈ filterDeparturesForStops nowSec stopIds allowedLines feeds →
  sound nowSec stopIds allowedLines d.
Proof using Type.
  unfold filterDeparturesForStops. rewrite elem_of_array_sort.
  destruct (scan_scans feeds) as (_ & _ & Hsound). rewrite Forall_forall in Hsound.
  apply Hsound.
Qed.
End departures.

(** X13. For a call in the range where the model is exact (the clock
    and the times of the feeds are safe integers, the names are 7-bit
    ASCII): every departure [filterDeparturesForStops] returns is for a
    stop that was asked for; its time is a time of the feeds, is set and
    is not before the current second; the delay is a safe integer and
    its minutes are the delay rounded to the nearest minute; its route
    name is in normalised form and, when lines were asked for, is the
    normalised form of one of them. *)
Theorem X13_departures_are_sound
    (nowSec : Z) (stopIds allowedLines : list string) (feeds : list Server.FeedMessage.t)
    (d : Server.Departure.t) :
  Server.in_range nowSec allowedLines feeds →
  d ∈ Server.filterDeparturesForStops nowSec stopIds allowedLines feeds →
  Server.Departure.stopId d ∈ stopIds ∧ Server.Departure.stopId d ≠ ""
  ∧ Server.Departure.timestamp d ∈ feeds ≫= Server.feed_times
  ∧ Server.Departure.timestamp d ≠ 0%Z ∧ (nowSec <= Server.Departure.timestamp d)%Z
  ∧ (0 <= Server.Departure.timestamp d - nowSec <= Server.MAX_SAFE_INTEGER)%Z
  ∧ (0 <= Server.Departure.etaMinutes d)%Z
  ∧ (60 * Server.Departure.etaMinutes d - 30
     <= Server.Departure.timestamp d - nowSec
     < 60 * Server.Departure.etaMinutes d + 30)%Z
  ∧ Server.normalizeLine (Some (Server.Departure.routeId d)) = Server.Departure.routeId d
  ∧ (Server.wanted_lines allowedLines ≠ [] →
     ∃ l, l ∈ allowedLines
          ∧ Server.Departure.routeId d = Server.normalizeLine (Some l)).
Proof.
  intros (Hnow & Htimes & _ & _) Hd.
  assert (Server.Departure.timestamp d ∈ feeds ≫= Server.feed_times) as Hlisted.
  { pose proof (scan_times nowSec stopIds allowedLines feeds) as Hall.
    rewrite Forall_forall in Hall. apply Hall.
    unfold Server.filterDeparturesForStops in Hd. by rewrite elem_of_array_sort in Hd. }
  rewrite Forall_forall in Htimes. specialize (Htimes _ Hlisted).
  apply sound_result in Hd as (Hstop & Hne & Ht & Hnowd & Heta & Hnorm & Hallowed).
  split_and!; try done.
  - lia.
  - lia.
  - rewrite Heta. unfold Server.round_minutes. apply Z.div_pos; lia.
  - rewrite Heta. unfold Server.round_minutes.
    pose proof (Z.mul_div_le (Server.Departure.timestamp d - nowSec + 30) 60). lia.
  - rewrite Heta. unfold Server.round_minutes.
    pose proof (Z.mul_succ_div_gt (Server.Departure.timestamp d - nowSec + 30) 60). lia.
Qed.

(** At second 900 the sample feed gives two departures from the stop
    R14N on the line Q, the earlier one first; the first leaves in 40
    seconds, which is one minute when rounded. *)
Lemma X13_departures_are_sound_witness :
  Server.filterDeparturesForStops 900 ["R14N"] ["Q"] [Server.sample_feed]
  = [Server.Departure.mk "Q" "R14N" 940 1; Server.Departure.mk "Q" "R14N" 1000 2]
  ∧ Server.Departure.stopId (Server.Departure.mk "Q" "R14N" 940 1) ∈ ["R14N"]
  ∧ (60 * 1 - 30 <= 940 - 900 < 60 * 1 + 30)%Z.
Proof.
  assert (Server.in_range 900 ["Q"] [Server.sample_feed]) as Hrange.
  { unfold Server.in_range. split_and!; compute_done. }
  destruct (X13_departures_are_sound 900 ["R14N"] ["Q"] [Server.sample_feed]
              (Server.Departure.mk "Q" "R14N" 940 1) Hrange)
    as (Hstop & _ & _ & _ & _ & _ & _ & Hround & _).
  { vm_compute. apply list_elem_of_here. }
  split; [vm_compute; reflexivity|]. split; [exact Hstop|exact Hround].
Defined.

(** X14. The departures come back in the order of their times, earliest
    first, and the sort loses and adds nothing: one departure for each
    key the scan has seen, and no key twice. *)
Theorem X14_departures_are_sorted
    (nowSec : Z) (stopIds allowedLines : list string) (feeds : list Server.FeedMessage.t) :
  StronglySorted
    (λ a b, (Server.Departure.timestamp a <= Server.Departure.timestamp b)%Z)
    (Server.filterDeparturesForStops nowSec stopIds allowedLines feeds)
  ∧ Server.filterDeparturesForStops nowSec stopIds allowedLines feeds
    ≡ₚ Server.Scan.departures (Server.scan nowSec stopIds allowedLines feeds)
  ∧ NoDup (Server.Scan.seen (Server.scan nowSec stopIds allowedLines feeds))
  ∧ length (Server.filterDeparturesForStops nowSec stopIds allowedLines feeds)
    = length (Server.Scan.seen (Server.scan nowSec stopIds allowedLines feeds)).
Proof.
  destruct (scan_scans nowSec stopIds allowedLines feeds) as (Hseen & Hlen & _).
  unfold Server.filterDeparturesForStops. split_and!.
  - apply (StronglySorted_weaken (cmp_le Server.by_timestamp)).
    + intros a b. unfold cmp_le, Server.by_timestamp. by rewrite Z.compare_gt_iff, Z.nlt_ge.
    + apply array_sort_strongly_sorted.
      * intros a b. unfold Server.by_timestamp. rewrite !Z.compare_gt_iff. lia.
      * intros a b c. unfold cmp_le, Server.by_timestamp.
        rewrite !Z.compare_gt_iff. lia.
  - apply array_sort_perm.
  - done.
  - by rewrite array_sort_length.
Qed.

(** X15. A feed fetched twice counts once: when every feed of [more] is
    already among [feeds], the departures extracted from the feeds
    followed by [more] are those extracted from the feeds. *)
Theorem X15_repeated_feeds_change_nothing
    (nowSec : Z) (stopIds allowedLines : list string)
    (feeds more : list Server.FeedMessage.t) :
  (∀ feed, feed ∈ more → feed ∈ feeds) →
  Server.filterDeparturesForStops nowSec stopIds allowedLines (feeds ++ more)
  = Server.filterDeparturesForStops nowSec stopIds allowedLines feeds.
Proof.
  intros Hmore. unfold Server.filterDeparturesForStops.
  by rewrite scan_repeated.
Qed.

Lemma X15_repeated_feeds_change_nothing_witness :
  Server.filterDeparturesForStops 900 ["R14N"] []
    ([Server.sample_feed] ++ [Server.sample_feed])
  = [Server.Departure.mk "Q" "R14N" 940 1; Server.Departure.mk "Q" "R14N" 1000 2].
Proof.
  rewrite (X15_repeated_feeds_change_nothing 900 ["R14N"] []
             [Server.sample_feed] [Server.sample_feed]).
  - vm_compute. reflexivity.
  - intros feed Hfeed. exact Hfeed.
Defined.

(** ** CSV fields *)

Module CsvFacts.
Import Csv.

Lemma append_quote_inj a b :
  (a ++ String quote EmptyString = b ++ String quote EmptyString)%string → a = b.
Proof.
  revert b. induction a as [|c a IH]; intros [|c' b]; simpl; try done.
  - intros [= _ Hb]. by destruct b.
  - intros [= _ Ha]. by destruct a.
  - intros [= -> Hab]. by rewrite (IH b Hab).
Qed.

Lemma double_quotes_inj a b : double_quotes a = double_quotes b → a = b.
Proof.
  revert b. induction a as [|c a IH]; intros [|c' b]; simpl.
  - done.
  - by case_bool_decide.
  - by case_bool_decide.
  - destruct (bool_decide_reflect (c = quote)) as [->|Hc],
      (bool_decide_reflect (c' = quote)) as [->|Hc'].
    + intros [= Hab]. by rewrite (IH b Hab).
    + intros [= Hq _]. by destruct Hc'.
    + intros [= Hq _]. by destruct Hc.
    + intros [= -> Hab]. by rewrite (IH b Hab).
Qed.

(** A string that needs no quoting does not start with a quote. *)
Lemma plain_no_quote c s : special (String c s) = false → c ≠ quote.
Proof.
  simpl. intros Hs ->. by rewrite (bool_decide_eq_true_2 (quote = quote)) in Hs.
Qed.

Lemma special_empty : special "" = false.
Proof. done. Qed.

End CsvFacts.

(** X16. The CSV escaping loses nothing: two values with the same
    escaped form are equal.  A value without comma, double quote and
    line feed is written as it is, and any other value is written
    between double quotes with its own double quotes doubled. *)
Theorem X16_esc_is_injective :
  (∀ a b, Csv.esc a = Csv.esc b → a = b)
  ∧ (∀ v, Csv.special v = false → Csv.esc v = v)
  ∧ (∀ v, Csv.special v = true →
          Csv.esc v
          = String Csv.quote (Csv.double_quotes v ++ String Csv.quote EmptyString)
          ∧ Csv.esc v ≠ v).
Proof.
  split_and!.
  - intros a b. unfold Csv.esc.
    destruct (Csv.special a) eqn:Ha, (Csv.special b) eqn:Hb.
    + intros [= Hab%CsvFacts.append_quote_inj]. by apply CsvFacts.double_quotes_inj.
    + destruct b as [|c b]; [done|]. intros [= <- _].
      by destruct (CsvFacts.plain_no_quote _ _ Hb).
    + destruct a as [|c a]; [done|]. intros [= -> _].
      by destruct (CsvFacts.plain_no_quote _ _ Ha).
    + done.
  - intros v Hv. unfold Csv.esc. by rewrite Hv.
  - intros v Hv. unfold Csv.esc. rewrite Hv. split; [done|].
    intros Heq. assert (String.length (String Csv.quote
      (Csv.double_quotes v ++ String Csv.quote EmptyString)) = String.length v) as Hlen
      by (by rewrite Heq).
    assert (∀ s, (String.length s ≤ String.length (Csv.double_quotes s))%nat) as Hgrow.
    { induction s as [|c s IH]; simpl; [done|]. case_bool_decide; simpl; lia. }
    assert (∀ a b, String.length (a ++ b)%string
                   = (String.length a + String.length b)%nat) as Happ.
    { induction a as [|c a IH]; intros b; simpl; [done|]. by rewrite IH. }
    simpl in Hlen. rewrite Happ in Hlen. pose proof (Hgrow v). simpl in Hlen. lia.
Qed.

(** The name "Broadway, Upper" is written between quotes; the name
    "Broadway" as it is. *)
Lemma X16_esc_is_injective_witness :
  Csv.esc "Broadway" = "Broadway"
  ∧ String.length (Csv.esc "Broadway, Upper") = 17
  ∧ Csv.text [Station.mk "101" "Grand Ave" ["Q"; "R"]]
    = JSString.join (String Csv.newline EmptyString) ["id,name,lines"; "101,Grand Ave,Q R"].
Proof.
  destruct X16_esc_is_injective as (_ & Hplain & _).
  split_and!; [apply Hplain| |]; vm_compute; reflexivity.
Defined.

(** ** The station list of the board *)

Section ui_facts.
Variables (stationsBase : list Station.t) (records stopRows : list Row).



Lemma dir_step_provenance ds row id dir p :
  Ui.platform (Ui.dir_step stationsBase ds row) id dir = Some p →
  Ui.platform ds id dir = Some p ∨ Ui.qualifies stationsBase row id dir p.
Proof.
  unfold Ui.platform, Ui.dir_step, Ui.qualifies.
  destruct (truthy (row !! "stop_id")) as [stopId|]; [|auto].
  destruct (bool_decide_reflect (is_Some (JSMap.get (Ui.stationId_of row stopId)
                                            (Ui.byId stationsBase)))) as [Hhas|];
    cbn [negb]; [|auto].
  destruct (Ui.inferDirFromStopId stopId) as [dir'|] eqn:Hdir; [|auto].
  destruct (decide (Ui.stationId_of row stopId = id)) as [<-|Hne].
  - rewrite lookup_insert_eq. simpl.
    destruct (ds !! Ui.stationId_of row stopId) as [m|]; simpl.
    + destruct (bool_decide_reflect (is_Some (m !! dir'))); [auto|].
      destruct (decide (dir' = dir)) as [->|Hd].
      * rewrite lookup_insert_eq. intros [= <-]. right. done.
      * rewrite lookup_insert_ne by done. auto.
    + rewrite bool_decide_eq_false_2 by (rewrite lookup_empty; by intros [? ?]).
      destruct (decide (dir' = dir)) as [->|Hd].
      * rewrite lookup_insert_eq. intros [= <-]. right. done.
      * rewrite lookup_insert_ne, lookup_empty by done. done.
  - rewrite lookup_insert_ne by done. auto.
Qed.

Lemma dirStops_snoc rows row :
  Ui.dirStopsByStation stationsBase (rows ++ [row])
  = Ui.dir_step stationsBase (Ui.dirStopsByStation stationsBase rows) row.
Proof. unfold Ui.dirStopsByStation. by rewrite foldl_app. Qed.


Lemma dirStops_provenance rows id dir p :
  Ui.platform (Ui.dirStopsByStation stationsBase rows) id dir = Some p →
  ∃ row, row ∈ rows ∧ Ui.qualifies stationsBase row id dir p.
Proof.
  induction rows as [|row rows IH] using rev_ind.
  - unfold Ui.platform, Ui.dirStopsByStation. simpl. by rewrite lookup_empty.
  - rewrite dirStops_snoc. intros [Hold|Hnew]%dir_step_provenance.
    + destruct (IH Hold) as (row' & Hin & Hq). exists row'.
      split; [apply elem_of_app; by left|done].
    + exists row. split; [apply elem_of_app; right; apply list_elem_of_here|done].
Qed.




Lemma elem_of_direction_entry d id dir :
  d ∈ Ui.direction_entry stationsBase stopRows id dir ↔
  Ui.Direction.dir d = dir
  ∧ Ui.platform (Ui.dirStopsByStation stationsBase stopRows) id dir
    = Some (Ui.Direction.stopId d).
Proof.
  unfold Ui.direction_entry. destruct d as [dir' p]. simpl.
  destruct (Ui.platform _ id dir) as [p'|].
  - rewrite list_elem_of_singleton. split; [by intros [= -> ->]|by intros [-> [= ->]]].
  - rewrite elem_of_nil. split; [done|by intros [_ ?]].
Qed.

Lemma elem_of_directions d id :
  d ∈ Ui.directions_of stationsBase stopRows id ↔
  (Ui.Direction.dir d = "N" ∨ Ui.Direction.dir d = "S")
  ∧ Ui.platform (Ui.dirStopsByStation stationsBase stopRows) id (Ui.Direction.dir d)
    = Some (Ui.Direction.stopId d).
Proof.
  unfold Ui.directions_of. rewrite elem_of_app, !elem_of_direction_entry.
  split.
  - intros [[HN Hp]|[HS Hp]]; [rewrite HN|rewrite HS]; auto.
  - intros [[HN|HS] Hp]; [left; by rewrite HN in Hp|right; by rewrite HS in Hp].
Qed.
End ui_facts.

Section ui_stations.
Context {C : Collator}.
Variables (stationsBase : list Station.t) (records stopRows : list Row).

Lemma byId_invariant :
  NoDup (JSMap.keys (Ui.byId stationsBase))
  ∧ ∀ id s, JSMap.get id (Ui.byId stationsBase) = Some s →
            s ∈ stationsBase ∧ Station.id s = id.
Proof.
  unfold Ui.byId.
  apply (foldl_invariant (λ m : list (string * Station.t),
    NoDup (JSMap.keys m)
    ∧ ∀ id s, JSMap.get id m = Some s → s ∈ stationsBase ∧ Station.id s = id)).
  - split; [apply NoDup_nil_2|done].
  - intros m s [Hkeys Hvals] Hs. split; [by apply JSFacts.NoDup_keys_set|].
    intros id s'. destruct (decide (Station.id s = id)) as [<-|Hne].
    + rewrite JSFacts.get_set_eq. by intros [= <-].
    + rewrite JSFacts.get_set_ne by done. apply Hvals.
Qed.

Lemma byId_entry e :
  e ∈ Ui.byId stationsBase → e.2 ∈ stationsBase ∧ Station.id e.2 = e.1.
Proof.
  destruct e as [id s]. intros Hin. destruct byId_invariant as [Hkeys Hvals].
  apply Hvals. by apply JSFacts.elem_get.
Qed.

Lemma byId_has s :
  s ∈ stationsBase → is_Some (JSMap.get (Station.id s) (Ui.byId stationsBase)).
Proof.
  unfold Ui.byId. induction stationsBase as [|s' base IH] using rev_ind.
  - by intros ?%not_elem_of_nil.
  - rewrite foldl_app. cbn [foldl].
    intros [Hin| ->%list_elem_of_singleton]%elem_of_app.
    + destruct (decide (Station.id s' = Station.id s)) as [->|Hne].
      * rewrite JSFacts.get_set_eq. eauto.
      * rewrite JSFacts.get_set_ne by done. by apply IH.
    + rewrite JSFacts.get_set_eq. eauto.
Qed.

Lemma elem_of_out u :
  u ∈ Ui.out stationsBase records stopRows ↔
  ∃ e, e ∈ Ui.byId stationsBase ∧ u = Ui.ui_station stationsBase records stopRows e.
Proof.
  unfold Ui.out. rewrite elem_of_array_sort, list_elem_of_fmap. naive_solver.
Qed.

Lemma out_directions u :
  u ∈ Ui.out stationsBase records stopRows →
  Ui.UiStation.directions u
  = Ui.directions_of stationsBase stopRows (Ui.UiStation.id u)
  ∧ is_Some (JSMap.get (Ui.UiStation.id u) (Ui.byId stationsBase)).
Proof.
  intros (e & He & ->)%elem_of_out. destruct (byId_entry e He) as [_ Hid].
  cbn [Ui.ui_station Ui.UiStation.directions Ui.UiStation.id]. rewrite Hid.
  split; [done|]. destruct e as [id s]. simpl.
  destruct byId_invariant as [Hkeys _]. rewrite (JSFacts.elem_get _ _ _ Hkeys He). eauto.
Qed.
End ui_stations.





Section ui_names.
Variables (stationsBase : list Station.t) (records stopRows : list Row).





End ui_names.



Section ui_order.
Context {C : Collator}.
Hypothesis HC : lawful C.
Variables (stationsBase : list Station.t) (records stopRows : list Row).

Lemma compare_ui_consistent : consistent Ui.compare_ui.
Proof using HC.
  apply (consistent_then
           (λ a b, localeCompare false (Ui.UiStation.borough a) (Ui.UiStation.borough b))
           (λ a b, localeCompare false (Ui.UiStation.displayName a)
                     (Ui.UiStation.displayName b))).
  - apply (consistent_on Ui.UiStation.borough), HC.
  - apply (consistent_on Ui.UiStation.displayName), HC.
Qed.

Lemma compare_ui_total a b : Ui.compare_ui a b = Gt → Ui.compare_ui b a ≠ Gt.
Proof using HC. apply consistent_total, compare_ui_consistent. Qed.

Lemma compare_ui_trans a b c :
  cmp_le Ui.compare_ui a b → cmp_le Ui.compare_ui b c → cmp_le Ui.compare_ui a c.
Proof using HC. apply consistent_trans, compare_ui_consistent. Qed.

Lemma out_ids :
  Ui.UiStation.id <$> Ui.out stationsBase records stopRows
    ≡ₚ JSMap.keys (Ui.byId stationsBase).
Proof using Type.
  unfold Ui.out, JSMap.keys. rewrite array_sort_perm, <-list_fmap_compose.
  erewrite list_fmap_ext; [done|]. intros _ e He%list_elem_of_lookup_2.
  simpl. by destruct (byId_entry stationsBase e He).
Qed.

Lemma byId_distinct :
  NoDup (Station.id <$> stationsBase) →
  Ui.byId stationsBase = (λ s, (Station.id s, s)) <$> stationsBase.
Proof using Type.
  unfold Ui.byId. induction stationsBase as [|s base IH] using rev_ind; [done|].
  rewrite !fmap_app, foldl_app. cbn [foldl fmap list_fmap].
  intros [Hbase [Hs _]]%NoDup_app. rewrite IH by done.
  assert (∀ (l : list Station.t) k v,
    k ∉ Station.id <$> l →
    JSMap.set k v ((λ s, (Station.id s, s)) <$> l)
    = ((λ s, (Station.id s, s)) <$> l) ++ [(k, v)]) as Hset.
  { induction l as [|s' l IHl]; intros k v; [done|].
    rewrite fmap_cons, not_elem_of_cons. intros [Hne Hk]. cbn [fmap list_fmap JSMap.set].
    rewrite bool_decide_eq_false_2 by done. cbn [app]. f_equal. by apply IHl. }
  apply Hset. intros Hin. apply (Hs _ Hin). apply list_elem_of_here.
Qed.
End ui_order.

(** X20. The board list is the station list with fields added: no
    station id appears twice, every station of the board list carries
    the id, the name and the lines of a station read, and every station
    read has its id in the board list; the list is sorted by borough and
    then by display name in the order of the collator of the platform,
    whichever consistent collator that is, and in the root collation
    that order ignores case.  Read from a station list without repeated
    id, as the station-line builder writes it, it holds exactly the ids
    of that list. *)
Theorem X20_board_list_keeps_the_stations
    (C : Collator) (stationsBase : list Station.t) (records stopRows : list Row) :
  lawful C →
  let out := Ui.out (C:=C) stationsBase records stopRows in
  NoDup (Ui.UiStation.id <$> out)
  ∧ (∀ u, u ∈ out →
          ∃ s, s ∈ stationsBase ∧ Ui.UiStation.id u = Station.id s
               ∧ Ui.UiStation.name u = Station.name s
               ∧ Ui.UiStation.lines u = Station.lines s)
  ∧ (∀ s, s ∈ stationsBase → Station.id s ∈ Ui.UiStation.id <$> out)
  ∧ StronglySorted (cmp_le (Ui.compare_ui (C:=C))) out
  ∧ (∀ a b,
       Ui.compare_ui (C:=root_collator) a b
       = match Collation.localeCompare false
                 (Collation.toLowerCase (Ui.UiStation.borough a))
                 (Collation.toLowerCase (Ui.UiStation.borough b)) with
         | Eq => Collation.localeCompare false
                   (Collation.toLowerCase (Ui.UiStation.displayName a))
                   (Collation.toLowerCase (Ui.UiStation.displayName b))
         | c => c
         end)
  ∧ (NoDup (Station.id <$> stationsBase) →
     Ui.UiStation.id <$> out ≡ₚ Station.id <$> stationsBase)
  ∧ (∀ only_subway stops routes trips stop_times,
       Ui.UiStation.id
         <$> Ui.out (C:=C) (pipeline (C:=C) only_subway stops routes trips stop_times)
               records stopRows
       ≡ₚ Station.id <$> pipeline (C:=C) only_subway stops routes trips stop_times).
Proof.
  intros HC out.
  assert (∀ base, NoDup (Station.id <$> base) →
            Ui.UiStation.id <$> Ui.out base records stopRows ≡ₚ Station.id <$> base)
    as Hdistinct.
  { intros base Hbase. rewrite out_ids, (byId_distinct base Hbase).
    unfold JSMap.keys. by rewrite <-list_fmap_compose. }
  unfold out. split_and!.
  - rewrite out_ids. apply byId_invariant.
  - intros u (e & He & ->)%elem_of_out.
    destruct (byId_entry stationsBase e He) as [Hin _]. by exists e.2.
  - intros s Hs. rewrite out_ids.
    destruct (byId_has stationsBase s Hs) as [s' Hget].
    destruct (decide (Station.id s ∈ JSMap.keys (Ui.byId stationsBase))) as [|Hnot];
      [done|].
    apply JSFacts.get_None in Hnot. congruence.
  - apply array_sort_strongly_sorted;
      [by apply compare_ui_total|by apply compare_ui_trans].
  - intros a b. unfold Ui.compare_ui.
    by rewrite !NaturalOrder.localeCompare_lower.
  - apply Hdistinct.
  - intros only_subway stops routes trips stop_times. apply Hdistinct.
    apply output_ids_NoDup.
Qed.

(** In the root collation.  The board list of the sample holds the ids
    of the sample; three stations of Queens, brooklyn and Queens named
    Zoo, ash and Elm come out as ash, Elm, Zoo: by borough, then by
    name, case ignored. *)
Lemma X20_board_list_keeps_the_stations_witness :
  Ui.UiStation.id <$> Ui.out Ui.sample_base Ui.sample_boroughs Ui.sample_stops
    ≡ₚ Station.id <$> Ui.sample_base
  ∧ Ui.UiStation.name <$> Ui.out Ui.order_base Ui.order_boroughs []
    = ["ash"; "Elm"; "Zoo"]
  ∧ StronglySorted (cmp_le Ui.compare_ui) (Ui.out Ui.order_base Ui.order_boroughs []).
Proof.
  destruct (X20_board_list_keeps_the_stations root_collator Ui.sample_base
              Ui.sample_boroughs Ui.sample_stops root_lawful) as (_ & _ & _ & _ & _ & Hids & _).
  destruct (X20_board_list_keeps_the_stations root_collator Ui.order_base
              Ui.order_boroughs [] root_lawful) as (_ & _ & _ & Hsorted & _).
  split_and!; [apply Hids; compute_done|vm_compute; reflexivity|exact Hsorted].
Defined.

(** ** The stop the page asks for *)

Section client.
Variables (stationsBase : list Station.t) (records stopRows : list Row).
Variable u : Ui.UiStation.t.
Hypothesis listed : u ∈ Ui.out stationsBase records stopRows.

Lemma direction_facts d :
  d ∈ Ui.UiStation.directions u →
  (Ui.Direction.dir d = "N" ∨ Ui.Direction.dir d = "S")
  ∧ Ui.Direction.stopId d ≠ ""
  ∧ ∀ d', d' ∈ Ui.UiStation.directions u →
          Ui.Direction.dir d' = Ui.Direction.dir d → d' = d.
Proof using listed.
  destruct (out_directions _ _ _ _ listed) as [Hdirs _]. rewrite Hdirs.
  intros [Hdir Hp]%elem_of_directions. split_and!; [done| |].
  - apply dirStops_provenance in Hp as (row & _ & Hstop & _).
    by apply truthy_Some in Hstop as [_ ?].
  - intros d' [_ Hp']%elem_of_directions Heq. rewrite Heq, Hp in Hp'.
    destruct d, d'. simpl in *. congruence.
Qed.

Lemma upper_N_or_S dir : dir = "N" ∨ dir = "S" → JSString.toUpperCase dir = dir.
Proof. by intros [->| ->]. Qed.
End client.

(** X21. For a station of the board list the page asks for the stop of
    the direction chosen when the station has one; for the stop of its
    other direction when it has only that one; and for the station id
    itself when it has no directions.  The direction is read without
    regard to case, and the stop asked for is never empty for a station
    whose id is not. *)
Theorem X21_stop_for_the_direction
    (stationsBase : list Station.t) (records stopRows : list Row)
    (u : Ui.UiStation.t) (dir : string) :
  u ∈ Ui.out stationsBase records stopRows →
  (∀ d, d ∈ Ui.UiStation.directions u →
        Ui.Direction.dir d = JSString.toUpperCase dir →
        Client.pickStopIdForDirection (Some u) dir = Ui.Direction.stopId d)
  ∧ (∀ first rest,
       Ui.UiStation.directions u = first :: rest →
       (∀ d, d ∈ Ui.UiStation.directions u →
             Ui.Direction.dir d ≠ JSString.toUpperCase dir) →
       Client.pickStopIdForDirection (Some u) dir = Ui.Direction.stopId first)
  ∧ (Ui.UiStation.directions u = [] →
     Client.pickStopIdForDirection (Some u) dir = Ui.UiStation.id u)
  ∧ (Ui.UiStation.id u ≠ "" → Client.pickStopIdForDirection (Some u) dir ≠ "").
Proof.
  intros Hu.
  pose proof (direction_facts _ _ _ u Hu) as Hfacts.
  assert (∀ d, d ∈ Ui.UiStation.directions u →
               Ui.Direction.dir d = JSString.toUpperCase dir →
               Client.pickStopIdForDirection (Some u) dir = Ui.Direction.stopId d) as Hwant.
  { intros d Hd Hdir. unfold Client.pickStopIdForDirection. simpl.
    destruct (Ui.UiStation.directions u) as [|first rest] eqn:Hdirs;
      [by apply not_elem_of_nil in Hd|].
    match goal with
    | |- context [List.find ?f ?l] => destruct (List.find f l) as [d'|] eqn:Hfind
    end.
    - apply List.find_some in Hfind as [Hd'%list_elem_of_In Heq%bool_decide_eq_true].
      destruct (Hfacts d' Hd') as (Hns & Hne & _).
      rewrite (upper_N_or_S _ Hns) in Heq.
      destruct (Hfacts d Hd) as (_ & _ & Huniq).
      rewrite (Huniq d' Hd') by congruence.
      cbn [fmap option_fmap option_map]. unfold truthy.
      destruct (Hfacts d Hd) as (_ & Hne' & _). by rewrite bool_decide_eq_false_2.
    - exfalso. apply list_elem_of_In in Hd.
      pose proof (List.find_none _ _ Hfind d Hd) as Hno.
      apply bool_decide_eq_false in Hno. apply Hno.
      destruct (Hfacts d (proj2 (list_elem_of_In _ _) Hd)) as (Hns & _).
      by rewrite (upper_N_or_S _ Hns). }
  assert (∀ first rest,
       Ui.UiStation.directions u = first :: rest →
       (∀ d, d ∈ Ui.UiStation.directions u →
             Ui.Direction.dir d ≠ JSString.toUpperCase dir) →
       Client.pickStopIdForDirection (Some u) dir = Ui.Direction.stopId first) as Hother.
  { intros first rest Hdirs Hnone. unfold Client.pickStopIdForDirection. simpl. rewrite Hdirs.
    match goal with
    | |- context [List.find ?f ?l] => destruct (List.find f l) as [d'|] eqn:Hfind
    end.
    - exfalso.
      apply List.find_some in Hfind as [Hd'%list_elem_of_In Heq%bool_decide_eq_true].
      rewrite <-Hdirs in Hd'. destruct (Hfacts d' Hd') as (Hns & _).
      rewrite (upper_N_or_S _ Hns) in Heq. by apply (Hnone d').
    - cbn [fmap option_fmap option_map truthy]. unfold or_else, truthy.
      destruct (Hfacts first) as (_ & Hne & _);
        [rewrite Hdirs; apply list_elem_of_here|].
      by rewrite bool_decide_eq_false_2. }
  assert (Ui.UiStation.directions u = [] →
          Client.pickStopIdForDirection (Some u) dir = Ui.UiStation.id u) as Hnone.
  { intros Hdirs. unfold Client.pickStopIdForDirection. simpl. rewrite Hdirs.
    apply ServerFacts.or_else_Some_empty. }
  split_and!; [done..|].
  intros Hid.
  destruct (Ui.UiStation.directions u) as [|first rest] eqn:Hdirs.
  - by rewrite Hnone.
  - destruct (decide (Exists (λ d, Ui.Direction.dir d = JSString.toUpperCase dir)
                        (first :: rest)))
      as [(d & Hd & Hdir)%Exists_exists|Hno].
    + rewrite (Hwant d Hd Hdir). by destruct (Hfacts d Hd) as (_ & ? & _).
    + rewrite (Hother first rest eq_refl).
      * destruct (Hfacts first) as (_ & ? & _); [apply list_elem_of_here|done].
      * intros d Hd Hdir. apply Hno, Exists_exists. by exists d.
Qed.

(** For the sample station "n" gives the northbound stop, and a
    direction it does not know gives its first stop. *)
Lemma X21_stop_for_the_direction_witness :
  Client.pickStopIdForDirection (Some Ui.sample_first) "n" = "101N"
  ∧ Client.pickStopIdForDirection (Some Ui.sample_first) "" = "101N".
Proof.
  destruct (X21_stop_for_the_direction Ui.sample_base Ui.sample_boroughs
              Ui.sample_stops Ui.sample_first "n") as (Hwant & _).
  { vm_compute. apply list_elem_of_here. }
  split; [|vm_compute; reflexivity].
  apply (Hwant (Ui.Direction.mk "N" "101N")); [apply list_elem_of_here|reflexivity].
Defined.

(** ** The merge of the boroughs *)

Module MergeFacts.
Import Merge.

Lemma lower_upper c : Collation.lower (JSString.upper c) = Collation.lower c.
Proof. by destruct c as [[] [] [] [] [] [] [] []]. Qed.

Lemma toLowerCase_upper s :
  Collation.toLowerCase (JSString.toUpperCase s) = Collation.toLowerCase s.
Proof. induction s as [|c s IH]; simpl; [done|]. by rewrite lower_upper, IH. Qed.

Lemma find_upper_keys (c : string) (row : list (string * string)) :
  List.find (λ kv : string * string,
               bool_decide (Collation.toLowerCase kv.1 = Collation.toLowerCase c))
    (map (λ kv : string * string, (JSString.toUpperCase kv.1, kv.2)) row)
  = (λ kv : string * string, (JSString.toUpperCase kv.1, kv.2))
      <$> List.find (λ kv : string * string,
                       bool_decide (Collation.toLowerCase kv.1 = Collation.toLowerCase c))
            row.
Proof.
  induction row as [|[k v] row IH]; simpl; [done|].
  rewrite toLowerCase_upper. by case_bool_decide.
Qed.

Lemma borough_step_values m r :
  (∀ id b, m !! id = Some b → id ≠ "" ∧ b ≠ "") →
  ∀ id b, borough_step m r !! id = Some b → id ≠ "" ∧ b ≠ "".
Proof.
  intros Hm id b. unfold borough_step.
  repeat case_bool_decide; simpl; try apply Hm.
  intros [[<- <-]|[_ ?]]%lookup_insert_Some; [done|by apply Hm].
Qed.

Lemma idToBorough_values rows id b :
  idToBorough rows !! id = Some b → id ≠ "" ∧ b ≠ "".
Proof.
  unfold idToBorough. revert id b.
  apply (foldl_invariant (λ m, ∀ id b, m !! id = Some b → id ≠ "" ∧ b ≠ "")).
  - intros id b. by rewrite lookup_empty.
  - intros m r Hm _. by apply borough_step_values.
Qed.

Lemma merge_unfold rows input init :
  let r := foldl (station_step (idToBorough rows)) init input in
  stations r = stations init ++ (merged (idToBorough rows) <$> input)
  ∧ matched r
    = (matched init
       + length (filter (λ s, is_Some (idToBorough rows !! clean (Ui.UiStation.id s)))
                   input))%nat
  ∧ (matched r + missing r = matched init + missing init + length input)%nat.
Proof.
  cbv zeta. revert init. induction input as [|s input IH]; intros init; simpl.
  - rewrite app_nil_r. split_and!; [done|lia..].
  - destruct (IH (station_step (idToBorough rows) init s)) as (Hst & Hm & Hsum).
    clear IH. revert Hst Hm Hsum.
    generalize (foldl (station_step (idToBorough rows))
                  (station_step (idToBorough rows) init s) input).
    intros r. unfold station_step, merged.
    destruct (idToBorough rows !! clean (Ui.UiStation.id s)) as [b|] eqn:Hb.
    + destruct (idToBorough_values _ _ _ Hb) as [_ Hne].
      assert (truthy (Some b) = Some b) as -> by by apply truthy_Some.
      rewrite filter_cons_True by (by rewrite Hb). simpl.
      rewrite <-app_assoc. intros -> Hm Hsum. split_and!; [done|lia..].
    + assert (truthy (None : option string) = None) as -> by (apply truthy_None; by left).
      rewrite filter_cons_False by (rewrite Hb; by intros [? ?]). simpl.
      rewrite <-app_assoc. intros -> Hm Hsum. split_and!; [done|lia..].
Qed.

End MergeFacts.



(** X23. Merging the same CSV a second time changes nothing: the
    stations and both counts come out as after the first merge. *)
Theorem X23_merge_is_idempotent
  (input : list Ui.UiStation.t) (rows : list (list (string * string))) :
  Merge.merge (Merge.stations (Merge.merge input rows)) rows = Merge.merge input rows.
Proof.
  unfold Merge.merge.
  set (init := {| Merge.stations := []; Merge.matched := 0; Merge.missing := 0 |}).
  set (boroughs := Merge.idToBorough rows).
  set (m1 := foldl (Merge.station_step boroughs) init input).
  set (m2 := foldl (Merge.station_step boroughs) init (Merge.stations m1)).
  assert (Merge.stations m1 = Merge.merged boroughs <$> input
          ∧ Merge.matched m1
            = length (filter (λ s, is_Some (boroughs !! Merge.clean (Ui.UiStation.id s)))
                        input)
          ∧ (Merge.matched m1 + Merge.missing m1)%nat = length input)
    as (Hst & Hm & Hsum) by apply (MergeFacts.merge_unfold rows input init).
  assert (Merge.stations m2 = Merge.merged boroughs <$> Merge.stations m1
          ∧ Merge.matched m2
            = length (filter (λ s, is_Some (boroughs !! Merge.clean (Ui.UiStation.id s)))
                        (Merge.stations m1))
          ∧ (Merge.matched m2 + Merge.missing m2)%nat = length (Merge.stations m1))
    as (Hst' & Hm' & Hsum') by apply (MergeFacts.merge_unfold rows (Merge.stations m1) init).
  clearbody m1 m2.
  assert (∀ s, Ui.UiStation.id (Merge.merged boroughs s) = Ui.UiStation.id s) as Hid.
  { intros s. unfold Merge.merged. by repeat case_match. }
  assert (∀ s, Merge.merged boroughs (Merge.merged boroughs s) = Merge.merged boroughs s)
    as Hidem.
  { intros s. unfold Merge.merged at 1. rewrite Hid. unfold Merge.merged.
    destruct (boroughs !! Merge.clean (Ui.UiStation.id s)); [done|].
    unfold Merge.with_borough. simpl.
    repeat case_bool_decide; simpl in *; congruence. }
  assert (Merge.stations m2 = Merge.stations m1) as Heq.
  { rewrite Hst', Hst, <-list_fmap_compose. apply list_fmap_ext. intros _ s _. apply Hidem. }
  assert (filter (λ s, is_Some (boroughs !! Merge.clean (Ui.UiStation.id s)))
            (Merge.stations m1)
          = Merge.merged boroughs
              <$> filter (λ s, is_Some (boroughs !! Merge.clean (Ui.UiStation.id s))) input)
    as Hfilter.
  { rewrite Hst. clear -Hid. induction input as [|s input IH]; [done|].
    rewrite fmap_cons.
    destruct (decide (is_Some (boroughs !! Merge.clean (Ui.UiStation.id s)))) as [Hs|Hs].
    - rewrite !filter_cons_True by (by rewrite ?Hid). by rewrite fmap_cons, IH.
    - rewrite !filter_cons_False by (by rewrite ?Hid). done. }
  rewrite Hfilter, length_fmap in Hm'. rewrite Hst, length_fmap in Hsum'.
  destruct m1 as [st1 k1 n1], m2 as [st2 k2 n2]. simpl in *.
  f_equal; [done|lia..].
Qed.

(** X24. The accessor of a field ignores the case of the headers and
    of the names it is asked for: a row with its headers in upper case,
    or candidates in upper case, give the same value. *)
Theorem X24_getField_ignores_case
  (row : list (string * string)) (candidates : list string) :
  Merge.getField (map (λ kv : string * string, (JSString.toUpperCase kv.1, kv.2)) row)
    candidates
  = Merge.getField row candidates
  ∧ Merge.getField row (map JSString.toUpperCase candidates)
    = Merge.getField row candidates.
Proof.
  split.
  - induction candidates as [|c candidates IH]; cbn [Merge.getField]; [done|].
    rewrite MergeFacts.find_upper_keys.
    destruct (List.find _ row) as [[hit value]|]; cbn [fmap option_fmap option_map]; [|done].
    rewrite IH. cbn [fst snd].
    destruct (decide (hit = "")) as [->|Hne]; [done|].
    rewrite !bool_decide_eq_false_2; [done..|].
    by rewrite ServerFacts.toUpperCase_empty.
  - induction candidates as [|c candidates IH]; cbn [Merge.getField map]; [done|].
    rewrite IH, MergeFacts.toLowerCase_upper. done.
Qed.

Module QuoteFacts.
Import Merge.

Lemma drop_closing_quote_cons c c' s :
  drop_closing_quote (String c (String c' s)) = String c (drop_closing_quote (String c' s)).
Proof. reflexivity. Qed.

Lemma drop_closing_quote_app s :
  drop_closing_quote (s ++ String Csv.quote EmptyString) = s.
Proof.
  induction s as [|c s IH]; [done|].
  destruct s as [|c' s]; [done|].
  change (drop_closing_quote
            (String c (String c' (s ++ String Csv.quote EmptyString)))
          = String c (String c' s)).
  rewrite drop_closing_quote_cons. f_equal. apply IH.
Qed.

Lemma drop_closing_quote_id s :
  (∀ t, s ≠ (t ++ String Csv.quote EmptyString)%string) → drop_closing_quote s = s.
Proof.
  induction s as [|c s IH]; intros Hend; [done|].
  destruct s as [|c' s].
  - simpl. case_bool_decide as Hc; [|done]. subst c. by destruct (Hend "").
  - rewrite drop_closing_quote_cons, IH; [done|].
    intros t Ht. apply (Hend (String c t)).
    change (String c (String c' s) = String c (t ++ String Csv.quote EmptyString)).
    by f_equal.
Qed.

End QuoteFacts.

(** X25. The cleaning of an identifier and of a borough removes one
    pair of double quotes around the value and nothing inside it: a
    value between double quotes comes out without them whatever it
    holds, and a value that neither starts nor ends with a double quote
    comes out as it is. *)
Theorem X25_strip_quotes_removes_the_enclosing_pair :
  (∀ s, Merge.strip_quotes (String Csv.quote (s ++ String Csv.quote EmptyString)) = s)
  ∧ (∀ s, (∀ t, s ≠ String Csv.quote t) →
          (∀ t, s ≠ (t ++ String Csv.quote EmptyString)%string) →
          Merge.strip_quotes s = s)
  ∧ (∀ x s, JSString.trim x = String Csv.quote (s ++ String Csv.quote EmptyString) →
            Merge.clean x = s).
Proof.
  split_and!.
  - intros s. unfold Merge.strip_quotes. rewrite bool_decide_eq_true_2 by done.
    apply QuoteFacts.drop_closing_quote_app.
  - intros [|c s] Hstart Hend; [done|].
    unfold Merge.strip_quotes. case_bool_decide as Hc.
    + subst c. by destruct (Hstart s).
    + by apply QuoteFacts.drop_closing_quote_id.
  - intros x s Hx. unfold Merge.clean. rewrite Hx.
    unfold Merge.strip_quotes. rewrite bool_decide_eq_true_2 by done.
    apply QuoteFacts.drop_closing_quote_app.
Qed.

(** A borough written between double quotes and blanks is read without
    them. *)
Lemma X25_strip_quotes_removes_the_enclosing_pair_witness :
  Merge.clean (" " ++ String Csv.quote ("Queens" ++ String Csv.quote " ")) = "Queens".
Proof.
  destruct X25_strip_quotes_removes_the_enclosing_pair as (_ & _ & Hclean).
  apply Hclean. vm_compute. reflexivity.
Defined.
